(** * Pithon: the control and telemetry link of the rescue robot

    A shallow embedding of [main.py]: the connection ([Rpi], [Server]), the
    telemetry de-framer ([Stream]), the gyroscope slot ([Model.process_ag2])
    and the actuator model ([Model.GPIO] and the slots bound to the control
    panel), with the properties of the specification proved or refuted on
    these definitions. *)

From stdpp Require Import base option list gmap strings pretty.
From Stdlib Require Import ZArith Floats Lia Ascii.
From Stdlib.Strings Require Import Byte.

Local Open Scope Z_scope.

(** ** Python exceptions and the state-and-exception monad *)

Inductive exn : Type :=
  | KeyError (key : string)
  | IndexError
  | TypeError
  | ValueError
  | OverflowError
  | struct_error
  | StopIteration.

(** What a pure library routine gives: a value or an exception. *)
Inductive result (A : Type) : Type :=
  | Ok (a : A)
  | Err (e : exn).
Arguments Ok {A} a.
Arguments Err {A} e.

(** What a method call gives: a value or an exception, with the state it
    leaves in both cases. [OutOfFuel] is not a Python outcome: it marks a run
    of the model that was given too small a bound (on the depth of nested
    signal deliveries, or on the length of an iteration). *)
Inductive outcome (S A : Type) : Type :=
  | Done (a : A) (s : S)
  | Raise (e : exn) (s : S)
  | OutOfFuel.
Arguments Done {S A} a s.
Arguments Raise {S A} e s.
Arguments OutOfFuel {S A}.

Definition M (S A : Type) : Type := S → outcome S A.

Section monad.
Context {S : Type}.

Definition ret {A} (a : A) : M S A := λ s, Done a s.

Definition bind {A B} (m : M S A) (k : A → M S B) : M S B :=
  λ s, match m s with
       | Done a s' => k a s'
       | Raise e s' => Raise e s'
       | OutOfFuel => OutOfFuel
       end.

Global Instance M_ret : MRet (M S) := @ret.
Global Instance M_bind : MBind (M S) := λ A B k m, bind m k.

Definition get : M S S := λ s, Done s s.
Definition modify (f : S → S) : M S unit := λ s, Done tt (f s).
Definition raise {A} (e : exn) : M S A := λ s, Raise e s.

(** A routine that does not touch the state. *)
Definition lift {A} (r : result A) : M S A :=
  λ s, match r with
       | Ok a => Done a s
       | Err e => Raise e s
       end.

(** [try: m except (e1, e2, ...): raise e'] *)
Definition reraise {A} (caught : exn → bool) (e' : exn) (m : M S A) : M S A :=
  λ s, match m s with
       | Raise e s' => if caught e then Raise e' s' else Raise e s'
       | r => r
       end.

End monad.

(** The line terminator of the wire format, Python's ["\n"]. *)
Definition LF : string := String "010"%char EmptyString.

(** ** ConnectionManager: [Rpi] and [Server] *)

Inductive level : Type := DEBUG | INFO | WARNING.

(** The file object [conn.makefile('rb')]: the bytes not yet read, and whether
    [close()] was called on it. *)
Record BufferedReader : Type := {
  pending : list Byte.byte;
  closed : bool
}.

(** The connection, as [rpi] and [server] share it: [rpi.alive], what was handed
    to [conn.send] (in order), [server.streamfile], whether
    [server.server_socket] was closed, and the records passed to [logging].
    The byte stream is taken to be reliable: [conn.send] hands its data over
    and returns. The accepted socket [conn] has no state of its own here, as
    nothing in the program closes it. *)
Record Net : Type := {
  alive : bool;
  conn_sent : list string;
  streamfile : BufferedReader;
  server_socket_closed : bool;
  log : list (level * string)
}.

Definition logging (l : level) (msg : string) (n : Net) : Net :=
  {| alive := alive n; conn_sent := conn_sent n; streamfile := streamfile n;
     server_socket_closed := server_socket_closed n;
     log := log n ++ [(l, msg)] |}.

(** [self.conn.send(data)] *)
Definition conn_send (data : string) (n : Net) : Net :=
  {| alive := alive n; conn_sent := conn_sent n ++ [data];
     streamfile := streamfile n;
     server_socket_closed := server_socket_closed n; log := log n |}.

Definition set_alive (b : bool) (n : Net) : Net :=
  {| alive := b; conn_sent := conn_sent n; streamfile := streamfile n;
     server_socket_closed := server_socket_closed n; log := log n |}.

(** [file.close()] and [socket.close()]: closing what is closed already is
    allowed and changes nothing. *)
Definition close (f : BufferedReader) : BufferedReader :=
  {| pending := pending f; closed := true |}.

Definition streamfile_close (n : Net) : Net :=
  {| alive := alive n; conn_sent := conn_sent n;
     streamfile := close (streamfile n);
     server_socket_closed := server_socket_closed n; log := log n |}.

Definition server_socket_close (n : Net) : Net :=
  {| alive := alive n; conn_sent := conn_sent n; streamfile := streamfile n;
     server_socket_closed := true; log := log n |}.

(** [Rpi.send] *)
Definition send (msg : string) : M Net unit :=
  n ← get;
  if alive n then
    modify (logging DEBUG ("Send: " +:+ msg));;
    modify (conn_send (msg +:+ LF))
  else
    modify (logging WARNING "No live connection").

(** [Server.disconnect] *)
Definition disconnect (sd : bool) : M Net unit :=
  (if sd then
     send "sd";;
     modify (set_alive false);;
     modify (logging INFO "Send shutdown signal to robot")
   else mret tt);;
  modify streamfile_close;;
  modify server_socket_close;;
  modify (logging DEBUG "Shut down server").

(** The state right after [Server.connect] returned [Rpi(self.conn)], the peer
    having [inbound] still to deliver. *)
Definition connected (inbound : list Byte.byte) : Net :=
  {| alive := true; conn_sent := [];
     streamfile := {| pending := inbound; closed := false |};
     server_socket_closed := false; log := [] |}.

(** What a caller may do with the connection after a disconnect. *)
Inductive call : Type :=
  | Send (msg : string)
  | Disconnect (sd : bool).

Definition perform (c : call) : M Net unit :=
  match c with
  | Send msg => send msg
  | Disconnect sd => disconnect sd
  end.

Fixpoint perform_all (cs : list call) : M Net unit :=
  match cs with
  | [] => mret tt
  | c :: cs' => perform c;; perform_all cs'
  end.

(** ** TelemetryFrameReader: [Stream] *)

(** [file.read(n)]: up to [n] bytes, fewer only when the stream ends first;
    [ValueError] on a closed file. *)
Definition read (n : Z) : M BufferedReader (list Byte.byte) :=
  λ f, if closed f then Raise ValueError f
       else Done (take (Z.to_nat n) (pending f))
                 {| pending := drop (Z.to_nat n) (pending f); closed := closed f |}.

(** Little-endian unsigned integer of a byte string. *)
Fixpoint le_uint (bs : list Byte.byte) : Z :=
  match bs with
  | [] => 0
  | b :: bs' => Z.of_N (Byte.to_N b) + 256 * le_uint bs'
  end.

(** The Python float an IEEE-754 binary32 bit pattern unpacks to. *)
Definition float_of_bits32 (w : Z) : float :=
  let negative := Z.testbit w 31 in
  let e := Z.land (Z.shiftr w 23) 255 in
  let m := Z.land w (Z.ones 23) in
  let signed (x : float) : float := if negative then (- x)%float else x in
  if e =? 255 then
    if m =? 0 then signed infinity else nan
  else if e =? 0 then
    signed (Z.ldexp (PrimFloat.of_uint63 (Uint63.of_Z m)) (-149))
  else
    signed (Z.ldexp (PrimFloat.of_uint63 (Uint63.of_Z (2 ^ 23 + m))) (e - 150)).

(** The angular-rate sample [(ax, ay, az, gx, gy, gz)]. *)
Definition agdata : Type := (float * float * float * float * float * float)%type.

(** [struct.unpack('<Lffffff', data)]: [struct.error] unless [data] has exactly
    [struct.calcsize('<Lffffff')] = 28 bytes. *)
Definition calcsize_Lffffff : Z := 28.

Definition unpack_Lffffff (data : list Byte.byte) : result (Z * agdata) :=
  if Z.of_nat (length data) =? calcsize_Lffffff then
    let field (k : nat) := le_uint (take 4 (drop (4 * k) data)) in
    let f (k : nat) := float_of_bits32 (field k) in
    Ok (field 0%nat, (f 1%nat, f 2%nat, f 3%nat, f 4%nat, f 5%nat, f 6%nat))
  else Err struct_error.

(** A [Stream] object: the file it reads ([server.streamfile]) and the counter
    [self.i]. *)
Record Stream : Type := {
  stream : BufferedReader;
  i : Z
}.

(** One yielded item [(self.i, im, agdata)]; the image is kept as the bytes it
    is loaded from. *)
Definition frame : Type := (Z * list Byte.byte * agdata)%type.

(** [self.stream.read(n)] *)
Definition stream_read (n : Z) : M Stream (list Byte.byte) :=
  λ s, match read n (stream s) with
       | Done bs f => Done bs {| stream := f; i := i s |}
       | Raise e f => Raise e {| stream := f; i := i s |}
       | OutOfFuel => OutOfFuel
       end.

Definition caught_by_next (e : exn) : bool :=
  match e with
  | struct_error | ValueError => true
  | _ => false
  end.

(** [Stream.__next__] *)
Definition next : M Stream frame :=
  modify (λ s, {| stream := stream s; i := i s + 1 |});;
  strct ← reraise caught_by_next StopIteration
            (data ← stream_read calcsize_Lffffff;
             lift (unpack_Lffffff data));
  let image_len := strct.1 in
  let agdata := strct.2 in
  image ← stream_read image_len;
  s ← get;
  mret (i s, image, agdata).

(** The loop [for i, image, agdata in Stream(...)]: the items yielded until
    [__next__] raises [StopIteration]; any other exception reaches the
    consumer. [fuel] bounds the number of items. *)
Fixpoint iterate (fuel : nat) (s : Stream) : outcome Stream (list frame) :=
  match fuel with
  | O => OutOfFuel
  | S fuel' =>
      match next s with
      | Done fr s' =>
          match iterate fuel' s' with
          | Done frs s'' => Done (fr :: frs) s''
          | r => r
          end
      | Raise StopIteration s' => Done [] s'
      | Raise e s' => Raise e s'
      | OutOfFuel => OutOfFuel
      end
  end.

(** [Stream(stream)] *)
Definition Stream_init (f : BufferedReader) : Stream := {| stream := f; i := 0 |}.

(** The header a robot sends before an image of [image_len] bytes, with the
    sample's six binary32 patterns. *)
Fixpoint le_bytes (n : nat) (v : Z) : list Byte.byte :=
  match n with
  | O => []
  | S n' =>
      match Byte.of_N (Z.to_N (v mod 256)) with
      | Some b => b :: le_bytes n' (v / 256)
      | None => []
      end
  end.

Definition pack_Lffffff (image_len : Z) (bits : list Z) : list Byte.byte :=
  le_bytes 4 image_len ++ concat (map (le_bytes 4) bits).

(** The header of a frame whose image takes 5 bytes, with the sample
    (0, 0, 0, 1.0, 0, -1.0). *)
Definition header_5 : list Byte.byte :=
  pack_Lffffff 5 [0; 0; 0; 0x3f800000; 0; 0xbf800000].

(** ** OrientationEstimator: [Model.process_ag2] *)

(** What [simulator.state] holds. [quaternion.from_euler_angles],
    [quaternion.as_rotation_vector], [np.linalg.norm] and [np.degrees] are
    library routines: a report is kept as the three Euler angles they are
    applied to. *)
Inductive report : Type :=
  | Simulator_init                              (* [1, 1, 0, 0] *)
  | Rotation (alpha beta gamma : float).

(** [model.TIMESTAMP], [simulator.state], and the states [paintGL] drew. *)
Record Gyro : Type := {
  TIMESTAMP : float;
  sim_state : report;
  painted : list report
}.

Definition Gyro_init : Gyro :=
  {| TIMESTAMP := 0; sim_state := Simulator_init; painted := [] |}.

(** [Model.process_ag2], which [Simulator.recv_data] calls for every sample;
    [now1] and [now2] are what the two calls of [time()] return. *)
Definition process_ag2 (now1 now2 : float) (ag : agdata) : M Gyro unit :=
  g ← get;
  let dt := (now1 - TIMESTAMP g)%float in
  let '(ax, ay, az, gx, gy, gz) := ag in
  let rv := Rotation (gx * dt) (gy * dt) (gz * dt) in
  modify (λ g, {| TIMESTAMP := TIMESTAMP g; sim_state := rv; painted := painted g |});;
  modify (λ g, {| TIMESTAMP := TIMESTAMP g; sim_state := sim_state g;
                  painted := painted g ++ [sim_state g] |});;
  modify (λ g, {| TIMESTAMP := now2; sim_state := sim_state g; painted := painted g |}).

(** The samples of a run, each with its two clock readings, in order. *)
Fixpoint process_all (samples : list (float * float * agdata)) : M Gyro unit :=
  match samples with
  | [] => mret tt
  | (now1, now2, ag) :: rest => process_ag2 now1 now2 ag;; process_all rest
  end.

(** ** ActuatorRegistry: [Model.GPIO] and the control panel's sliders *)

(** One entry [[description, value, safe-value, (lower, upper)]] of
    [Model.GPIO]. *)
Record Channel : Type := {
  descr : string;
  value : Z;
  safe : Z;
  bounds : Z * Z
}.

Definition channel (d : string) (v s lower upper : Z) : Channel :=
  {| descr := d; value := v; safe := s; bounds := (lower, upper) |}.

(** The dictionary literal of [Model.GPIO], in the order it is written. *)
Definition GPIO_table : list (string * Channel) :=
  [ ("SN1V", channel "Servo|Neck1|Vertical" 10 10 (-40) 60);
    ("SN1H", channel "Servo|Neck1|Horizontal" 0 0 (-65) 65);
    ("SN2V", channel "Servo|Neck2|Vertical" 10 10 (-40) 60);
    ("SN2H", channel "Servo|Neck2|Horizontal" 0 0 (-65) 65);
    ("MS1F", channel "Motor|Segment1|Forwards" 0 0 (-80) 95);
    ("MS1S", channel "Motor|Segment1|Sideways" 0 0 (-90) 90);
    ("SJ1V", channel "Servo|Joint1|Vertical" 0 0 (-80) 80);
    ("SJ1H", channel "Servo|Joint1|Horizontal" 0 0 (-80) 80);
    ("MS2F", channel "Motor|Segment2|Forwards" 0 0 (-80) 95);
    ("MS2S", channel "Motor|Segment2|Sideways" 0 0 (-90) 90);
    ("SJ2V", channel "Servo|Joint2|Vertical" 0 0 (-80) 80);
    ("SJ2H", channel "Servo|Joint2|Horizontal" 0 0 (-80) 80);
    ("MS3F", channel "Motor|Segment3|Forwards" 0 0 (-80) 95);
    ("MS3S", channel "Motor|Segment3|Sideways" 0 0 (-90) 90) ].

(** [GPIO.keys()]: no key is ever added or removed, so the keys and their
    order are those of the literal. *)
Definition GPIO_keys : list string := GPIO_table.*1.

Definition GPIO_init : gmap string Channel := list_to_map GPIO_table.

(** A [QSlider] of the panel: its value and its range. *)
Record QSlider : Type := {
  sl_value : Z;
  minimum : Z;
  maximum : Z
}.

(** [control_panel.sliders] as [UIWidget.setupUi] leaves it: every slider at
    value 0, the range [setMinimum]/[setMaximum] gave it (a vertical slider
    keeps Qt's default minimum 0). *)
Definition panel_table : list (string * QSlider) :=
  let horizontal := {| sl_value := 0; minimum := -100; maximum := 100 |} in
  let vertical := {| sl_value := 0; minimum := 0; maximum := 100 |} in
  [ ("SN1H", horizontal); ("SN1V", vertical);
    ("SN2H", horizontal); ("SN2V", vertical);
    ("Forwards", horizontal); ("Turn", horizontal);
    ("SJ1H", horizontal); ("SJ1V", vertical);
    ("SJ2H", horizontal); ("SJ2V", vertical);
    ("MS1F", horizontal); ("MS1S", horizontal);
    ("MS2F", horizontal); ("MS2S", horizontal);
    ("MS3F", horizontal); ("MS3S", horizontal) ].

Definition panel_init : gmap string QSlider := list_to_map panel_table.

(** The [Model] object with its collaborators: [model.GPIO],
    [model.MOMENTUM], [control_panel.sliders] and the connection [rpi]. *)
Record World : Type := {
  GPIO : gmap string Channel;
  MOMENTUM : float;
  sliders : gmap string QSlider;
  rpi : Net
}.

Definition World_init (n : Net) : World :=
  {| GPIO := GPIO_init; MOMENTUM := 0; sliders := panel_init; rpi := n |}.

(** [self.GPIO[s]] *)
Definition GPIO_get (s : string) : M World Channel :=
  w ← get;
  match GPIO w !! s with
  | Some ch => mret ch
  | None => raise (KeyError s)
  end.

Definition with_value (v : Z) (ch : Channel) : Channel :=
  {| descr := descr ch; value := v; safe := safe ch; bounds := bounds ch |}.

Definition GPIO_store (s : string) (v : Z) (w : World) : World :=
  {| GPIO := alter (with_value v) s (GPIO w); MOMENTUM := MOMENTUM w;
     sliders := sliders w; rpi := rpi w |}.

(** [self.GPIO[s][1] = v] *)
Definition GPIO_set_value (s : string) (v : Z) : M World unit :=
  GPIO_get s;; modify (GPIO_store s v).

(** [control_panel.sliders[s]] *)
Definition slider_get (s : string) : M World QSlider :=
  w ← get;
  match sliders w !! s with
  | Some q => mret q
  | None => raise (KeyError s)
  end.

Definition with_sl_value (v : Z) (q : QSlider) : QSlider :=
  {| sl_value := v; minimum := minimum q; maximum := maximum q |}.

Definition slider_store (s : string) (v : Z) (w : World) : World :=
  {| GPIO := GPIO w; MOMENTUM := MOMENTUM w;
     sliders := alter (with_sl_value v) s (sliders w); rpi := rpi w |}.

(** [rpi.send(msg)] *)
Definition rpi_send (msg : string) : M World unit :=
  λ w, match send msg (rpi w) with
       | Done a n => Done a {| GPIO := GPIO w; MOMENTUM := MOMENTUM w;
                               sliders := sliders w; rpi := n |}
       | Raise e n => Raise e {| GPIO := GPIO w; MOMENTUM := MOMENTUM w;
                                 sliders := sliders w; rpi := n |}
       | OutOfFuel => OutOfFuel
       end.

(** The command line [s + ":" + str(v)]. *)
Definition command (s : string) (v : Z) : string := s +:+ ":" +:+ pretty v.

(** [Model.bounds_check] *)
Definition bounds_check (s : string) (v : Z) : M World Z :=
  ch ← GPIO_get s;
  let '(lower, upper) := bounds ch in
  if v <? lower then mret lower
  else if v >? upper then mret upper
  else mret v.

(** [s = list(s); s[-1] = "F" if s[-1] == "S" else "S"; s = "".join(s)] *)
Fixpoint swap_suffix (s : string) : result string :=
  match s with
  | EmptyString => Err IndexError
  | String a EmptyString =>
      Ok (String (if Ascii.eqb a "S" then "F" else "S")%char EmptyString)
  | String a rest =>
      match swap_suffix rest with
      | Ok rest' => Ok (String a rest')
      | Err e => Err e
      end
  end.

(** [for s in r: body], [r] being what [clear_f] returned: iterating [None]
    is a [TypeError]. *)
Fixpoint for_each (body : string → M World unit) (l : list string) : M World unit :=
  match l with
  | [] => mret tt
  | s :: rest => body s;; for_each body rest
  end.

Definition for_in (r : option (list string)) (body : string → M World unit) : M World unit :=
  match r with
  | Some l => for_each body l
  | None => raise TypeError
  end.

Section slots.

(** Delivery of a slider's [valueChanged] signal to the slot connected to it
    (the connections are made in [ControlPanel.__init__], see [valueChanged]
    below). *)
Variable emit : string → M World unit.

(** [QAbstractSlider::setValue] as Qt runs it on the slider named [name]: the
    value is bounded into the slider's range; if it equals the current value
    nothing happens; otherwise it is stored and [valueChanged] is emitted,
    which runs the connected slot before the call returns. *)
Definition qBound (q : QSlider) (v : Z) : Z :=
  Z.max (minimum q) (Z.min (maximum q) v).

Definition QAbstractSlider_setValue (name : string) (v : Z) : M World unit :=
  q ← slider_get name;
  let v' := qBound q v in
  if decide (sl_value q = v') then mret tt
  else modify (slider_store name v');; emit name.

(** The conversion PyQt applies to an [int] argument of a Qt method that
    takes a C [int]: [OverflowError] unless the value fits in 32 bits. *)
Definition c_int (v : Z) : result Z :=
  if decide (-2147483648 ≤ v ≤ 2147483647) then Ok v else Err OverflowError.

(** [control_panel.sliders[name].setValue(v)] as the slots call it: the
    slider is looked up, the argument converted, and Qt's [setValue] run. *)
Definition setValue (name : string) (v : Z) : M World unit :=
  slider_get name;;
  v' ← lift (c_int v);
  QAbstractSlider_setValue name v'.

(** [Model.clear_f]; [r] is the copy taken on entry, [None] the result of the
    bare [return]. *)
Fixpoint clear_f_loop (r : list string) (todo : list string) : M World (option (list string)) :=
  match todo with
  | [] => mret (Some r)
  | s :: rest =>
      s' ← lift (swap_suffix s);
      w ← get;
      match GPIO w !! s' with
      | None => mret None
      | Some _ =>
          GPIO_set_value s' 0;;
          setValue s' 0;;
          rpi_send (command s' 0);;
          clear_f_loop r rest
      end
  end.

Definition clear_f (names : list string) : M World (option (list string)) :=
  clear_f_loop names names.

(** [Model.slider_value(slider)], the slot [value_changed] of the slider named
    [name]. *)
Definition slider_value (name : string) : M World unit :=
  clear_f [name];;
  q ← slider_get name;
  v ← bounds_check name (sl_value q);
  GPIO_set_value name v;;
  rpi_send (command name v).

(** [Model.forwards(self.Forwards)], the slot of the Forwards slider. *)
Definition forwards : M World unit :=
  q ← slider_get "Forwards";
  let v := sl_value q in
  r ← clear_f ["MS1F"; "MS2F"; "MS3F"];
  for_in r (λ s,
    GPIO_set_value s v;;
    setValue s v;;
    rpi_send (command s v)).

(** [Model.turn(self.Turn)], the slot of the Turn slider. *)
Definition turn : M World unit :=
  q ← slider_get "Turn";
  let v := sl_value q in
  for_each (λ s,
    GPIO_set_value s v;;
    setValue s v;;
    rpi_send (command s v)) ["SJ1H"; "SJ2H"].

End slots.

(** The connections made in [ControlPanel.__init__]
    ([c.valueChanged.connect(model.slider_value(c))] for every slider but
    Forwards and Turn, [model.forwards] and [model.turn] for those two).
    A slot runs inside the [setValue] that emitted the signal; [fuel] bounds
    how deep such deliveries nest (three levels are the most that occur). *)
Fixpoint valueChanged (fuel : nat) (name : string) : M World unit :=
  match fuel with
  | O => λ _, OutOfFuel
  | S fuel' =>
      if decide (name = "Forwards") then forwards (valueChanged fuel')
      else if decide (name = "Turn") then turn (valueChanged fuel')
      else slider_value (valueChanged fuel') name
  end.

(** The operator moves the slider [name] to [v]: Qt itself sets the value
    and emits [valueChanged]. *)
Definition operator_moves (fuel : nat) (name : string) (v : Z) : M World unit :=
  QAbstractSlider_setValue (valueChanged fuel) name v.

(** [Model.safe_value] *)
Definition safe_value (fuel : nat) : M World unit :=
  setValue (valueChanged fuel) "Turn" 0;;
  for_each (λ s,
    ch ← GPIO_get s;
    GPIO_set_value s (safe ch);;
    ch ← GPIO_get s;
    setValue (valueChanged fuel) s (safe ch);;
    ch ← GPIO_get s;
    rpi_send (command s (safe ch)))
    (filter (λ x, String.prefix "S" x = true) GPIO_keys).

(** ** GestureController: the momentum ramp *)

(** [int(x)] of a float: truncation toward zero; [ValueError] on a NaN,
    [OverflowError] on an infinity. *)
Definition py_int (x : float) : result Z :=
  match Prim2SF x with
  | S754_zero _ => Ok 0
  | S754_infinity _ => Err OverflowError
  | S754_nan => Err ValueError
  | S754_finite negative m e =>
      let magnitude := if 0 <=? e then Z.pos m * 2 ^ e else Z.pos m / 2 ^ (- e) in
      Ok (if negative then - magnitude else magnitude)
  end.


(** The float an [int] operand of a float product is converted to. *)
Definition float_of_int (z : Z) : float :=
  if z <? 0 then (- PrimFloat.of_uint63 (Uint63.of_Z (- z)))%float
  else PrimFloat.of_uint63 (Uint63.of_Z z).

(** The literals [0.01] and [1.6] as the doubles Python reads them as. *)
Definition momentum_step : float := 0x1.47ae147ae147bp-7%float.
Definition ramp_exponent : float := 0x1.999999999999ap+0%float.

Inductive side : Type := Left | Right.

(** [self.GPIO[s][3][1]] for [go_left], [self.GPIO[s][3][0]] for [go_right]. *)
Definition ramp_bound (d : side) (ch : Channel) : Z :=
  match d with
  | Left => (bounds ch).2
  | Right => (bounds ch).1
  end.

Definition add_momentum (w : World) : World :=
  {| GPIO := GPIO w; MOMENTUM := (MOMENTUM w + momentum_step)%float;
     sliders := sliders w; rpi := rpi w |}.

Section ramp.

(** Python's [x ** y] on floats, the C library's [pow]. *)
Variable pow : float → float → float.

(** [int((self.MOMENTUM ** 1.6) * bound)] *)
Definition ramp_value (momentum : float) (bound : Z) : result Z :=
  py_int (pow momentum ramp_exponent * float_of_int bound)%float.

(** [Model.go_left] and [Model.go_right], which differ in the bound only. *)
Definition go (d : side) (fuel : nat) : M World unit :=
  modify add_momentum;;
  setValue (valueChanged fuel) "Forwards" 0;;
  r ← clear_f (valueChanged fuel) ["MS1S"; "MS2S"; "MS3S"];
  for_in r (λ s,
    ch ← GPIO_get s;
    w ← get;
    v ← lift (ramp_value (MOMENTUM w) (ramp_bound d ch));
    GPIO_set_value s v;;
    setValue (valueChanged fuel) s v;;
    rpi_send (command s v)).

Definition go_left : nat → M World unit := go Left.
Definition go_right : nat → M World unit := go Right.


End ramp.

(** ** Vocabulary of the statements *)

(** [GPIO[k][1]], the current value of channel [k], and the value slider [k]
    shows. *)
Definition gval (w : World) (k : string) : Z := default 0 (value <$> GPIO w !! k).
Definition sval (w : World) (k : string) : Z := default 0 (sl_value <$> sliders w !! k).

(** The table is fixed at start: in every state the program reaches the
    channels are those of the literal with their description, safe value and
    bounds, the sliders are those of the panel with their ranges, and a slider
    shows a value of its range. *)
Definition wf (w : World) : Prop :=
  with_value 0 <$> GPIO w = with_value 0 <$> GPIO_init
  ∧ with_sl_value 0 <$> sliders w = with_sl_value 0 <$> panel_init
  ∧ ∀ k q, sliders w !! k = Some q → minimum q ≤ sl_value q ≤ maximum q.

(** The bounds and the safe value of a channel of the table. *)
Definition bounds_of (k : string) : Z * Z := default (0, 0) (bounds <$> GPIO_init !! k).
Definition safe_of (k : string) : Z := default 0 (safe <$> GPIO_init !! k).

(** What [bounds_check] returns for bounds [b]. *)
Definition clip (b : Z * Z) (v : Z) : Z :=
  if v <? b.1 then b.1 else if v >? b.2 then b.2 else v.

(** The Motor channels, each with its Forwards/Sideways complement. *)
Definition motor_pairs : list (string * string) :=
  [ ("MS1F", "MS1S"); ("MS1S", "MS1F");
    ("MS2F", "MS2S"); ("MS2S", "MS2F");
    ("MS3F", "MS3S"); ("MS3S", "MS3F") ].

(** The name [clear_f] computes from [c]. *)
Definition complement_of (c : string) : string :=
  match swap_suffix c with
  | Ok c' => c'
  | Err _ => c
  end.

(** The channels [safe_value] goes through, those whose key starts with S. *)
Definition servos : list string := filter (λ x, String.prefix "S" x = true) GPIO_keys.

(** The channels of [reset_to_zero]'s filter, those whose key starts with M. *)
Definition motors : list string := filter (λ x, String.prefix "M" x = true) GPIO_keys.

(** What slider [c] shows once the slider of its complement [c'] was set to 0:
    if both showed a non-zero value, the complement's slot has reset [c]'s
    slider to 0 in turn. *)
Definition shown (w : World) (c c' : string) : Z :=
  if decide (sval w c' ≠ 0 ∧ sval w c ≠ 0) then 0 else sval w c.

(** The connection after [Rpi.send]. *)
Definition sent_on (msg : string) (n : Net) : Net :=
  if alive n then conn_send (msg +:+ LF) (logging DEBUG ("Send: " +:+ msg) n)
  else logging WARNING "No live connection" n.

Definition rpi_store (n : Net) (w : World) : World :=
  {| GPIO := GPIO w; MOMENTUM := MOMENTUM w; sliders := sliders w; rpi := n |}.

(** [w'] differs from [w] at most in the channels and sliders named in [ks]
    and in what was sent and logged since. *)
Definition evolves (ks : list string) (w w' : World) : Prop :=
  (∀ k, k ∉ ks → GPIO w' !! k = GPIO w !! k)
  ∧ (∀ k, k ∉ ks → sliders w' !! k = sliders w !! k)
  ∧ MOMENTUM w' = MOMENTUM w
  ∧ alive (rpi w') = alive (rpi w)
  ∧ ∃ out, conn_sent (rpi w') = conn_sent (rpi w) ++ out.

(** What setting the slider of the complement [c'] to 0 achieves, and what
    the slot of [c] then leaves. *)
Definition zeroed (c c' : string) (w w' : World) : Prop :=
  wf w' ∧ evolves [c; c'] w w'
  ∧ gval w' c' = 0 ∧ sval w' c' = 0
  ∧ sval w' c = shown w c c'.

Definition slot_post (c c' : string) (w w' : World) : Prop :=
  zeroed c c' w w' ∧ gval w' c = clip (bounds_of c) (shown w c c').

(** The channels [forwards] and the ramp go through. *)
Definition forward_channels : list string := ["MS1F"; "MS2F"; "MS3F"].
Definition sideways_channels : list string := ["MS1S"; "MS2S"; "MS3S"].

(** The bound the ramp takes of channel [k]. *)
Definition ramp_bound_of (d : side) (k : string) : Z :=
  match d with
  | Left => (bounds_of k).2
  | Right => (bounds_of k).1
  end.

(** The value the C library's [pow] gives for [0.01 ** 1.6], as a stand-in
    for [pow] where only the first press is run. *)
Definition pow_first_press : float → float → float :=
  λ _ _, 0x1.4acda94717d66p-11%float.

(** The ramp's product for channel [k] at momentum [m] converts to an integer
    within the channel's bounds. *)
Definition ramp_ok (pow : float → float → float) (d : side) (m : float) (k : string) : Prop :=
  ∃ v, ramp_value pow m (ramp_bound_of d k) = Ok v
    ∧ (bounds_of k).1 ≤ v ≤ (bounds_of k).2.


(** Membership in a list that is written out. *)
Ltac in_list :=
  vm_compute; repeat first [apply list_elem_of_here | apply list_elem_of_further].

(** ** The buttons of the panel: [reset_to_zero], powerOff, and the events *)

Definition set_momentum (m : float) (w : World) : World :=
  {| GPIO := GPIO w; MOMENTUM := m; sliders := sliders w; rpi := rpi w |}.

(** [Model.reset_to_zero]; [goLeft_isDown] and [goRight_isDown] are what the
    two calls of [isDown()] return. *)
Definition reset_to_zero (goLeft_isDown goRight_isDown : bool) (fuel : nat) : M World unit :=
  if goLeft_isDown || goRight_isDown then mret tt
  else
    modify (set_momentum 0);;
    setValue (valueChanged fuel) "Forwards" 0;;
    for_each (λ s,
      GPIO_set_value s 0;;
      ch ← GPIO_get s;
      setValue (valueChanged fuel) s (safe ch);;
      rpi_send (s +:+ ":0"))
      (filter (λ x, String.prefix "M" x = true) GPIO_keys).

(** [Server.disconnect], on the connection [rpi] that the model sends on. *)
Definition server_disconnect (sd : bool) : M World unit :=
  λ w, match disconnect sd (rpi w) with
       | Done a n => Done a (rpi_store n w)
       | Raise e n => Raise e (rpi_store n w)
       | OutOfFuel => OutOfFuel
       end.

(** What the operator can do on the panel, as far as the model is concerned:
    move a slider, press goLeft or goRight (auto-repeat presses again),
    release one of them or press resetToZero (all three are connected to
    [reset_to_zero], which asks both buttons whether they are down), press
    safeValue, press powerOff. *)
Inductive event : Type :=
  | slider_moved (name : string) (v : Z)
  | goLeft_pressed
  | goRight_pressed
  | reset_requested (goLeft_isDown goRight_isDown : bool)
  | safeValue_pressed
  | powerOff_pressed.

Section panel.

Variable pow : float → float → float.

(** The slot an event runs, as connected in [ControlPanel.__init__]. *)
Definition handle (fuel : nat) (e : event) : M World unit :=
  match e with
  | slider_moved name v => operator_moves fuel name v
  | goLeft_pressed => go_left pow fuel
  | goRight_pressed => go_right pow fuel
  | reset_requested l r => reset_to_zero l r fuel
  | safeValue_pressed => safe_value fuel
  | powerOff_pressed => server_disconnect true
  end.

(** The events of a session, one after the other; an exception that leaves a
    slot ends it. *)
Fixpoint run (fuel : nat) (es : list event) : M World unit :=
  match es with
  | [] => mret tt
  | e :: rest => handle fuel e;; run fuel rest
  end.

End panel.

(** ** VideoStream: the loop of [startVideo] *)

(** What [startVideo] emits: [VideoSignal] with an image (kept as the bytes
    it was loaded from) and [AGSignal] with a sample. *)
Inductive signal : Type :=
  | VideoSignal (image : list Byte.byte)
  | AGSignal (ag : agdata).

(** What [lcdNumber.display] is called with: the float of a floor division,
    or the integer 0. *)
Inductive lcd_value : Type :=
  | lcd_float (x : float)
  | lcd_int (z : Z).

(** The loop's [Stream] object, the signals emitted so far, what
    [control_panel.lcdNumber] was made to display, and the log. *)
Record Video : Type := {
  source : Stream;
  signals : list signal;
  lcdNumber : list lcd_value;
  video_log : list (level * string)
}.

(** How a call of [startVideo] ends: it returns; an exception other than
    [StopIteration] leaves [__next__]; the division [20 // (time() - t)] has
    a zero divisor. [MoreFrames] is no outcome of the program: it marks a run
    that was given too small a bound on the number of frames. *)
Inductive video_end : Type :=
  | Stopped (v : Video)
  | Uncaught (e : exn) (v : Video)
  | ZeroDivisionError (v : Video)
  | MoreFrames.

Section video.

(** What the [k]-th call of [time()] returns, and Python's [x // y] on floats
    for a non-zero [y] (the C library's [fmod] and [floor]). *)
Variable time : nat → float.
Variable floor_div : float → float → float.

(** The loop [for i, image, agdata in Stream(server.streamfile)] with the two
    lines after it; [t] is the local variable, [calls] the number of calls of
    [time()] made so far. *)
Fixpoint startVideo_loop (fuel : nat) (t : float) (calls : nat) (v : Video) : video_end :=
  match fuel with
  | O => MoreFrames
  | S fuel' =>
      match next (source v) with
      | Done (i, image, ag) s' =>
          let v1 := {| source := s';
                       signals := signals v ++ [VideoSignal image; AGSignal ag];
                       lcdNumber := lcdNumber v; video_log := video_log v |} in
          if i mod 20 =? 0 then
            let dt := (time calls - t)%float in
            if PrimFloat.eqb dt 0 then ZeroDivisionError v1
            else
              startVideo_loop fuel' (time (S calls)) (S (S calls))
                {| source := source v1; signals := signals v1;
                   lcdNumber := lcdNumber v1 ++ [lcd_float (floor_div 20 dt)];
                   video_log := video_log v1 |}
          else startVideo_loop fuel' t calls v1
      | Raise StopIteration s' =>
          Stopped {| source := s'; signals := signals v;
                     lcdNumber := lcdNumber v ++ [lcd_int 0];
                     video_log := video_log v ++ [(WARNING, "Stopped Videostream")] |}
      | Raise e s' =>
          Uncaught e {| source := s'; signals := signals v;
                        lcdNumber := lcdNumber v; video_log := video_log v |}
      | OutOfFuel => MoreFrames
      end
  end.

(** [VideoStream.startVideo] on the stream file [f]: [t = 1], and a new
    [Stream]. *)
Definition startVideo (fuel : nat) (calls : nat) (f : BufferedReader) : video_end :=
  startVideo_loop fuel 1 calls
    {| source := Stream_init f; signals := []; lcdNumber := []; video_log := [] |}.

End video.

(** ** Vocabulary of the statements on streams, samples and the video loop *)

(** A frame as the robot writes it: the header, the image, and the sample the
    header carries. *)
Definition sent_frame : Type := (list Byte.byte * list Byte.byte * agdata)%type.

Definition well_framed (f : sent_frame) : Prop :=
  let '(header, image, ag) := f in
  unpack_Lffffff header = Ok (Z.of_nat (length image), ag).

(** The bytes of a run of frames, and the items they are to give when the
    counter stands at [k]. *)
Definition wire (fs : list sent_frame) : list Byte.byte :=
  flat_map (λ f : sent_frame, let '(header, image, _) := f in header ++ image) fs.

Fixpoint numbered (k : Z) (fs : list sent_frame) : list frame :=
  match fs with
  | [] => []
  | (_, image, ag) :: rest => (k + 1, image, ag) :: numbered (k + 1) rest
  end.

(** The signals the frames of a run are to give. *)
Definition signals_of (frs : list frame) : list signal :=
  flat_map (λ fr : frame, let '(_, image, ag) := fr in [VideoSignal image; AGSignal ag]) frs.

(** The frames whose number is a multiple of 20. *)
Definition twentieths (frs : list frame) : list frame :=
  filter (λ fr : frame, fr.1.1 mod 20 = 0) frs.

(** Two frames of five bytes each after the header [header_5], and twenty
    such frames, as streams to run the loop on. *)
Definition frame_5 : sent_frame :=
  (header_5, ["h"; "e"; "l"; "l"; "o"]%byte, (0, 0, 0, 1, 0, -1)%float).

Definition two_frames : BufferedReader :=
  {| pending := wire [frame_5; frame_5]; closed := false |}.

Definition twenty_frames : BufferedReader :=
  {| pending := wire (replicate 20 frame_5); closed := false |}.

(** A clock that stands, and a stand-in for [//] that gives what
    [20 // 999.0] is. *)
Definition clock_at_1000 : nat → float := λ _, 1000%float.
Definition floor_div_0 : float → float → float := λ _ _, 0%float.

(** What [process_ag2] reads of a sample: the two clock readings and the three
    angular rates. *)
Definition rates (sample : float * float * agdata) : float * float * (float * float * float) :=
  let '(now1, now2, (_, _, _, gx, gy, gz)) := sample in (now1, now2, (gx, gy, gz)).

(** ** Vocabulary of the statements on the registry and on sessions *)

(** The range of slider [k]. *)
Definition range_of (k : string) : Z * Z :=
  default (0, 0) ((λ q, (minimum q, maximum q)) <$> panel_init !! k).

(** The two channels the Turn slider drives. *)
Definition joints : list string := ["SJ1H"; "SJ2H"].

(** What a group setter's step on channel [s] transmits, slider [s] showing
    [shown_before]: the clipped value from the channel's own slot if the
    slider moves, then the value as given. *)
Definition step_lines (s : string) (shown_before v : Z) : list string :=
  (if decide (shown_before = v) then [] else [command s (clip (bounds_of s) v) +:+ LF])
  ++ [command s v +:+ LF].

(** What is transmitted on a connection: the lines if it is alive, nothing if
    it is not. *)
Definition transmitted (n : Net) (lines : list string) : list string :=
  if alive n then lines else [].

(** Every Servo channel and its slider are at the safe value, the Turn slider
    at 0: the state [safe_value] aims at. *)
Definition at_safe_values (w : World) : Prop :=
  sval w "Turn" = 0 ∧ ∀ s, s ∈ servos → gval w s = safe_of s ∧ sval w s = safe_of s.

(** The eight commands of [safe_value], in the order of the table. *)
Definition safe_lines : list string := (λ s, command s (safe_of s) +:+ LF) <$> servos.

(** The state a call ends in, returning or raising. *)
Definition final {S A : Type} (o : outcome S A) : option S :=
  match o with
  | Done _ s | Raise _ s => Some s
  | OutOfFuel => None
  end.

(** [m] keeps the table well-formed and relates the state it ends in to the
    one it started from by [R], whether it returns or raises; with [strict]
    it is also known to end within the given bound. *)
Definition respects (strict : bool) (R : World → World → Prop) {A : Type}
    (m : M World A) : Prop :=
  ∀ w, wf w →
    match m w with
    | Done _ w' | Raise _ w' => wf w' ∧ R w w'
    | OutOfFuel => strict = false
    end.

(** The names of the panel's sliders. *)
Definition panel_names : list string := panel_table.*1.

(** A line of the wire format: the shutdown line, or a command for a channel
    of the table. *)
Definition wire_line (l : string) : Prop :=
  l = "sd" +:+ LF ∨ ∃ k v, k ∈ GPIO_keys ∧ l = command k v +:+ LF.

(** Nothing is transmitted on a dead connection. *)
Definition silent (w w' : World) : Prop :=
  alive (rpi w) = false →
  alive (rpi w') = false ∧ conn_sent (rpi w') = conn_sent (rpi w).

(** What is transmitted is made of lines of the wire format. *)
Definition speaks_in_lines (w w' : World) : Prop :=
  ∃ out, conn_sent (rpi w') = conn_sent (rpi w) ++ out ∧ Forall wire_line out.

(** At most one channel of every Forwards/Sideways pair is non-zero. *)
Definition exclusive (w : World) : Prop :=
  ∀ c c', (c, c') ∈ motor_pairs → gval w c = 0 ∨ gval w c' = 0.

(** Every channel holds a value within its bounds. *)
Definition in_bounds (w : World) : Prop :=
  ∀ k, k ∈ GPIO_keys → (bounds_of k).1 ≤ gval w k ≤ (bounds_of k).2.

(** The events whose slots always return: a move of a slider the panel has,
    and every button but the two of the ramp (whose slots call [pow] and
    [int]). *)
Definition calm (e : event) : Prop :=
  match e with
  | slider_moved name _ => name ∈ panel_names
  | goLeft_pressed | goRight_pressed => False
  | _ => True
  end.

(** The calm events that go through a channel's own slot: a move of the
    Forwards or of the Turn slider is left out. *)
Definition tame (e : event) : Prop :=
  match e with
  | slider_moved name _ => name ∈ GPIO_keys
  | goLeft_pressed | goRight_pressed => False
  | _ => True
  end.

(** A stand-in for [pow] that makes the ramp's product leave the bounds and
    the slider's range: with it [int((m ** 1.6) * 90)] is 180. *)
Definition pow_beyond : float → float → float := λ _ _, 2%float.

(** ** Vocabulary of the statements on what a call transmits *)

(** Between [w] and [w'] exactly [lines] were handed to the connection if it
    is alive (nothing if it is not), and it is alive or not as before. *)
Definition transmits (w w' : World) (lines : list string) : Prop :=
  alive (rpi w') = alive (rpi w)
  ∧ conn_sent (rpi w') = conn_sent (rpi w) ++ transmitted (rpi w) lines.

(** What [QAbstractSlider::setValue] makes of [v] on a slider of range [r]. *)
Definition bounded (r : Z * Z) (v : Z) : Z := Z.max r.1 (Z.min r.2 v).

(** What slider [c] shows once the slider of its complement was set to 0,
    the two showing [a] and [a'] before: [shown] on the values. *)
Definition shown_of (a a' : Z) : Z :=
  if decide (a' ≠ 0 ∧ a ≠ 0) then 0 else a.

(** What the slot of the Motor channel [x] transmits when it runs with its
    own slider at 0 and the slider of its complement [y] showing [b]: if
    [b] is not 0 the slot of [y] runs from within [clear_f] and sends the two
    commands of a slot; then [clear_f] sends [y:0] and the slot [x:0]. *)
Definition rest_lines (x y : string) (b : Z) : list string :=
  (if decide (b = 0) then [] else [command x 0 +:+ LF; command y 0 +:+ LF])
  ++ [command y 0 +:+ LF; command x 0 +:+ LF].

(** What setting the Motor channel [x] to rest transmits, as [clear_f] does
    it for a complement and [reset_to_zero] for every Motor channel, the
    slider of [x] showing [a] and that of its complement [y] showing [b]: the
    lines of the slot of [x] if its slider moves, then [x:0]. *)
Definition clear_lines (x y : string) (a b : Z) : list string :=
  (if decide (a = 0) then [] else rest_lines x y b) ++ [command x 0 +:+ LF].

(** What a group setter's step on the Motor channel [c] transmits for the
    value [v], the slider of the complement being at 0 and that of [c]
    showing [shown_before] and going to [target]: if the slider moves, the
    two commands of the channel's own slot, the second with the clipped
    value; then the command with [v] as given. *)
Definition group_lines (c : string) (shown_before target v : Z) : list string :=
  (if decide (shown_before = target) then []
   else [command (complement_of c) 0 +:+ LF;
         command c (clip (bounds_of c) target) +:+ LF])
  ++ [command c v +:+ LF].

(** What the slot of the Forwards slider transmits for the value [v]: the
    three Sideways complements are cleared, then the three Forward channels
    set. *)
Definition forwards_lines (w : World) (v : Z) : list string :=
  flat_map (λ c, clear_lines (complement_of c) c (sval w (complement_of c)) (sval w c))
    forward_channels
  ++ flat_map (λ c, group_lines c (shown w c (complement_of c)) v v) forward_channels.

(** [sliders["Forwards"].setValue(0)]: what it transmits (the Forwards slot
    runs if the slider moves), and what the slider of the Motor channel [k]
    shows after it. *)
Definition Forwards_reset_lines (w : World) : list string :=
  if decide (sval w "Forwards" = 0) then [] else forwards_lines w 0.

Definition after_Forwards_reset (w : World) (k : string) : Z :=
  if decide (sval w "Forwards" = 0) then sval w k else 0.

(** What [reset_to_zero] transmits when no ramp button is down: the reset of
    the Forwards slider, then every Motor channel set to rest, in the order
    of the table (a Forward channel, then its Sideways complement, whose
    slider the slot of the first may have set to 0). *)
Definition reset_lines (w : World) : list string :=
  Forwards_reset_lines w
  ++ flat_map (λ c,
       let c' := complement_of c in
       let a := after_Forwards_reset w c in
       let b := after_Forwards_reset w c' in
       clear_lines c c' a b ++ clear_lines c' c (shown_of b a) 0)
     forward_channels.

(** What a press of a ramp button transmits when the ramp computes [val c]
    for the Sideways channel [c]: the reset of the Forwards slider, the three
    Forward complements cleared, the three Sideways channels set. *)
Definition ramp_shown (w : World) (c : string) : Z :=
  shown_of (after_Forwards_reset w c) (after_Forwards_reset w (complement_of c)).

Definition ramp_lines (w : World) (val : string → Z) : list string :=
  Forwards_reset_lines w
  ++ flat_map (λ c, clear_lines (complement_of c) c
                      (after_Forwards_reset w (complement_of c))
                      (after_Forwards_reset w c)) sideways_channels
  ++ flat_map (λ c, group_lines c (ramp_shown w c) (bounded (range_of c) (val c)) (val c))
       sideways_channels.

(** [sliders["Turn"].setValue(0)]: what it transmits (the Turn slot runs if
    the slider moves, with the value 0), and what the slider of the Servo
    channel [s] shows after it. *)
Definition Turn_reset_lines (w : World) : list string :=
  if decide (sval w "Turn" = 0) then []
  else flat_map (λ s, step_lines s (sval w s) 0) joints.

Definition after_Turn_reset (w : World) (s : string) : Z :=
  if decide (sval w "Turn" ≠ 0 ∧ s ∈ joints) then 0 else sval w s.

(** A state in which the three Forward sliders were moved to 100 and the
    Forwards slider then shows 100, and one in which a Servo slider was moved
    off its safe value, for the statements to be run on. *)
Definition World_forwards_100 : World :=
  slider_store "Forwards" 100
    (slider_store "MS3F" 100 (slider_store "MS2F" 100 (slider_store "MS1F" 100
       (World_init (connected []))))).

Definition World_neck_40 : World :=
  slider_store "Turn" 30
    (slider_store "SN1H" 40 (GPIO_store "SN1H" 40 (World_init (connected [])))).

Definition World_motor_50 : World :=
  slider_store "MS1F" 50 (GPIO_store "MS1F" 50 (World_init (connected []))).

(** A stand-in for [pow] that makes the ramp's product leave the range of a
    C [int]: with it [int((m ** 1.6) * 90)] is [90 * 2 ^ 40]. *)
Definition pow_huge : float → float → float := λ _ _, 0x1p+40%float.

(** * Properties *)

(** ** The monad *)

Section monad_facts.
Context {S : Type}.

Lemma bind_Done {A B} (m : M S A) (k : A → M S B) s a s' :
  m s = Done a s' → (m ≫= k) s = k a s'.
Proof. intros E. unfold mbind, M_bind, bind. by rewrite E. Qed.

Lemma bind_Raise {A B} (m : M S A) (k : A → M S B) s e s' :
  m s = Raise e s' → (m ≫= k) s = Raise e s'.
Proof. intros E. unfold mbind, M_bind, bind. by rewrite E. Qed.

Lemma bind_modify {B} (f : S → S) (k : unit → M S B) s :
  (modify f ≫= k) s = k tt (f s).
Proof. done. Qed.

Lemma bind_get {B} (k : S → M S B) s : (get ≫= k) s = k s s.
Proof. done. Qed.

Lemma bind_ret {A B} (a : A) (k : A → M S B) s : (mret a ≫= k) s = k a s.
Proof. done. Qed.

End monad_facts.

(** ** ConnectionManager *)

Lemma send_alive msg n :
  alive n = true →
  send msg n = Done tt (conn_send (msg +:+ LF) (logging DEBUG ("Send: " +:+ msg) n)).
Proof. intros Ha. unfold send. rewrite bind_get, Ha. done. Qed.

Lemma send_dead msg n :
  alive n = false →
  send msg n = Done tt (logging WARNING "No live connection" n).
Proof. intros Ha. unfold send. rewrite bind_get, Ha. done. Qed.

Lemma disconnect_dead sd n :
  alive n = false →
  ∃ n', disconnect sd n = Done tt n' ∧ alive n' = false ∧ conn_sent n' = conn_sent n.
Proof.
  intros Ha. unfold disconnect. destruct sd.
  - eexists. split.
    + erewrite bind_Done; [|erewrite bind_Done; [|by apply send_dead]; reflexivity].
      reflexivity.
    + done.
  - eexists. split; [reflexivity|done].
Qed.

Lemma perform_all_dead cs : ∀ n,
  alive n = false →
  ∃ n', perform_all cs n = Done tt n' ∧ alive n' = false ∧ conn_sent n' = conn_sent n.
Proof.
  induction cs as [|c cs IH]; intros n Ha; [by exists n|].
  assert (∃ n1, perform c n = Done tt n1 ∧ alive n1 = false ∧ conn_sent n1 = conn_sent n)
    as (n1 & E1 & Ha1 & Hs1).
  { destruct c as [msg|sd]; simpl.
    - rewrite send_dead by done. by eexists. 
    - by apply disconnect_dead. }
  destruct (IH n1 Ha1) as (n2 & E2 & Ha2 & Hs2).
  exists n2. simpl. rewrite (bind_Done _ _ _ _ _ E1). by rewrite E2, Hs2, Hs1.
Qed.

(** C7. After [disconnect(True)] on a live connection the connection is not
    alive and the shutdown line ["sd\n"] is the one thing that was
    transmitted; whatever is called afterwards ([send], or [disconnect] again,
    with either argument) returns normally, transmits nothing more and leaves
    the connection dead; each such [send] does nothing but log the warning. *)
Theorem disconnect_true_shuts_down_once (n : Net) :
  alive n = true →
  ∃ n1, disconnect true n = Done tt n1
    ∧ alive n1 = false
    ∧ conn_sent n1 = conn_sent n ++ ["sd" +:+ LF]
    ∧ (∀ later : list call, ∃ n2,
         perform_all later n1 = Done tt n2
         ∧ alive n2 = false
         ∧ conn_sent n2 = conn_sent n ++ ["sd" +:+ LF]
         ∧ ∀ msg, send msg n2 = Done tt (logging WARNING "No live connection" n2)).
Proof.
  intros Ha. eexists. split; [|split; [|split]].
  - unfold disconnect.
    erewrite bind_Done; [|erewrite bind_Done; [|by apply send_alive]; reflexivity].
    reflexivity.
  - done.
  - done.
  - intros later.
    edestruct (perform_all_dead later) as (n2 & E2 & Ha2 & Hs2); [|exists n2; split; [exact E2|]].
    + done.
    + split; [done|]. split; [by rewrite Hs2|]. intros msg. by apply send_dead.
Qed.

Lemma disconnect_true_shuts_down_once_witness :
  ∃ n1, disconnect true (connected []) = Done tt n1
    ∧ alive n1 = false
    ∧ conn_sent n1 = conn_sent (connected []) ++ ["sd" +:+ LF]
    ∧ (∀ later : list call, ∃ n2,
         perform_all later n1 = Done tt n2
         ∧ alive n2 = false
         ∧ conn_sent n2 = conn_sent (connected []) ++ ["sd" +:+ LF]
         ∧ ∀ msg, send msg n2 = Done tt (logging WARNING "No live connection" n2)).
Proof. apply (disconnect_true_shuts_down_once (connected [])). reflexivity. Defined.

(** C10. [disconnect(False)] on a live connection closes the receive stream
    and the listening socket and leaves [alive] true, so a [send] that follows
    does not log the warning: it hands the line to [conn.send]. *)
Theorem disconnect_false_stays_alive (n : Net) (msg : string) :
  alive n = true →
  ∃ n1, disconnect false n = Done tt n1
    ∧ alive n1 = true
    ∧ closed (streamfile n1) = true
    ∧ server_socket_closed n1 = true
    ∧ conn_sent n1 = conn_sent n
    ∧ ∃ n2, send msg n1 = Done tt n2
        ∧ conn_sent n2 = conn_sent n1 ++ [msg +:+ LF]
        ∧ log n2 = log n1 ++ [(DEBUG, "Send: " +:+ msg)].
Proof.
  intros Ha. eexists. split; [reflexivity|]. simpl. repeat split; try done.
  eexists. split; [by apply send_alive|]. done.
Qed.

Lemma disconnect_false_stays_alive_witness :
  ∃ n1, disconnect false (connected []) = Done tt n1
    ∧ alive n1 = true
    ∧ closed (streamfile n1) = true
    ∧ server_socket_closed n1 = true
    ∧ conn_sent n1 = conn_sent (connected [])
    ∧ ∃ n2, send "MS1F:0" n1 = Done tt n2
        ∧ conn_sent n2 = conn_sent n1 ++ ["MS1F:0" +:+ LF]
        ∧ log n2 = log n1 ++ [(DEBUG, "Send: " +:+ "MS1F:0")].
Proof. apply (disconnect_false_stays_alive (connected []) "MS1F:0"). reflexivity. Defined.

(** ** TelemetryFrameReader *)

Lemma unpack_wrong_size data :
  Z.of_nat (length data) ≠ calcsize_Lffffff → unpack_Lffffff data = Err struct_error.
Proof.
  intros H. unfold unpack_Lffffff.
  destruct (Z.eqb_spec (Z.of_nat (length data)) calcsize_Lffffff); done.
Qed.

Lemma iterate_S fuel s :
  iterate (S fuel) s =
    match next s with
    | Done fr s' =>
        match iterate fuel s' with
        | Done frs s'' => Done (fr :: frs) s''
        | r => r
        end
    | Raise StopIteration s' => Done [] s'
    | Raise e s' => Raise e s'
    | OutOfFuel => OutOfFuel
    end.
Proof. done. Qed.

(** With fewer than 28 bytes left (or the file closed), [__next__] raises
    [StopIteration]; what is left stays shorter than a header. *)
Lemma next_without_header (s : Stream) :
  (length (pending (stream s)) < 28)%nat →
  ∃ s', next s = Raise StopIteration s'
    ∧ i s' = i s + 1
    ∧ (length (pending (stream s')) < 28)%nat.
Proof.
  intros Hlen. unfold next. rewrite bind_modify.
  unfold mbind at 1, M_bind at 1, bind at 1, reraise.
  unfold mbind at 1, M_bind at 1, bind at 1, stream_read, read. simpl.
  destruct (closed (stream s)) eqn:Hc; simpl.
  - eexists. split; [reflexivity|]. done.
  - unfold lift. rewrite unpack_wrong_size.
    + simpl. eexists. split; [reflexivity|]. simpl.
      split; [done|]. rewrite length_drop. lia.
    + rewrite length_take. unfold calcsize_Lffffff. lia.
Qed.

(** C8. When the stream ends before a complete 28-byte header is available,
    [__next__] raises [StopIteration] (no other exception), so the loop over
    the frames ends with no further frame; this stays so however often
    [__next__] is called again. *)
Theorem truncated_header_ends_sequence (s : Stream) (fuel : nat) :
  (length (pending (stream s)) < 28)%nat →
  ∃ s', next s = Raise StopIteration s'
    ∧ iterate (S fuel) s = Done [] s'
    ∧ (length (pending (stream s')) < 28)%nat.
Proof.
  intros Hlen. destruct (next_without_header s Hlen) as (s' & E & _ & Hlen').
  exists s'. split; [done|]. split; [|done]. by rewrite iterate_S, E.
Qed.

Lemma truncated_header_ends_sequence_witness :
  ∃ s', next (Stream_init {| pending := take 10 header_5; closed := false |})
          = Raise StopIteration s'
    ∧ iterate 1 (Stream_init {| pending := take 10 header_5; closed := false |})
          = Done [] s'
    ∧ (length (pending (stream s')) < 28)%nat.
Proof.
  apply (truncated_header_ends_sequence
           (Stream_init {| pending := take 10 header_5; closed := false |}) 0).
  vm_compute. lia.
Defined.

Lemma next_with_header (s : Stream) (header rest : list Byte.byte) image_len ag :
  closed (stream s) = false →
  pending (stream s) = header ++ rest →
  unpack_Lffffff header = Ok (image_len, ag) →
  next s = Done (i s + 1, take (Z.to_nat image_len) rest, ag)
             {| stream := {| pending := drop (Z.to_nat image_len) rest; closed := false |};
                i := i s + 1 |}.
Proof.
  intros Hc Hp Hu.
  assert (length header = 28%nat) as Hlen.
  { unfold unpack_Lffffff in Hu.
    destruct (Z.eqb_spec (Z.of_nat (length header)) calcsize_Lffffff) as [E|]; [|done].
    unfold calcsize_Lffffff in E. lia. }
  unfold next. rewrite bind_modify.
  unfold mbind at 1, M_bind at 1, bind at 1, reraise.
  unfold mbind at 1, M_bind at 1, bind at 1, stream_read at 1, read. simpl.
  rewrite Hc, Hp. simpl.
  replace (Z.to_nat calcsize_Lffffff) with (length header) by (rewrite Hlen; done).
  rewrite take_app_length, drop_app_length. unfold lift at 1. rewrite Hu. simpl.
  unfold mbind at 1, M_bind at 1, bind at 1, stream_read, read. simpl. done.
Qed.

(** C3 (as the code has it). When a header declares [image_len] and fewer
    payload bytes are left in the open stream, [__next__] still yields the
    frame, its image being the bytes that were left; the stream is then
    exhausted, so the next call raises [StopIteration] and the loop ends after
    that frame. Nothing looks for a new frame boundary. *)
Theorem truncated_payload_is_yielded (s : Stream) (header rest : list Byte.byte)
    (image_len : Z) (ag : agdata) (fuel : nat) :
  closed (stream s) = false →
  pending (stream s) = header ++ rest →
  unpack_Lffffff header = Ok (image_len, ag) →
  Z.of_nat (length rest) < image_len →
  ∃ s1 s2,
    next s = Done (i s + 1, rest, ag) s1
    ∧ pending (stream s1) = []
    ∧ next s1 = Raise StopIteration s2
    ∧ iterate (S (S fuel)) s = Done [(i s + 1, rest, ag)] s2.
Proof.
  intros Hc Hp Hu Hshort.
  pose proof (next_with_header s header rest image_len ag Hc Hp Hu) as E1.
  rewrite take_ge, drop_ge in E1 by lia.
  set (s1 := {| stream := {| pending := []; closed := false |}; i := i s + 1 |}) in E1.
  destruct (next_without_header s1) as (s2 & E2 & _ & _); [simpl; lia|].
  exists s1, s2. split; [exact E1|]. split; [done|]. split; [exact E2|].
  by rewrite iterate_S, E1, iterate_S, E2.
Qed.

Lemma truncated_payload_is_yielded_witness :
  ∃ s1 s2,
    next (Stream_init {| pending := header_5 ++ ["a"; "b"]%byte; closed := false |})
      = Done (0 + 1, ["a"; "b"]%byte, (0, 0, 0, 1, 0, -1)%float) s1
    ∧ pending (stream s1) = []
    ∧ next s1 = Raise StopIteration s2
    ∧ iterate 2 (Stream_init {| pending := header_5 ++ ["a"; "b"]%byte; closed := false |})
      = Done [(0 + 1, ["a"; "b"]%byte, (0, 0, 0, 1, 0, -1)%float)] s2.
Proof.
  apply (truncated_payload_is_yielded
           (Stream_init {| pending := header_5 ++ ["a"; "b"]%byte; closed := false |})
           header_5 ["a"; "b"]%byte 5 (0, 0, 0, 1, 0, -1)%float 0).
  - reflexivity.
  - reflexivity.
  - vm_compute. reflexivity.
  - simpl. lia.
Defined.

(** C3, refuted as stated: a header that declares 5 payload bytes followed by
    only 2 does not end the sequence there; the frame is yielded, with the 2
    bytes as its image. *)
Lemma truncated_payload_not_dropped :
  ∃ s', iterate 2 (Stream_init {| pending := header_5 ++ ["a"; "b"]%byte; closed := false |})
        = Done [(1, ["a"; "b"]%byte, (0, 0, 0, 1, 0, -1)%float)] s'.
Proof. eexists. vm_compute. reflexivity. Qed.

(** ** OrientationEstimator *)

(** One sample: [simulator.state] is set to a rotation report computed from
    the sample's rates and the time since [TIMESTAMP], it is drawn, and the
    current time is stored in [TIMESTAMP]. *)
Lemma process_ag2_reports (g : Gyro) (now1 now2 : float) (ax ay az gx gy gz : float) :
  let dt := (now1 - TIMESTAMP g)%float in
  let r := Rotation (gx * dt) (gy * dt) (gz * dt) in
  process_ag2 now1 now2 (ax, ay, az, gx, gy, gz) g
  = Done tt {| TIMESTAMP := now2; sim_state := r; painted := painted g ++ [r] |}.
Proof. reflexivity. Qed.

Lemma process_all_reports samples : ∀ g,
  ∃ g', process_all samples g = Done tt g'
    ∧ length (painted g') = (length (painted g) + length samples)%nat.
Proof.
  induction samples as [|[[now1 now2] [[[[[ax ay] az] gx] gy] gz]] rest IH]; intros g.
  - exists g. split; [done|]. simpl. lia.
  - simpl process_all.
    rewrite (bind_Done _ _ _ _ _ (process_ag2_reports g now1 now2 ax ay az gx gy gz)).
    destruct (IH {| TIMESTAMP := now2;
                    sim_state := Rotation (gx * (now1 - TIMESTAMP g))
                                          (gy * (now1 - TIMESTAMP g))
                                          (gz * (now1 - TIMESTAMP g));
                    painted := painted g ++
                      [Rotation (gx * (now1 - TIMESTAMP g))
                                (gy * (now1 - TIMESTAMP g))
                                (gz * (now1 - TIMESTAMP g))] |})
      as (g' & E & Hlen).
    exists g'. split; [exact E|]. rewrite Hlen. simpl. rewrite length_app. simpl. lia.
Qed.



(** ** The registry and the panel *)

Lemma with_value_erase ch ch0 :
  with_value 0 ch = with_value 0 ch0 → ch = with_value (value ch) ch0.
Proof. destruct ch, ch0. unfold with_value. simpl. congruence. Qed.

Lemma with_sl_value_erase q q0 :
  with_sl_value 0 q = with_sl_value 0 q0 → q = with_sl_value (sl_value q) q0.
Proof. destruct q, q0. unfold with_sl_value. simpl. congruence. Qed.

Lemma wf_GPIO w k ch0 :
  wf w → GPIO_init !! k = Some ch0 → ∃ v, GPIO w !! k = Some (with_value v ch0).
Proof.
  intros (Hg & _ & _) H0.
  assert (with_value 0 <$> GPIO w !! k = Some (with_value 0 ch0)) as E.
  { rewrite <- lookup_fmap, Hg, lookup_fmap, H0. done. }
  destruct (GPIO w !! k) as [ch|]; [|done].
  change (Some (with_value 0 ch) = Some (with_value 0 ch0)) in E.
  exists (value ch). f_equal. apply with_value_erase. congruence.
Qed.

Lemma wf_GPIO_None w k : wf w → GPIO_init !! k = None → GPIO w !! k = None.
Proof.
  intros (Hg & _ & _) H0.
  assert (with_value 0 <$> GPIO w !! k = None) as E.
  { rewrite <- lookup_fmap, Hg, lookup_fmap, H0. done. }
  by destruct (GPIO w !! k).
Qed.

Lemma wf_slider w k q0 :
  wf w → panel_init !! k = Some q0 →
  ∃ v, sliders w !! k = Some (with_sl_value v q0) ∧ minimum q0 ≤ v ≤ maximum q0.
Proof.
  intros (_ & Hs & Hr) H0.
  assert (with_sl_value 0 <$> sliders w !! k = Some (with_sl_value 0 q0)) as E.
  { rewrite <- lookup_fmap, Hs, lookup_fmap, H0. done. }
  destruct (sliders w !! k) as [q|] eqn:Hq; [|done].
  change (Some (with_sl_value 0 q) = Some (with_sl_value 0 q0)) in E.
  assert (with_sl_value 0 q = with_sl_value 0 q0) as E' by congruence.
  clear E. rename E' into E. apply with_sl_value_erase in E.
  exists (sl_value q). split; [by f_equal|]. specialize (Hr k q Hq). rewrite E in Hr. done.
Qed.

Lemma wf_GPIO_store k v w : wf w → wf (GPIO_store k v w).
Proof.
  intros (Hg & Hs & Hr). split; [|done]. simpl. rewrite <- Hg.
  apply map_eq. intros j. rewrite !lookup_fmap.
  destruct (decide (k = j)) as [->|Hne].
  - rewrite lookup_alter_eq. by destruct (GPIO w !! j).
  - by rewrite lookup_alter_ne.
Qed.

Lemma wf_slider_store k v w :
  wf w → (∀ q, sliders w !! k = Some q → minimum q ≤ v ≤ maximum q) →
  wf (slider_store k v w).
Proof.
  intros (Hg & Hs & Hr) Hv. split; [done|]. split.
  - simpl. rewrite <- Hs. apply map_eq. intros j. rewrite !lookup_fmap.
    destruct (decide (k = j)) as [->|Hne].
    + rewrite lookup_alter_eq. by destruct (sliders w !! j).
    + by rewrite lookup_alter_ne.
  - intros j q. simpl. destruct (decide (k = j)) as [->|Hne].
    + rewrite lookup_alter_eq. destruct (sliders w !! j) as [q'|] eqn:Hq; [|done].
      simpl. intros [= <-]. simpl. by apply Hv.
    + rewrite lookup_alter_ne by done. apply Hr.
Qed.

Lemma wf_rpi_store n w : wf w → wf (rpi_store n w).
Proof. done. Qed.

Lemma wf_add_momentum w : wf w → wf (add_momentum w).
Proof. done. Qed.

Lemma wf_World_init n : wf (World_init n).
Proof.
  split; [done|]. split; [done|]. intros k q. simpl. unfold panel_init.
  intros H%elem_of_list_to_map_2. revert H. unfold panel_table.
  rewrite !elem_of_cons, elem_of_nil.
  intros H. repeat (destruct H as [[= -> ->]|H]; [simpl; lia|]). done.
Qed.

(** *** Values read back *)

Lemma gval_lookup w k ch : GPIO w !! k = Some ch → gval w k = value ch.
Proof. intros E. unfold gval. by rewrite E. Qed.

Lemma sval_lookup w k q : sliders w !! k = Some q → sval w k = sl_value q.
Proof. intros E. unfold sval. by rewrite E. Qed.

Lemma gval_GPIO_store_eq k v w : is_Some (GPIO w !! k) → gval (GPIO_store k v w) k = v.
Proof. intros [ch E]. unfold gval. simpl. by rewrite lookup_alter_eq, E. Qed.

Lemma gval_GPIO_store_ne k k' v w : k ≠ k' → gval (GPIO_store k v w) k' = gval w k'.
Proof. intros Hne. unfold gval. simpl. by rewrite lookup_alter_ne. Qed.

Lemma sval_GPIO_store k k' v w : sval (GPIO_store k v w) k' = sval w k'.
Proof. done. Qed.

Lemma sval_slider_store_eq k v w : is_Some (sliders w !! k) → sval (slider_store k v w) k = v.
Proof. intros [q E]. unfold sval. simpl. by rewrite lookup_alter_eq, E. Qed.

Lemma sval_slider_store_ne k k' v w : k ≠ k' → sval (slider_store k v w) k' = sval w k'.
Proof. intros Hne. unfold sval. simpl. by rewrite lookup_alter_ne. Qed.

Lemma gval_slider_store k k' v w : gval (slider_store k v w) k' = gval w k'.
Proof. done. Qed.

Lemma gval_rpi_store n w k : gval (rpi_store n w) k = gval w k.
Proof. done. Qed.

Lemma sval_rpi_store n w k : sval (rpi_store n w) k = sval w k.
Proof. done. Qed.

(** *** Frames *)

Lemma evolves_refl ks w : evolves ks w w.
Proof. repeat split; try done. exists []. by rewrite app_nil_r. Qed.

Lemma evolves_trans ks w1 w2 w3 : evolves ks w1 w2 → evolves ks w2 w3 → evolves ks w1 w3.
Proof.
  intros (G1 & S1 & M1 & A1 & out1 & O1) (G2 & S2 & M2 & A2 & out2 & O2).
  repeat split.
  - intros k Hk. by rewrite G2, G1.
  - intros k Hk. by rewrite S2, S1.
  - congruence.
  - congruence.
  - exists (out1 ++ out2). by rewrite O2, O1, app_assoc.
Qed.

Lemma evolves_weaken ks ks' w w' : ks ⊆ ks' → evolves ks w w' → evolves ks' w w'.
Proof.
  intros Hsub (G & S & M & A & O). repeat split; try done.
  - intros k Hk. apply G. intros Hin. apply Hk, Hsub, Hin.
  - intros k Hk. apply S. intros Hin. apply Hk, Hsub, Hin.
Qed.

Lemma evolves_GPIO_store ks k v w : k ∈ ks → evolves ks w (GPIO_store k v w).
Proof.
  intros Hin. repeat split; try done.
  - intros j Hj. simpl. rewrite lookup_alter_ne; [done|]. intros ->. done.
  - exists []. by rewrite app_nil_r.
Qed.

Lemma evolves_slider_store ks k v w : k ∈ ks → evolves ks w (slider_store k v w).
Proof.
  intros Hin. repeat split; try done.
  - intros j Hj. simpl. rewrite lookup_alter_ne; [done|]. intros ->. done.
  - exists []. by rewrite app_nil_r.
Qed.

Lemma alive_sent_on msg n : alive (sent_on msg n) = alive n.
Proof. unfold sent_on. by destruct (alive n) eqn:E. Qed.

Lemma conn_sent_sent_on msg n :
  conn_sent (sent_on msg n) = conn_sent n ++ (if alive n then [msg +:+ LF] else []).
Proof. unfold sent_on. destruct (alive n); simpl; [done|by rewrite app_nil_r]. Qed.

Lemma evolves_sent ks msg w : evolves ks w (rpi_store (sent_on msg (rpi w)) w).
Proof.
  repeat split; try done.
  - simpl. apply alive_sent_on.
  - simpl. rewrite conn_sent_sent_on. by eexists.
Qed.

Lemma evolves_gval ks w w' k : evolves ks w w' → k ∉ ks → gval w' k = gval w k.
Proof. intros (G & _) Hk. unfold gval. by rewrite G. Qed.

Lemma evolves_sval ks w w' k : evolves ks w w' → k ∉ ks → sval w' k = sval w k.
Proof. intros (_ & S & _) Hk. unfold sval. by rewrite S. Qed.

Lemma evolves_sent_In ks w w' line :
  evolves ks w w' → line ∈ conn_sent (rpi w) → line ∈ conn_sent (rpi w').
Proof. intros (_ & _ & _ & _ & out & ->) Hin. apply elem_of_app. by left. Qed.

(** *** The primitive steps *)

Lemma send_sent_on msg n : send msg n = Done tt (sent_on msg n).
Proof. unfold send, sent_on. rewrite bind_get. by destruct (alive n). Qed.

Lemma rpi_send_Done msg w : rpi_send msg w = Done tt (rpi_store (sent_on msg (rpi w)) w).
Proof. unfold rpi_send. by rewrite send_sent_on. Qed.

Lemma GPIO_get_Done k w ch : GPIO w !! k = Some ch → GPIO_get k w = Done ch w.
Proof. intros E. unfold GPIO_get. rewrite bind_get, E. done. Qed.

Lemma GPIO_set_value_Done k v w :
  is_Some (GPIO w !! k) → GPIO_set_value k v w = Done tt (GPIO_store k v w).
Proof.
  intros [ch E]. unfold GPIO_set_value.
  by rewrite (bind_Done _ _ _ _ _ (GPIO_get_Done k w ch E)).
Qed.

Lemma slider_get_Done k w q : sliders w !! k = Some q → slider_get k w = Done q w.
Proof. intros E. unfold slider_get. rewrite bind_get, E. done. Qed.

Lemma bounds_check_Done k v w ch :
  GPIO w !! k = Some ch → bounds_check k v w = Done (clip (bounds ch) v) w.
Proof.
  intros E. unfold bounds_check.
  rewrite (bind_Done _ _ _ _ _ (GPIO_get_Done k w ch E)).
  unfold clip. destruct (bounds ch) as [lower upper]. simpl.
  destruct (v <? lower); [done|]. by destruct (v >? upper).
Qed.

Lemma clip_within b v : b.1 ≤ b.2 → b.1 ≤ clip b v ≤ b.2.
Proof.
  intros Hb. unfold clip.
  destruct (Z.ltb_spec v b.1); [lia|]. destruct (Z.gtb_spec v b.2); lia.
Qed.

Lemma clip_id b v : b.1 ≤ v ≤ b.2 → clip b v = v.
Proof.
  intros Hv. unfold clip.
  destruct (Z.ltb_spec v b.1); [lia|]. destruct (Z.gtb_spec v b.2); lia.
Qed.

Lemma c_int_fits v : -2147483648 ≤ v ≤ 2147483647 → c_int v = Ok v.
Proof. intros Hv. unfold c_int. by rewrite decide_True. Qed.

Lemma c_int_overflow v : ¬ (-2147483648 ≤ v ≤ 2147483647) → c_int v = Err OverflowError.
Proof. intros Hv. unfold c_int. by rewrite decide_False. Qed.

(** The range of every slider of the panel fits a C [int]. *)
Lemma wf_fits w k q v :
  wf w → sliders w !! k = Some q → minimum q ≤ v ≤ maximum q → c_int v = Ok v.
Proof.
  intros (_ & Hs & _) Hq Hv.
  assert (with_sl_value 0 <$> panel_init !! k = Some (with_sl_value 0 q)) as E.
  { rewrite <- lookup_fmap, <- Hs, lookup_fmap, Hq. done. }
  destruct (panel_init !! k) as [q0|] eqn:H0; [|done].
  assert (-100 ≤ minimum q0 ∧ maximum q0 ≤ 100) as [Hlo Hhi].
  { apply elem_of_list_to_map_2 in H0. unfold panel_table in H0.
    rewrite !elem_of_cons, elem_of_nil in H0.
    repeat (destruct H0 as [H0|H0]; [injection H0 as _ ->; simpl; lia|]).
    done. }
  injection E as Emin Emax. apply c_int_fits. lia.
Qed.

Section setValue_facts.
Variable emit : string → M World unit.

Lemma QAbstractSlider_setValue_same k v w q :
  sliders w !! k = Some q → sl_value q = qBound q v →
  QAbstractSlider_setValue emit k v w = Done tt w.
Proof.
  intros E Hv. unfold QAbstractSlider_setValue.
  rewrite (bind_Done _ _ _ _ _ (slider_get_Done k w q E)).
  simpl. by rewrite decide_True.
Qed.

Lemma QAbstractSlider_setValue_changed k v w q :
  sliders w !! k = Some q → sl_value q ≠ qBound q v →
  QAbstractSlider_setValue emit k v w = emit k (slider_store k (qBound q v) w).
Proof.
  intros E Hv. unfold QAbstractSlider_setValue.
  rewrite (bind_Done _ _ _ _ _ (slider_get_Done k w q E)).
  simpl. rewrite decide_False by done. by rewrite bind_modify.
Qed.

(** Called with a value that fits a C [int], [setValue] is Qt's. *)
Lemma setValue_fits k v w :
  c_int v = Ok v → setValue emit k v w = QAbstractSlider_setValue emit k v w.
Proof.
  intros Hv. unfold setValue.
  destruct (sliders w !! k) as [q|] eqn:E.
  - rewrite (bind_Done _ _ _ _ _ (slider_get_Done k w q E)), Hv. reflexivity.
  - unfold QAbstractSlider_setValue, slider_get, mbind, M_bind, bind, get. simpl.
    by rewrite E.
Qed.

Lemma setValue_overflow k v w q :
  sliders w !! k = Some q → c_int v = Err OverflowError →
  setValue emit k v w = Raise OverflowError w.
Proof.
  intros E Hv. unfold setValue.
  rewrite (bind_Done _ _ _ _ _ (slider_get_Done k w q E)). by rewrite Hv.
Qed.

Lemma setValue_same k v w q :
  sliders w !! k = Some q → sl_value q = qBound q v → c_int v = Ok v →
  setValue emit k v w = Done tt w.
Proof.
  intros E Hv Hc. rewrite (setValue_fits _ _ _ Hc).
  by apply (QAbstractSlider_setValue_same k v w q).
Qed.

Lemma setValue_changed k v w q :
  sliders w !! k = Some q → sl_value q ≠ qBound q v → c_int v = Ok v →
  setValue emit k v w = emit k (slider_store k (qBound q v) w).
Proof.
  intros E Hv Hc. rewrite (setValue_fits _ _ _ Hc).
  by apply (QAbstractSlider_setValue_changed k v w q).
Qed.

End setValue_facts.

Lemma qBound_id q v : minimum q ≤ v ≤ maximum q → qBound q v = v.
Proof. unfold qBound. lia. Qed.

(** *** The table *)

Lemma channel_facts c :
  c ∈ GPIO_keys →
  ∃ ch0, GPIO_init !! c = Some ch0
    ∧ bounds_of c = bounds ch0
    ∧ safe_of c = safe ch0
    ∧ (bounds ch0).1 ≤ 0 ≤ (bounds ch0).2
    ∧ (bounds ch0).1 ≤ safe ch0 ≤ (bounds ch0).2
    ∧ -100 ≤ (bounds ch0).1 ∧ (bounds ch0).2 ≤ 100.
Proof.
  unfold GPIO_keys, GPIO_table. simpl. rewrite !elem_of_cons, elem_of_nil.
  intros H.
  repeat (destruct H as [->|H]; [eexists; split; [reflexivity|]; vm_compute; intuition congruence|]).
  done.
Qed.

(** C2. For every channel of the table and every integer, [bounds_check]
    returns (it raises nothing and changes nothing) a value within the
    channel's bounds, and the integer itself when that lies within them; for
    SN1H, whose bounds are (-65, 65), 9999 gives 65 and -9999 gives -65. *)
Theorem bounds_check_clips (w : World) (c : string) (v : Z) :
  wf w → c ∈ GPIO_keys →
  (∃ r, bounds_check c v w = Done r w
     ∧ (bounds_of c).1 ≤ r ≤ (bounds_of c).2
     ∧ ((bounds_of c).1 ≤ v ≤ (bounds_of c).2 → r = v))
  ∧ length GPIO_keys = 14%nat
  ∧ bounds_of "SN1H" = (-65, 65)
  ∧ bounds_check "SN1H" 9999 w = Done 65 w
  ∧ bounds_check "SN1H" (-9999) w = Done (-65) w.
Proof.
  intros Hwf Hc. split; [|split; [done|split; [done|]]].
  - destruct (channel_facts c Hc) as (ch0 & E0 & -> & _ & Hb & _).
    destruct (wf_GPIO w c ch0 Hwf E0) as (x & E).
    exists (clip (bounds ch0) v). split; [by rewrite (bounds_check_Done c v w _ E)|].
    split; [apply clip_within; lia|apply clip_id].
  - assert ("SN1H" ∈ GPIO_keys) as H by in_list.
    destruct (channel_facts _ H) as (ch0 & E0 & Eb & _).
    destruct (wf_GPIO w _ ch0 Hwf E0) as (x & E).
    rewrite !(bounds_check_Done _ _ w _ E). simpl. rewrite <- Eb. done.
Qed.

Lemma bounds_check_clips_witness :
  (∃ r, bounds_check "MS1F" 120 (World_init (connected [])) = Done r (World_init (connected []))
     ∧ (bounds_of "MS1F").1 ≤ r ≤ (bounds_of "MS1F").2
     ∧ ((bounds_of "MS1F").1 ≤ 120 ≤ (bounds_of "MS1F").2 → r = 120))
  ∧ length GPIO_keys = 14%nat
  ∧ bounds_of "SN1H" = (-65, 65)
  ∧ bounds_check "SN1H" 9999 (World_init (connected [])) = Done 65 (World_init (connected []))
  ∧ bounds_check "SN1H" (-9999) (World_init (connected [])) = Done (-65) (World_init (connected [])).
Proof.
  apply (bounds_check_clips (World_init (connected [])) "MS1F" 120).
  - apply wf_World_init.
  - in_list.
Defined.

(** ** The slots of the Motor channels *)

Lemma motor_pair_sym c c' : (c, c') ∈ motor_pairs → (c', c) ∈ motor_pairs.
Proof.
  intros H. unfold motor_pairs in H. rewrite !elem_of_cons, elem_of_nil in H.
  repeat (destruct H as [[= -> ->]|H]; [in_list|]). done.
Qed.

Lemma motor_pair_facts c c' :
  (c, c') ∈ motor_pairs →
  swap_suffix c = Ok c' ∧ c ≠ c'
  ∧ c ≠ "Forwards" ∧ c ≠ "Turn"
  ∧ c ∈ GPIO_keys
  ∧ panel_init !! c = Some {| sl_value := 0; minimum := -100; maximum := 100 |}.
Proof.
  intros H. unfold motor_pairs in H. rewrite !elem_of_cons, elem_of_nil in H.
  repeat (destruct H as [[= -> ->]|H];
          [split; [reflexivity|]; repeat split; try discriminate; in_list|]).
  done.
Qed.

Lemma valueChanged_slider n k :
  k ≠ "Forwards" → k ≠ "Turn" →
  valueChanged (S n) k = slider_value (valueChanged n) k.
Proof. intros H1 H2. simpl. by rewrite !decide_False. Qed.

Lemma shown_quiet w c c' : sval w c' = 0 → shown w c c' = sval w c.
Proof. intros E. unfold shown. rewrite decide_False; [done|]. intros [? _]. done. Qed.

Lemma shown_reset w c c' : sval w c' ≠ 0 → shown w c c' = 0.
Proof.
  intros E. unfold shown. destruct (decide (sval w c = 0)) as [E0|E0].
  - rewrite decide_False; [done|]. intros [_ ?]. done.
  - by rewrite decide_True.
Qed.

(** What the table and the panel hold for a Motor channel in a state. *)
Lemma motor_state w c c' :
  (c, c') ∈ motor_pairs → wf w →
  ∃ ch0, GPIO_init !! c = Some ch0
    ∧ bounds_of c = bounds ch0
    ∧ (bounds ch0).1 ≤ 0 ≤ (bounds ch0).2
    ∧ -100 ≤ (bounds ch0).1 ∧ (bounds ch0).2 ≤ 100
    ∧ GPIO w !! c = Some (with_value (gval w c) ch0)
    ∧ sliders w !! c =
        Some {| sl_value := sval w c; minimum := -100; maximum := 100 |}
    ∧ -100 ≤ sval w c ≤ 100.
Proof.
  intros Hp Hwf. destruct (motor_pair_facts c c' Hp) as (_ & _ & _ & _ & Hk & Hq).
  destruct (channel_facts c Hk) as (ch0 & E0 & Eb & _ & Hb & _ & Hlo & Hhi).
  destruct (wf_GPIO w c ch0 Hwf E0) as (x & E).
  destruct (wf_slider w c _ Hwf Hq) as (y & Ey & Hy).
  exists ch0. rewrite (gval_lookup _ _ _ E), (sval_lookup _ _ _ Ey). done.
Qed.

Section motor_slot.
Variable emit : string → M World unit.

(** [clear_f] on one more name whose complement exists. *)
Lemma clear_f_loop_complement r c c' rest w w1 :
  swap_suffix c = Ok c' → is_Some (GPIO w !! c') →
  setValue emit c' 0 (GPIO_store c' 0 w) = Done tt w1 →
  clear_f_loop emit r (c :: rest) w
  = clear_f_loop emit r rest (rpi_store (sent_on (command c' 0) (rpi w1)) w1).
Proof.
  intros Hs [ch Hc] E. simpl. unfold lift at 1. rewrite Hs.
  unfold mbind at 1, M_bind at 1, bind at 1. rewrite bind_get, Hc.
  rewrite (bind_Done _ _ _ _ _ (GPIO_set_value_Done c' 0 w (mk_is_Some _ _ Hc))).
  rewrite (bind_Done _ _ _ _ _ E).
  by rewrite (bind_Done _ _ _ _ _ (rpi_send_Done _ w1)).
Qed.

(** [clear_f] on a name whose complement is no channel: the bare [return]. *)
Lemma clear_f_loop_no_complement r c c' rest w :
  swap_suffix c = Ok c' → GPIO w !! c' = None →
  clear_f_loop emit r (c :: rest) w = Done None w.
Proof.
  intros Hs Hc. simpl. unfold lift at 1. rewrite Hs.
  unfold mbind at 1, M_bind at 1, bind at 1. by rewrite bind_get, Hc.
Qed.

(** The complement's slider is set to 0; if that changes it, the complement's
    slot runs, and is assumed to do what [slot_post] says. *)
Lemma zero_complement c c' w :
  (c, c') ∈ motor_pairs → wf w →
  (sval w c' ≠ 0 →
   ∃ w2, emit c' (slider_store c' 0 (GPIO_store c' 0 w)) = Done tt w2
     ∧ slot_post c' c (slider_store c' 0 (GPIO_store c' 0 w)) w2) →
  ∃ w1, setValue emit c' 0 (GPIO_store c' 0 w) = Done tt w1 ∧ zeroed c c' w w1.
Proof.
  intros Hp Hwf Hnested.
  pose proof (motor_pair_sym _ _ Hp) as Hp'.
  destruct (motor_pair_facts c c' Hp) as (_ & Hne & _).
  destruct (motor_state w c' c Hp' Hwf) as (ch0' & _ & Eb' & Hb0' & _ & _ & Eg' & Es' & Hr').
  set (w0 := GPIO_store c' 0 w) in *.
  assert (wf w0) as Hwf0 by by apply wf_GPIO_store.
  assert (evolves [c; c'] w w0) as Hev0 by (apply evolves_GPIO_store; in_list).
  destruct (decide (sval w c' = 0)) as [Hz|Hnz].
  - exists w0. split.
    + apply (setValue_same emit c' 0 w0 _ Es'); [|done]. simpl. rewrite Hz. done.
    + refine (conj Hwf0 (conj Hev0 (conj _ (conj _ _)))).
      * unfold w0. apply gval_GPIO_store_eq. by rewrite Eg'.
      * done.
      * by rewrite shown_quiet.
  - set (w1 := slider_store c' 0 w0) in *.
    assert (sval w1 c' = 0) as Hz1.
    { apply sval_slider_store_eq. simpl. by rewrite Es'. }
    destruct (Hnested Hnz) as (w2 & E2 & ((Hwf2 & Hev2 & Hg2 & Hs2 & Hsh2) & Hcl2)).
    exists w2. split.
    + rewrite (setValue_changed emit c' 0 w0 _ Es'); [exact E2| |done]. simpl. done.
    + assert (shown w1 c' c = 0) as Hsh.
      { unfold shown. destruct (decide _); [done|]. exact Hz1. }
      rewrite Hsh in Hsh2, Hcl2.
      refine (conj Hwf2 (conj _ (conj _ (conj Hsh2 _)))).
      * eapply evolves_trans; [exact Hev0|]. eapply evolves_trans.
        -- apply (evolves_slider_store [c; c'] c' 0 w0). in_list.
        -- eapply evolves_weaken; [|exact Hev2].
           intros k. rewrite !elem_of_cons. tauto.
      * rewrite Hcl2, Eb'. by apply clip_id.
      * rewrite Hs2. by rewrite shown_reset.
Qed.

(** The slot of a Motor channel, given what the complement's slot does when
    it is run from within. *)
Lemma slider_value_motor c c' w :
  (c, c') ∈ motor_pairs → wf w →
  (sval w c' ≠ 0 →
   ∃ w2, emit c' (slider_store c' 0 (GPIO_store c' 0 w)) = Done tt w2
     ∧ slot_post c' c (slider_store c' 0 (GPIO_store c' 0 w)) w2) →
  ∃ w', slider_value emit c w = Done tt w' ∧ slot_post c c' w w'.
Proof.
  intros Hp Hwf Hnested.
  pose proof (motor_pair_sym _ _ Hp) as Hp'.
  destruct (motor_pair_facts c c' Hp) as (Hsw & Hne & _).
  destruct (zero_complement c c' w Hp Hwf Hnested) as (w1 & E1 & Hwf1 & Hev1 & Hg1 & Hs1 & Hsh1).
  destruct (motor_state w c' c Hp' Hwf) as (ch0' & _ & _ & _ & _ & _ & Eg' & _).
  set (w2 := rpi_store (sent_on (command c' 0) (rpi w1)) w1).
  assert (wf w2) as Hwf2 by done.
  destruct (motor_state w2 c c' Hp Hwf2) as (ch0 & _ & Eb & Hb0 & _ & _ & Eg & Es & Hr).
  set (v := clip (bounds ch0) (sval w2 c)).
  exists (rpi_store (sent_on (command c v) (rpi (GPIO_store c v w2))) (GPIO_store c v w2)).
  split.
  - unfold slider_value, clear_f.
    erewrite bind_Done;
      [|rewrite (clear_f_loop_complement [c] c c' [] w w1 Hsw (mk_is_Some _ _ Eg') E1);
        reflexivity].
    rewrite (bind_Done _ _ _ _ _ (slider_get_Done c w2 _ Es)).
    rewrite (bind_Done _ _ _ _ _ (bounds_check_Done c _ w2 _ Eg)).
    rewrite (bind_Done _ _ _ _ _ (GPIO_set_value_Done c _ w2 (mk_is_Some _ _ Eg))).
    apply rpi_send_Done.
  - split; [refine (conj _ (conj _ (conj _ (conj _ _))))|].
    + apply wf_rpi_store. by apply wf_GPIO_store.
    + eapply evolves_trans; [exact Hev1|]. eapply evolves_trans; [apply evolves_sent|].
      eapply evolves_trans; [apply (evolves_GPIO_store [c; c'] c v); in_list|].
      apply evolves_sent.
    + rewrite gval_rpi_store, gval_GPIO_store_ne by done. exact Hg1.
    + exact Hs1.
    + exact Hsh1.
    + rewrite gval_rpi_store, gval_GPIO_store_eq by (by rewrite Eg).
      unfold v. rewrite Eb. f_equal. exact Hsh1.
Qed.

End motor_slot.

(** The complement's slider shows 0: nothing is delivered. *)
Lemma slot_quiet emit c c' w :
  (c, c') ∈ motor_pairs → wf w → sval w c' = 0 →
  ∃ w', slider_value emit c w = Done tt w' ∧ slot_post c c' w w'.
Proof. intros Hp Hwf Hz. apply slider_value_motor; [done..|]. intros Hnz. done. Qed.

(** The channel's own slider shows 0: the complement's slot may run, and
    finds nothing to reset. *)
Lemma slot_once n c c' w :
  (c, c') ∈ motor_pairs → wf w → sval w c = 0 →
  ∃ w', slider_value (valueChanged (S n)) c w = Done tt w' ∧ slot_post c c' w w'.
Proof.
  intros Hp Hwf Hz. apply slider_value_motor; [done..|]. intros Hnz.
  pose proof (motor_pair_sym _ _ Hp) as Hp'.
  destruct (motor_pair_facts c' c Hp') as (_ & Hne & HF & HT & _).
  rewrite valueChanged_slider by done. apply slot_quiet; [done| |].
  - apply wf_slider_store; [by apply wf_GPIO_store|]. intros q Hq.
    destruct (motor_state w c' c Hp' Hwf) as (ch0' & _ & _ & _ & _ & _ & _ & Es & _).
    simpl in Hq. rewrite Es in Hq. injection Hq as <-. simpl. lia.
  - rewrite sval_slider_store_ne by done. exact Hz.
Qed.

(** In general the complement's slot runs and that of the channel within it. *)
Lemma slot_twice n c c' w :
  (c, c') ∈ motor_pairs → wf w →
  ∃ w', slider_value (valueChanged (S (S n))) c w = Done tt w' ∧ slot_post c c' w w'.
Proof.
  intros Hp Hwf. apply slider_value_motor; [done..|]. intros Hnz.
  pose proof (motor_pair_sym _ _ Hp) as Hp'.
  destruct (motor_pair_facts c' c Hp') as (_ & Hne & HF & HT & _).
  destruct (motor_state w c' c Hp' Hwf) as (ch0' & _ & _ & _ & _ & _ & _ & Es & _).
  rewrite valueChanged_slider by done. apply slot_once; [done| |].
  - apply wf_slider_store; [by apply wf_GPIO_store|]. intros q Hq.
    simpl in Hq. rewrite Es in Hq. injection Hq as <-. simpl. lia.
  - apply sval_slider_store_eq. simpl. by rewrite Es.
Qed.

(** The slot of a Motor channel [c], run with room for two nested deliveries:
    it returns, the complement's value and slider are 0, and the channel
    holds the clipped value its slider shows at the end. *)
Lemma motor_slot n c c' w :
  (c, c') ∈ motor_pairs → wf w →
  ∃ w', valueChanged (S (S (S n))) c w = Done tt w' ∧ slot_post c c' w w'.
Proof.
  intros Hp Hwf. destruct (motor_pair_facts c c' Hp) as (_ & _ & HF & HT & _).
  rewrite valueChanged_slider by done. by apply slot_twice.
Qed.

(** ** The slots of the Servo channels, and [safe_value] *)

Lemma servos_eq :
  servos = ["SN1V"; "SN1H"; "SN2V"; "SN2H"; "SJ1V"; "SJ1H"; "SJ2V"; "SJ2H"].
Proof. reflexivity. Qed.

Lemma motors_eq : motors = ["MS1F"; "MS1S"; "MS2F"; "MS2S"; "MS3F"; "MS3S"].
Proof. reflexivity. Qed.

Lemma servo_facts s :
  s ∈ servos →
  (∃ s', swap_suffix s = Ok s' ∧ GPIO_init !! s' = None)
  ∧ s ≠ "Forwards" ∧ s ≠ "Turn" ∧ s ≠ ""
  ∧ s ∈ GPIO_keys
  ∧ ∃ q0, panel_init !! s = Some q0 ∧ minimum q0 ≤ safe_of s ≤ maximum q0.
Proof.
  intros H. rewrite servos_eq, !elem_of_cons, elem_of_nil in H.
  repeat (destruct H as [->|H];
          [split; [eexists; split; reflexivity|];
           repeat split; try discriminate; try in_list;
           eexists; split; [reflexivity|]; vm_compute; intuition congruence|]).
  done.
Qed.

Lemma servo_state w s :
  s ∈ servos → wf w →
  ∃ ch0 q0, GPIO_init !! s = Some ch0
    ∧ bounds_of s = bounds ch0 ∧ safe_of s = safe ch0
    ∧ (bounds ch0).1 ≤ safe ch0 ≤ (bounds ch0).2
    ∧ GPIO w !! s = Some (with_value (gval w s) ch0)
    ∧ sliders w !! s = Some (with_sl_value (sval w s) q0)
    ∧ minimum q0 ≤ safe ch0 ≤ maximum q0
    ∧ minimum q0 ≤ sval w s ≤ maximum q0.
Proof.
  intros Hs Hwf. destruct (servo_facts s Hs) as (_ & _ & _ & _ & Hk & q0 & Hq & Hsafe).
  destruct (channel_facts s Hk) as (ch0 & E0 & Eb & Esafe & _ & Hb & _).
  destruct (wf_GPIO w s ch0 Hwf E0) as (x & E).
  destruct (wf_slider w s _ Hwf Hq) as (y & Ey & Hy).
  exists ch0, q0. rewrite (gval_lookup _ _ _ E), (sval_lookup _ _ _ Ey).
  rewrite Esafe in Hsafe. done.
Qed.

(** The slot of a Servo channel: [clear_f] finds no complement and returns;
    the channel gets the clipped value its slider shows; no slider moves. *)
Lemma servo_slot emit s w :
  s ∈ servos → wf w →
  ∃ w', slider_value emit s w = Done tt w'
    ∧ wf w' ∧ evolves [s] w w' ∧ sliders w' = sliders w
    ∧ gval w' s = clip (bounds_of s) (sval w s).
Proof.
  intros Hs Hwf.
  destruct (servo_facts s Hs) as ((s' & Hsw & Hnone) & _).
  destruct (servo_state w s Hs Hwf) as (ch0 & q0 & _ & Eb & _ & _ & Eg & Es & _).
  set (v := clip (bounds ch0) (sval w s)).
  exists (rpi_store (sent_on (command s v) (rpi (GPIO_store s v w))) (GPIO_store s v w)).
  split; [|split; [|split; [|split]]].
  - unfold slider_value, clear_f.
    erewrite bind_Done;
      [|apply (clear_f_loop_no_complement emit [s] s s' [] w Hsw);
        by apply wf_GPIO_None].
    rewrite (bind_Done _ _ _ _ _ (slider_get_Done s w _ Es)).
    rewrite (bind_Done _ _ _ _ _ (bounds_check_Done s _ w _ Eg)).
    rewrite (bind_Done _ _ _ _ _ (GPIO_set_value_Done s _ w (mk_is_Some _ _ Eg))).
    apply rpi_send_Done.
  - apply wf_rpi_store. by apply wf_GPIO_store.
  - eapply evolves_trans; [apply (evolves_GPIO_store [s] s v); in_list|].
    apply evolves_sent.
  - done.
  - rewrite gval_rpi_store, gval_GPIO_store_eq by (by rewrite Eg).
    unfold v. by rewrite Eb.
Qed.

(** [sliders[s].setValue(v)] on a Servo channel's slider, for a value of the
    slider's range: if the slider moves, the channel's slot stores the clipped
    value. *)
Lemma setValue_servo n s v w :
  s ∈ servos → wf w →
  (∀ q, sliders w !! s = Some q → minimum q ≤ v ≤ maximum q) →
  ∃ w', setValue (valueChanged (S n)) s v w = Done tt w'
    ∧ wf w' ∧ evolves [s] w w' ∧ sval w' s = v
    ∧ gval w' s = if decide (sval w s = v) then gval w s else clip (bounds_of s) v.
Proof.
  intros Hs Hwf Hrange.
  destruct (servo_facts s Hs) as (_ & HF & HT & _).
  destruct (servo_state w s Hs Hwf) as (ch0 & q0 & _ & Eb & _ & _ & Eg & Es & _).
  specialize (Hrange _ Es).
  destruct (decide (sval w s = v)) as [Hsame|Hdiff].
  - exists w. split; [|by auto using evolves_refl].
    apply (setValue_same _ s v w _ Es); [|exact (wf_fits w s _ v Hwf Es Hrange)].
    simpl. by rewrite qBound_id.
  - rewrite (setValue_changed _ s v w _ Es);
      [|simpl; by rewrite qBound_id|exact (wf_fits w s _ v Hwf Es Hrange)].
    rewrite qBound_id by done. rewrite valueChanged_slider by done.
    set (w0 := slider_store s v w).
    assert (sval w0 s = v) as Hs0.
    { apply sval_slider_store_eq. by rewrite Es. }
    assert (wf w0) as Hwf0.
    { apply wf_slider_store; [done|]. intros q Hq.
      rewrite Es in Hq. injection Hq as <-. done. }
    destruct (servo_slot (valueChanged n) s w0 Hs Hwf0) as (w1 & E1 & Hwf1 & Hev1 & Hsl1 & Hg1).
    exists w1. split; [done|]. split; [done|]. split; [|split].
    + eapply evolves_trans; [|exact Hev1]. apply evolves_slider_store. in_list.
    + unfold sval. rewrite Hsl1. exact Hs0.
    + by rewrite Hg1, Hs0.
Qed.

(** A group setter's step on a Servo channel, [GPIO[s][1] = v;
    sliders[s].setValue(v); rpi.send(...)]. *)
Lemma show_servo n s v w :
  s ∈ servos → wf w →
  (∀ q, sliders w !! s = Some q → minimum q ≤ v ≤ maximum q) →
  ∃ w',
    (GPIO_set_value s v;; setValue (valueChanged (S n)) s v;; rpi_send (command s v)) w
    = Done tt w'
    ∧ wf w' ∧ evolves [s] w w'
    ∧ gval w' s = (if decide (sval w s = v) then v else clip (bounds_of s) v)
    ∧ (alive (rpi w) = true → command s v +:+ LF ∈ conn_sent (rpi w')).
Proof.
  intros Hs Hwf Hrange.
  destruct (servo_state w s Hs Hwf) as (ch0 & q0 & _ & Eb & _ & _ & Eg & Es & _).
  set (w0 := GPIO_store s v w).
  assert (wf w0) as Hwf0 by by apply wf_GPIO_store.
  assert (gval w0 s = v) as Hg0 by (apply gval_GPIO_store_eq; by rewrite Eg).
  destruct (setValue_servo n s v w0 Hs Hwf0 Hrange) as (w1 & E1 & Hwf1 & Hev1 & _ & Hg1).
  exists (rpi_store (sent_on (command s v) (rpi w1)) w1).
  split; [|split; [|split; [|split]]].
  - rewrite (bind_Done _ _ _ _ _ (GPIO_set_value_Done s v w (mk_is_Some _ _ Eg))).
    rewrite (bind_Done _ _ _ _ _ E1). apply rpi_send_Done.
  - by apply wf_rpi_store.
  - eapply evolves_trans; [apply (evolves_GPIO_store [s] s v); in_list|].
    eapply evolves_trans; [exact Hev1|]. apply evolves_sent.
  - rewrite gval_rpi_store, Hg1, Hg0. done.
  - intros Ha. simpl. rewrite conn_sent_sent_on.
    destruct Hev1 as (_ & _ & _ & Ha1 & _). simpl in Ha1. rewrite Ha1, Ha.
    apply elem_of_app. right. in_list.
Qed.

(** The slot of the Turn slider touches the two joint-Horizontal channels. *)
Lemma turn_slot n w :
  wf w →
  ∃ w', turn (valueChanged (S n)) w = Done tt w'
    ∧ wf w' ∧ evolves ["SJ1H"; "SJ2H"] w w'.
Proof.
  intros Hwf.
  destruct (wf_slider w "Turn" _ Hwf eq_refl) as (v & Ev & Hv). simpl in Hv.
  unfold turn. rewrite (bind_Done _ _ _ _ _ (slider_get_Done "Turn" w _ Ev)). simpl.
  assert ("SJ1H" ∈ servos) as H1 by in_list.
  assert ("SJ2H" ∈ servos) as H2 by in_list.
  destruct (show_servo n "SJ1H" v w H1 Hwf) as (w1 & E1 & Hwf1 & Hev1 & _).
  { intros q Hq. destruct (wf_slider w "SJ1H" _ Hwf eq_refl) as (x & Ex & _).
    rewrite Ex in Hq. injection Hq as <-. simpl. lia. }
  destruct (show_servo n "SJ2H" v w1 H2 Hwf1) as (w2 & E2 & Hwf2 & Hev2 & _).
  { intros q Hq. destruct (wf_slider w1 "SJ2H" _ Hwf1 eq_refl) as (x & Ex & _).
    rewrite Ex in Hq. injection Hq as <-. simpl. lia. }
  exists w2. split; [|split; [done|]].
  - rewrite (bind_Done _ _ _ _ _ E1). rewrite (bind_Done _ _ _ _ _ E2). done.
  - eapply evolves_trans; (eapply evolves_weaken; [|eassumption]);
      intros k; rewrite ?elem_of_cons, ?elem_of_nil; tauto.
Qed.

(** One round of [safe_value]'s loop. *)
Lemma safe_value_step n s w :
  s ∈ servos → wf w →
  ∃ w',
    (ch ← GPIO_get s;
     GPIO_set_value s (safe ch);;
     ch ← GPIO_get s;
     setValue (valueChanged (S n)) s (safe ch);;
     ch ← GPIO_get s;
     rpi_send (command s (safe ch))) w = Done tt w'
    ∧ wf w' ∧ evolves [s] w w' ∧ gval w' s = safe_of s
    ∧ (alive (rpi w) = true → command s (safe_of s) +:+ LF ∈ conn_sent (rpi w')).
Proof.
  intros Hs Hwf.
  destruct (servo_state w s Hs Hwf) as (ch0 & q0 & E0 & Eb & Esafe & Hb & Eg & Es & Hq0 & _).
  set (v := safe ch0) in *.
  set (w0 := GPIO_store s v w).
  assert (wf w0) as Hwf0 by by apply wf_GPIO_store.
  assert (gval w0 s = v) as Hg0 by (apply gval_GPIO_store_eq; by rewrite Eg).
  destruct (wf_GPIO w0 s ch0 Hwf0 E0) as (x0 & Eg0).
  destruct (setValue_servo n s v w0 Hs Hwf0) as (w1 & E1 & Hwf1 & Hev1 & _ & Hg1).
  { intros q Hq. change (sliders w0) with (sliders w) in Hq.
    rewrite Es in Hq. injection Hq as <-. done. }
  destruct (wf_GPIO w1 s ch0 Hwf1 E0) as (x1 & Eg1).
  exists (rpi_store (sent_on (command s v) (rpi w1)) w1).
  split; [|split; [|split; [|split]]].
  - rewrite (bind_Done _ _ _ _ _ (GPIO_get_Done s w _ Eg)).
    rewrite (bind_Done _ _ _ _ _ (GPIO_set_value_Done s _ w (mk_is_Some _ _ Eg))).
    rewrite (bind_Done _ _ _ _ _ (GPIO_get_Done s _ _ Eg0)).
    rewrite (bind_Done _ _ _ _ _ E1).
    rewrite (bind_Done _ _ _ _ _ (GPIO_get_Done s _ _ Eg1)).
    apply rpi_send_Done.
  - by apply wf_rpi_store.
  - eapply evolves_trans; [apply (evolves_GPIO_store [s] s v); in_list|].
    eapply evolves_trans; [exact Hev1|]. apply evolves_sent.
  - rewrite gval_rpi_store, Hg1, Hg0, Esafe, Eb.
    destruct (decide _); [done|]. by apply clip_id.
  - intros Ha. simpl. rewrite conn_sent_sent_on, Esafe.
    destruct Hev1 as (_ & _ & _ & Ha1 & _). simpl in Ha1. rewrite Ha1, Ha.
    apply elem_of_app. right. in_list.
Qed.

(** [safe_value]'s loop over a list of distinct Servo channels. *)
Lemma safe_value_loop n l : ∀ w,
  NoDup l → (∀ s, s ∈ l → s ∈ servos) → wf w →
  ∃ w',
    for_each (λ s,
      ch ← GPIO_get s;
      GPIO_set_value s (safe ch);;
      ch ← GPIO_get s;
      setValue (valueChanged (S n)) s (safe ch);;
      ch ← GPIO_get s;
      rpi_send (command s (safe ch))) l w = Done tt w'
    ∧ wf w' ∧ evolves l w w'
    ∧ ∀ s, s ∈ l →
        gval w' s = safe_of s
        ∧ (alive (rpi w) = true → command s (safe_of s) +:+ LF ∈ conn_sent (rpi w')).
Proof.
  induction l as [|s l IH]; intros w Hnd Hl Hwf.
  - exists w. split; [done|]. split; [done|]. split; [apply evolves_refl|].
    intros s Hs. by apply elem_of_nil in Hs.
  - apply NoDup_cons in Hnd as [Hnotin Hnd].
    destruct (safe_value_step n s w) as (w1 & E1 & Hwf1 & Hev1 & Hg1 & Hc1);
      [apply Hl; in_list|done|].
    destruct (IH w1 Hnd) as (w2 & E2 & Hwf2 & Hev2 & Hall); [|done|].
    { intros x Hx. apply Hl. by apply elem_of_cons; right. }
    exists w2. split; [|split; [done|split]].
    + simpl. rewrite (bind_Done _ _ _ _ _ E1). exact E2.
    + eapply evolves_trans; (eapply evolves_weaken; [|eassumption]);
        intros k; rewrite ?elem_of_cons, ?elem_of_nil; tauto.
    + intros x Hx. apply elem_of_cons in Hx as [->|Hx].
      * split.
        -- rewrite (evolves_gval _ _ _ _ Hev2 Hnotin). exact Hg1.
        -- intros Ha. eapply evolves_sent_In; [exact Hev2|]. by apply Hc1.
      * destruct (Hall x Hx) as (Hgx & Hcx). split; [done|].
        intros Ha. apply Hcx. destruct Hev1 as (_ & _ & _ & Ha1 & _). by rewrite Ha1.
Qed.


(** ** The group setters of the Motor channels *)

Lemma NoDup_pairs_cons (c c' : string) (l l' : list string) :
  NoDup ((c :: l) ++ c' :: l') →
  NoDup (l ++ l') ∧ (c ∉ l ++ l') ∧ (c' ∉ l ++ l') ∧ c ≠ c'.
Proof.
  intros Hnd. simpl in Hnd. apply NoDup_cons in Hnd as [Hc Hnd].
  apply NoDup_app in Hnd as (Hl & Hdisj & Hl').
  apply NoDup_cons in Hl' as [Hc' Hl'].
  rewrite elem_of_app, elem_of_cons in Hc.
  split; [|split; [|split]].
  - apply NoDup_app. split; [done|]. split; [|done].
    intros x Hx Hx'. apply (Hdisj x Hx). apply elem_of_cons. by right.
  - rewrite elem_of_app. tauto.
  - rewrite elem_of_app. intros [Hin|Hin]; [|done].
    apply (Hdisj c' Hin). apply elem_of_cons. by left.
  - intros ->. tauto.
Qed.

(** With room for a nested delivery, setting the complement's slider to 0
    always succeeds. *)
Lemma zero_complement_nested n c c' w :
  (c, c') ∈ motor_pairs → wf w →
  ∃ w1, setValue (valueChanged (S (S n))) c' 0 (GPIO_store c' 0 w) = Done tt w1
    ∧ zeroed c c' w w1.
Proof.
  intros Hp Hwf. apply zero_complement; [done..|]. intros Hnz.
  pose proof (motor_pair_sym _ _ Hp) as Hp'.
  destruct (motor_pair_facts c' c Hp') as (_ & Hne & HF & HT & _).
  destruct (motor_state w c' c Hp' Hwf) as (ch0' & _ & _ & _ & _ & _ & _ & Es & _).
  rewrite valueChanged_slider by done. apply slot_once; [done| |].
  - apply wf_slider_store; [by apply wf_GPIO_store|]. intros q Hq.
    simpl in Hq. rewrite Es in Hq. injection Hq as <-. simpl. lia.
  - apply sval_slider_store_eq. simpl. by rewrite Es.
Qed.

(** [clear_f] on Motor channels of distinct segments: every complement ends
    at value 0 with its slider at 0. *)
Lemma clear_f_motors n r l : ∀ w,
  NoDup (l ++ (complement_of <$> l)) →
  (∀ c, c ∈ l → (c, complement_of c) ∈ motor_pairs) →
  wf w →
  ∃ w', clear_f_loop (valueChanged (S (S n))) r l w = Done (Some r) w'
    ∧ wf w' ∧ evolves (l ++ (complement_of <$> l)) w w'
    ∧ ∀ c, c ∈ l →
        gval w' (complement_of c) = 0 ∧ sval w' (complement_of c) = 0
        ∧ sval w' c = shown w c (complement_of c).
Proof.
  induction l as [|c l IH]; intros w Hnd Hl Hwf.
  - exists w. split; [done|]. split; [done|]. split; [apply evolves_refl|].
    intros c Hc. by apply elem_of_nil in Hc.
  - set (c' := complement_of c).
    assert ((c, c') ∈ motor_pairs) as Hp by (apply Hl; in_list).
    pose proof (motor_pair_sym _ _ Hp) as Hp'.
    destruct (motor_pair_facts c c' Hp) as (Hsw & Hne & _).
    destruct (motor_state w c' c Hp' Hwf) as (ch0' & _ & _ & _ & _ & _ & Eg' & _).
    destruct (zero_complement_nested n c c' w Hp Hwf) as (w1 & E1 & Hwf1 & Hev1 & Hg1 & Hs1 & Hsh1).
    set (w2 := rpi_store (sent_on (command c' 0) (rpi w1)) w1).
    assert (evolves [c; c'] w w2) as Hev2.
    { eapply evolves_trans; [exact Hev1|]. apply evolves_sent. }
    (* the rest of the list names neither [c] nor [c'] *)
    rewrite fmap_cons in Hnd. fold c' in Hnd.
    apply NoDup_pairs_cons in Hnd as (Hnd' & Hc_out' & Hc'_out & _).
    assert ((c ∉ l) ∧ (c' ∉ l) ∧ (c ∉ complement_of <$> l) ∧ (c' ∉ complement_of <$> l))
      as (Hc_l & Hc'_l & Hc_l' & Hc'_l').
    { rewrite elem_of_app in Hc_out', Hc'_out. tauto. }
    destruct (IH w2 Hnd') as (w3 & E3 & Hwf3 & Hev3 & Hall); [|done|].
    { intros x Hx. apply Hl. apply elem_of_cons. by right. }
    exists w3. split; [|split; [done|split]].
    + rewrite (clear_f_loop_complement _ r c c' l w w1 Hsw (mk_is_Some _ _ Eg') E1).
      exact E3.
    + eapply evolves_trans; (eapply evolves_weaken; [|eassumption]);
        intros k; rewrite ?fmap_cons, ?elem_of_app, ?elem_of_cons, ?elem_of_app, ?elem_of_nil;
        tauto.
    + intros x Hx. apply elem_of_cons in Hx as [->|Hx].
      * fold c'.
        rewrite (evolves_gval _ _ _ c' Hev3 Hc'_out), (evolves_sval _ _ _ c' Hev3 Hc'_out),
          (evolves_sval _ _ _ c Hev3 Hc_out').
        done.
      * destruct (Hall x Hx) as (Hgx & Hsx & Hshx). split; [done|]. split; [done|].
        rewrite Hshx. unfold shown.
        assert ((x ∉ [c; c']) ∧ (complement_of x ∉ [c; c'])) as [Hx1 Hx2].
        { rewrite !elem_of_cons, !elem_of_nil. split; intros [E|[E|[]]].
          - apply Hc_l. by rewrite <- E.
          - apply Hc'_l. by rewrite <- E.
          - apply Hc_l'. rewrite <- E. by apply list_elem_of_fmap_2.
          - apply Hc'_l'. rewrite <- E. by apply list_elem_of_fmap_2. }
        by rewrite (evolves_sval _ _ _ _ Hev2 Hx1), (evolves_sval _ _ _ _ Hev2 Hx2).
Qed.

(** A group setter's step on a Motor channel whose complement was cleared:
    if the slider moves, its slot stores the clipped value over the raw one. *)
Lemma show_motor n c c' v w :
  (c, c') ∈ motor_pairs → wf w → -100 ≤ v ≤ 100 →
  gval w c' = 0 → sval w c' = 0 →
  ∃ w',
    (GPIO_set_value c v;; setValue (valueChanged (S n)) c v;; rpi_send (command c v)) w
    = Done tt w'
    ∧ wf w' ∧ evolves [c; c'] w w'
    ∧ gval w' c' = 0 ∧ sval w' c' = 0 ∧ sval w' c = v
    ∧ gval w' c = (if decide (sval w c = v) then v else clip (bounds_of c) v)
    ∧ (alive (rpi w) = true → command c v +:+ LF ∈ conn_sent (rpi w')).
Proof.
  intros Hp Hwf Hv Hg' Hs'.
  destruct (motor_pair_facts c c' Hp) as (Hsw & Hne & HF & HT & _).
  destruct (motor_state w c c' Hp Hwf) as (ch0 & _ & Eb & _ & _ & _ & Eg & Es & Hr).
  set (w0 := GPIO_store c v w).
  assert (wf w0) as Hwf0 by by apply wf_GPIO_store.
  assert (gval w0 c = v) as Hg0 by (apply gval_GPIO_store_eq; by rewrite Eg).
  assert (∃ w1, setValue (valueChanged (S n)) c v w0 = Done tt w1
            ∧ wf w1 ∧ evolves [c; c'] w0 w1
            ∧ gval w1 c' = 0 ∧ sval w1 c' = 0 ∧ sval w1 c = v
            ∧ gval w1 c = if decide (sval w c = v) then v else clip (bounds_of c) v)
    as (w1 & E1 & Hwf1 & Hev1 & Hg1' & Hs1' & Hs1 & Hg1).
  { destruct (decide (sval w c = v)) as [Hsame|Hdiff].
    - exists w0.
      split; [apply (setValue_same _ c v w0 _ Es);
                [simpl; by rewrite qBound_id|apply c_int_fits; lia]|].
      split; [done|]. split; [apply evolves_refl|].
      unfold w0. rewrite gval_GPIO_store_ne by done. done.
    - rewrite (setValue_changed _ c v w0 _ Es);
        [|simpl; by rewrite qBound_id|apply c_int_fits; lia].
      rewrite qBound_id by done. rewrite valueChanged_slider by done.
      set (w0' := slider_store c v w0).
      assert (wf w0') as Hwf0'.
      { apply wf_slider_store; [done|]. intros q Hq. simpl in Hq.
        rewrite Es in Hq. injection Hq as <-. done. }
      assert (sval w0' c' = 0) as Hz.
      { unfold w0'. rewrite sval_slider_store_ne by done. done. }
      destruct (slot_quiet (valueChanged n) c c' w0' Hp Hwf0' Hz)
        as (w1 & E1 & (Hwf1 & Hev1 & Hg1' & Hs1' & Hsh1) & Hg1).
      rewrite shown_quiet in Hsh1, Hg1 by done.
      assert (sval w0' c = v) as Hsv.
      { apply sval_slider_store_eq. simpl. by rewrite Es. }
      exists w1. split; [done|]. split; [done|]. split.
      + eapply evolves_trans; [|exact Hev1]. apply evolves_slider_store. in_list.
      + rewrite Hsh1, Hg1, Hsv. done. }
  exists (rpi_store (sent_on (command c v) (rpi w1)) w1).
  split; [|split; [|split; [|split; [|split; [|split; [|split]]]]]]; try done.
  - rewrite (bind_Done _ _ _ _ _ (GPIO_set_value_Done c v w (mk_is_Some _ _ Eg))).
    rewrite (bind_Done _ _ _ _ _ E1). apply rpi_send_Done.
  - eapply evolves_trans; [apply (evolves_GPIO_store [c; c'] c v); in_list|].
    eapply evolves_trans; [exact Hev1|]. apply evolves_sent.
  - intros Ha. simpl. rewrite conn_sent_sent_on.
    destruct Hev1 as (_ & _ & _ & Ha1 & _). simpl in Ha1. rewrite Ha1, Ha.
    apply elem_of_app. right. in_list.
Qed.

(** The loop of a group setter over Motor channels of distinct segments whose
    complements were cleared; [val] gives the value each channel is set to. *)
Lemma show_motors n (body : string → M World unit) (val : string → Z) (m : float) l : ∀ w,
  (∀ c w0, c ∈ l → wf w0 → MOMENTUM w0 = m →
     body c w0 =
     (GPIO_set_value c (val c);; setValue (valueChanged (S n)) c (val c);;
      rpi_send (command c (val c))) w0) →
  NoDup (l ++ (complement_of <$> l)) →
  (∀ c, c ∈ l → (c, complement_of c) ∈ motor_pairs) →
  (∀ c, c ∈ l → -100 ≤ val c ≤ 100) →
  wf w → MOMENTUM w = m →
  (∀ c, c ∈ l → gval w (complement_of c) = 0 ∧ sval w (complement_of c) = 0) →
  ∃ w', for_each body l w = Done tt w'
    ∧ wf w' ∧ evolves (l ++ (complement_of <$> l)) w w'
    ∧ ∀ c, c ∈ l →
        gval w' (complement_of c) = 0 ∧ sval w' (complement_of c) = 0
        ∧ sval w' c = val c
        ∧ gval w' c = (if decide (sval w c = val c) then val c
                       else clip (bounds_of c) (val c))
        ∧ (alive (rpi w) = true → command c (val c) +:+ LF ∈ conn_sent (rpi w')).
Proof.
  induction l as [|c l IH]; intros w Hbody Hnd Hl Hval Hwf Hm Hpre.
  - exists w. split; [done|]. split; [done|]. split; [apply evolves_refl|].
    intros c Hc. by apply elem_of_nil in Hc.
  - set (c' := complement_of c).
    assert ((c, c') ∈ motor_pairs) as Hp by (apply Hl; in_list).
    destruct (Hpre c) as (Hg' & Hs'); [in_list|]. fold c' in Hg', Hs'.
    destruct (show_motor n c c' (val c) w Hp Hwf) as
      (w1 & E1 & Hwf1 & Hev1 & Hg1' & Hs1' & Hs1 & Hg1 & Hc1); [apply Hval; in_list|done..|].
    rewrite fmap_cons in Hnd. fold c' in Hnd.
    apply NoDup_pairs_cons in Hnd as (Hnd' & Hc_out' & Hc'_out & _).
    assert ((c ∉ l) ∧ (c' ∉ l) ∧ (c ∉ complement_of <$> l) ∧ (c' ∉ complement_of <$> l))
      as (Hc_l & Hc'_l & Hc_l' & Hc'_l').
    { rewrite elem_of_app in Hc_out', Hc'_out. tauto. }
    assert (∀ x, x ∈ l → (x ∉ [c; c']) ∧ (complement_of x ∉ [c; c'])) as Hfresh.
    { intros x Hx. rewrite !elem_of_cons, !elem_of_nil. split; intros [E|[E|[]]].
      - apply Hc_l. by rewrite <- E.
      - apply Hc'_l. by rewrite <- E.
      - apply Hc_l'. rewrite <- E. by apply list_elem_of_fmap_2.
      - apply Hc'_l'. rewrite <- E. by apply list_elem_of_fmap_2. }
    destruct (IH w1) as (w2 & E2 & Hwf2 & Hev2 & Hall); try done.
    { intros x w0 Hx. apply Hbody. apply elem_of_cons. by right. }
    { intros x Hx. apply Hl. apply elem_of_cons. by right. }
    { intros x Hx. apply Hval. apply elem_of_cons. by right. }
    { destruct Hev1 as (_ & _ & -> & _). done. }
    { intros x Hx. destruct (Hfresh x Hx) as [_ Hx2].
      rewrite (evolves_gval _ _ _ _ Hev1 Hx2), (evolves_sval _ _ _ _ Hev1 Hx2).
      apply Hpre. apply elem_of_cons. by right. }
    exists w2. split; [|split; [done|split]].
    + simpl. rewrite (bind_Done (body c) _ w tt w1); [exact E2|].
      rewrite Hbody by (done || in_list). exact E1.
    + eapply evolves_trans; (eapply evolves_weaken; [|eassumption]);
        intros k; rewrite ?fmap_cons, ?elem_of_app, ?elem_of_cons, ?elem_of_app, ?elem_of_nil;
        tauto.
    + intros x Hx. apply elem_of_cons in Hx as [->|Hx].
      * fold c'.
        rewrite (evolves_gval _ _ _ c' Hev2 Hc'_out), (evolves_sval _ _ _ c' Hev2 Hc'_out),
          (evolves_sval _ _ _ c Hev2 Hc_out'), (evolves_gval _ _ _ c Hev2 Hc_out').
        split; [done|]. split; [done|]. split; [done|]. split; [done|].
        intros Ha. eapply evolves_sent_In; [exact Hev2|]. by apply Hc1.
      * destruct (Hall x Hx) as (Hgx' & Hsx' & Hsx & Hgx & Hcx).
        destruct (Hfresh x Hx) as [Hx1 _].
        rewrite (evolves_sval _ _ _ _ Hev1 Hx1) in Hgx.
        split; [done|]. split; [done|]. split; [done|]. split; [done|].
        intros Ha. apply Hcx. destruct Hev1 as (_ & _ & _ & Ha1 & _). by rewrite Ha1.
Qed.

(** *** The Forwards slider *)

Lemma forward_pairs c : c ∈ forward_channels → (c, complement_of c) ∈ motor_pairs.
Proof.
  unfold forward_channels. rewrite !elem_of_cons, elem_of_nil.
  intros H. repeat (destruct H as [->|H]; [in_list|]). done.
Qed.

Lemma sideways_pairs c : c ∈ sideways_channels → (c, complement_of c) ∈ motor_pairs.
Proof.
  unfold sideways_channels. rewrite !elem_of_cons, elem_of_nil.
  intros H. repeat (destruct H as [->|H]; [in_list|]). done.
Qed.

(** The slot of the Forwards slider. *)
Lemma forwards_slot n w :
  wf w →
  ∃ w', forwards (valueChanged (S (S n))) w = Done tt w'
    ∧ wf w'
    ∧ evolves (forward_channels ++ (complement_of <$> forward_channels)) w w'
    ∧ ∀ c, c ∈ forward_channels →
        gval w' (complement_of c) = 0
        ∧ gval w' c =
            (if decide (shown w c (complement_of c) = sval w "Forwards")
             then sval w "Forwards"
             else clip (bounds_of c) (sval w "Forwards"))
        ∧ (alive (rpi w) = true →
           command c (sval w "Forwards") +:+ LF ∈ conn_sent (rpi w')).
Proof.
  intros Hwf.
  destruct (wf_slider w "Forwards" _ Hwf eq_refl) as (v & Ev & Hv). simpl in Hv.
  rewrite (sval_lookup _ _ _ Ev). simpl.
  assert (NoDup (forward_channels ++ (complement_of <$> forward_channels))) as Hnd.
  { apply (bool_decide_unpack _). by vm_compute. }
  destruct (clear_f_motors n forward_channels forward_channels w Hnd forward_pairs Hwf)
    as (w1 & E1 & Hwf1 & Hev1 & Hall1).
  destruct (show_motors (S n)
              (λ s, GPIO_set_value s v;; setValue (valueChanged (S (S n))) s v;;
                    rpi_send (command s v))
              (λ _, v) (MOMENTUM w1) forward_channels w1)
    as (w2 & E2 & Hwf2 & Hev2 & Hall2); try done.
  { apply forward_pairs. }
  { intros c Hc. destruct (Hall1 c Hc) as (? & ? & _). done. }
  exists w2. split; [|split; [done|split]].
  - unfold forwards. rewrite (bind_Done _ _ _ _ _ (slider_get_Done "Forwards" w _ Ev)).
    simpl. unfold clear_f. fold forward_channels.
    rewrite (bind_Done _ _ _ _ _ E1). exact E2.
  - eapply evolves_trans; eassumption.
  - intros c Hc. destruct (Hall1 c Hc) as (_ & _ & Hsh).
    destruct (Hall2 c Hc) as (Hg' & _ & _ & Hg & Hcmd).
    split; [done|]. split; [by rewrite Hg, Hsh|].
    intros Ha. apply Hcmd. destruct Hev1 as (_ & _ & _ & Ha1 & _). by rewrite Ha1.
Qed.

(** C5, refuted as stated: with the three Forward sliders at 100 (their
    channels hold the clipped 95), moving the Forwards slider to 100 stores
    100 in the channels; clipped into (-80, 95) it would be 95. *)
Lemma forwards_stores_unclipped :
  ∃ w',
    (operator_moves 3 "MS1F" 100;; operator_moves 3 "MS2F" 100;;
     operator_moves 3 "MS3F" 100;; operator_moves 3 "Forwards" 100)
      (World_init (connected [])) = Done tt w'
    ∧ gval w' "MS1F" = 100 ∧ gval w' "MS2F" = 100 ∧ gval w' "MS3F" = 100
    ∧ clip (bounds_of "MS1F") 100 = 95.
Proof. eexists. split; [vm_compute; reflexivity|]. vm_compute. done. Qed.

(** ** The momentum ramp *)

(** [sliders["Forwards"].setValue(0)], which runs the Forwards slot if the
    slider was not at 0. *)
Lemma reset_forwards n w :
  wf w →
  ∃ w1, setValue (valueChanged (S (S (S n)))) "Forwards" 0 w = Done tt w1
    ∧ wf w1
    ∧ evolves ("Forwards" :: forward_channels ++ (complement_of <$> forward_channels)) w w1
    ∧ sval w1 "Forwards" = 0.
Proof.
  intros Hwf.
  destruct (wf_slider w "Forwards" _ Hwf eq_refl) as (v & Ev & Hv). simpl in Hv.
  destruct (decide (v = 0)) as [->|Hnz].
  - exists w. split; [by apply (setValue_same _ "Forwards" 0 w _ Ev)|].
    split; [done|]. split; [apply evolves_refl|]. by rewrite (sval_lookup _ _ _ Ev).
  - rewrite (setValue_changed _ "Forwards" 0 w _ Ev) by done.
    change (valueChanged (S (S (S n))) "Forwards") with (forwards (valueChanged (S (S n)))).
    set (w0 := slider_store "Forwards" _ w).
    assert (wf w0) as Hwf0.
    { apply wf_slider_store; [done|]. intros q Hq. rewrite Ev in Hq.
      injection Hq as <-. done. }
    assert (sval w0 "Forwards" = 0) as Hs0.
    { apply sval_slider_store_eq. by rewrite Ev. }
    destruct (forwards_slot n w0 Hwf0) as (w1 & E1 & Hwf1 & Hev1 & _).
    exists w1. split; [done|]. split; [done|]. split.
    + eapply evolves_trans; [apply evolves_slider_store; in_list|].
      eapply evolves_weaken; [|exact Hev1].
      intros k Hk. apply elem_of_cons. by right.
    + rewrite (evolves_sval _ _ _ "Forwards" Hev1); [done|].
      vm_compute. intros H. repeat (inversion H as [|? ? ? H']; subst; clear H; rename H' into H).
Qed.

Section ramp_facts.
Variable pow : float → float → float.

(** One press of a ramp button. *)
Lemma go_step (d : side) (n : nat) (w : World) :
  wf w →
  (∀ c, c ∈ sideways_channels →
     ramp_ok pow d (MOMENTUM w + momentum_step)%float c) →
  ∃ w', go pow d (S (S (S n))) w = Done tt w'
    ∧ wf w'
    ∧ MOMENTUM w' = (MOMENTUM w + momentum_step)%float
    ∧ sval w' "Forwards" = 0
    ∧ ∀ c, c ∈ sideways_channels →
        gval w' (complement_of c) = 0
        ∧ ramp_value pow (MOMENTUM w') (ramp_bound_of d c) = Ok (gval w' c).
Proof.
  intros Hwf Hok.
  set (m := (MOMENTUM w + momentum_step)%float) in *.
  set (w0 := add_momentum w).
  assert (wf w0) as Hwf0 by done.
  destruct (reset_forwards n w0 Hwf0) as (w1 & E1 & Hwf1 & Hev1 & Hs1).
  assert (MOMENTUM w1 = m) as Hm1 by (destruct Hev1 as (_ & _ & -> & _); done).
  assert (NoDup (sideways_channels ++ (complement_of <$> sideways_channels))) as Hnd.
  { apply (bool_decide_unpack _). by vm_compute. }
  destruct (clear_f_motors (S n) sideways_channels sideways_channels w1 Hnd sideways_pairs Hwf1)
    as (w2 & E2 & Hwf2 & Hev2 & Hall2).
  assert (MOMENTUM w2 = m) as Hm2 by (destruct Hev2 as (_ & _ & -> & _); done).
  set (val := λ c, match ramp_value pow m (ramp_bound_of d c) with
                   | Ok v => v
                   | Err _ => 0
                   end).
  assert (∀ c, c ∈ sideways_channels →
            ramp_value pow m (ramp_bound_of d c) = Ok (val c)
            ∧ (bounds_of c).1 ≤ val c ≤ (bounds_of c).2) as Hval.
  { intros c Hc. destruct (Hok c Hc) as (v & Ev & Hv). unfold val. rewrite Ev. done. }
  destruct (show_motors (S (S n))
              (λ s, ch ← GPIO_get s;
                    w ← get;
                    v ← lift (ramp_value pow (MOMENTUM w) (ramp_bound d ch));
                    GPIO_set_value s v;;
                    setValue (valueChanged (S (S (S n)))) s v;;
                    rpi_send (command s v))
              val m sideways_channels w2)
    as (w3 & E3 & Hwf3 & Hev3 & Hall3); try done.
  { intros c wx Hc Hwfx Hmx.
    pose proof (sideways_pairs c Hc) as Hp.
    destruct (motor_state wx c _ Hp Hwfx) as (ch0 & _ & Eb & _ & _ & _ & Eg & _).
    rewrite (bind_Done _ _ _ _ _ (GPIO_get_Done c wx _ Eg)). rewrite bind_get.
    assert (ramp_bound d (with_value (gval wx c) ch0) = ramp_bound_of d c) as ->.
    { unfold ramp_bound, ramp_bound_of. rewrite Eb. by destruct d. }
    rewrite Hmx. destruct (Hval c Hc) as (-> & _). done. }
  { apply sideways_pairs. }
  { intros c Hc. destruct (Hval c Hc) as (_ & Hv).
    pose proof (sideways_pairs c Hc) as Hp.
    destruct (motor_state w c _ Hp Hwf) as (ch0 & _ & Eb & _ & Hlo & Hhi & _).
    rewrite Eb in Hv. lia. }
  { intros c Hc. destruct (Hall2 c Hc) as (? & ? & _). done. }
  assert (MOMENTUM w3 = m) as Hm3 by (destruct Hev3 as (_ & _ & -> & _); done).
  exists w3. split; [|split; [done|split; [done|split]]].
  - unfold go. rewrite bind_modify. fold w0.
    rewrite (bind_Done _ _ _ _ _ E1). unfold clear_f. fold sideways_channels.
    rewrite (bind_Done _ _ _ _ _ E2). exact E3.
  - rewrite (evolves_sval _ _ _ "Forwards" Hev3), (evolves_sval _ _ _ "Forwards" Hev2);
      [done|..];
      vm_compute; intros H;
      repeat (inversion H as [|? ? ? H']; subst; clear H; rename H' into H).
  - intros c Hc. destruct (Hall3 c Hc) as (Hg' & _ & _ & Hg & _).
    destruct (Hval c Hc) as (Ev & Hv).
    split; [done|]. rewrite Hm3, Ev. f_equal. rewrite Hg.
    destruct (decide _); [done|]. symmetry. by apply clip_id.
Qed.



End ramp_facts.



Section ramp_theorem.
Variable pow : float → float → float.


End ramp_theorem.



(** ** Single-channel set: the operator moves a Motor channel's slider *)

(** Moving the slider of a Motor channel [c] to a new value [v] of its range
    runs the channel's slot: the complement ends at 0, and the channel holds
    the clipped value its slider shows when the slot reads it. That is [v]
    if the complement's slider showed 0; otherwise the complement's slot,
    run from within [clear_f], has reset the channel's slider to 0, and the
    channel holds 0. *)
Lemma operator_moves_motor (n : nat) (c c' : string) (v : Z) (w : World) :
  (c, c') ∈ motor_pairs → wf w → -100 ≤ v ≤ 100 → sval w c ≠ v →
  ∃ w', operator_moves (S (S (S n))) c v w = Done tt w'
    ∧ wf w'
    ∧ gval w' c' = 0
    ∧ sval w' c = (if decide (sval w c' ≠ 0 ∧ v ≠ 0) then 0 else v)
    ∧ gval w' c = clip (bounds_of c) (if decide (sval w c' ≠ 0 ∧ v ≠ 0) then 0 else v).
Proof.
  intros Hp Hwf Hv Hdiff.
  destruct (motor_pair_facts c c' Hp) as (_ & Hne & _).
  destruct (motor_state w c c' Hp Hwf) as (ch0 & _ & _ & _ & _ & _ & _ & Es & _).
  unfold operator_moves.
  rewrite (QAbstractSlider_setValue_changed _ c v w _ Es) by (simpl; by rewrite qBound_id).
  rewrite qBound_id by done.
  set (w0 := slider_store c v w).
  assert (wf w0) as Hwf0.
  { apply wf_slider_store; [done|]. intros q Hq. rewrite Es in Hq.
    injection Hq as <-. done. }
  destruct (motor_slot n c c' w0 Hp Hwf0) as (w1 & E1 & (Hwf1 & _ & Hg' & _ & Hsh) & Hg).
  assert (shown w0 c c' = if decide (sval w c' ≠ 0 ∧ v ≠ 0) then 0 else v) as Hshown.
  { unfold shown, w0. rewrite sval_slider_store_ne by done.
    rewrite sval_slider_store_eq by (by rewrite Es). done. }
  exists w1. rewrite Hshown in Hsh, Hg. done.
Qed.

(** C1 at the failing input: with the MS1F slider moved to 50 (MS1F holds
    50), moving the MS1S slider to 30 leaves 0 in MS1F, and 0, not 30, in
    MS1S, whose slider is back at 0. *)
Lemma sideways_value_is_lost :
  ∃ w1 w2,
    operator_moves 3 "MS1F" 50 (World_init (connected [])) = Done tt w1
    ∧ gval w1 "MS1F" = 50 ∧ gval w1 "MS1S" = 0
    ∧ operator_moves 3 "MS1S" 30 w1 = Done tt w2
    ∧ gval w2 "MS1F" = 0 ∧ gval w2 "MS1S" = 0 ∧ sval w2 "MS1S" = 0
    ∧ clip (bounds_of "MS1S") 30 = 30.
Proof.
  eexists. eexists. split; [vm_compute; reflexivity|].
  split; [vm_compute; reflexivity|]. split; [vm_compute; reflexivity|].
  split; [vm_compute; reflexivity|]. vm_compute. done.
Qed.

Lemma operator_moves_motor_witness :
  ∃ w', operator_moves 3 "MS1S" 30 (World_init (connected [])) = Done tt w'
    ∧ wf w'
    ∧ gval w' "MS1F" = 0
    ∧ sval w' "MS1S" =
        (if decide (sval (World_init (connected [])) "MS1F" ≠ 0 ∧ 30 ≠ 0) then 0 else 30)
    ∧ gval w' "MS1S" =
        clip (bounds_of "MS1S")
          (if decide (sval (World_init (connected [])) "MS1F" ≠ 0 ∧ 30 ≠ 0) then 0 else 30).
Proof.
  apply (operator_moves_motor 0 "MS1S" "MS1F" 30 (World_init (connected []))).
  - in_list.
  - apply wf_World_init.
  - lia.
  - vm_compute. discriminate.
Defined.

(** ** Single-channel set: what the slot does in every case *)

Lemma bind_Done_inv {S A B} (m : M S A) (k : A → M S B) s b s' :
  (m ≫= k) s = Done b s' → ∃ a s1, m s = Done a s1 ∧ k a s1 = Done b s'.
Proof.
  unfold mbind, M_bind, bind. destruct (m s) as [a s1| |]; [|done..]. eauto.
Qed.

Lemma slider_get_inv k w q w' :
  slider_get k w = Done q w' → w' = w ∧ sliders w !! k = Some q.
Proof.
  unfold slider_get. rewrite bind_get. destruct (sliders w !! k); [|done].
  by intros [= -> ->].
Qed.

Lemma GPIO_get_inv k w ch w' :
  GPIO_get k w = Done ch w' → w' = w ∧ GPIO w !! k = Some ch.
Proof.
  unfold GPIO_get. rewrite bind_get. destruct (GPIO w !! k); [|done].
  by intros [= -> ->].
Qed.

(** Whatever the deliveries nested in it did, a run of a Motor channel's slot
    that returns has, as its last two steps, sent the complement's zero
    command and then the channel's command with the value it stored. *)
Lemma slider_value_last_commands emit c c' w w' :
  (c, c') ∈ motor_pairs → wf w →
  slider_value emit c w = Done tt w' →
  alive (rpi w') = true →
  ∃ earlier, conn_sent (rpi w')
             = earlier ++ [command c' 0 +:+ LF; command c (gval w' c) +:+ LF].
Proof.
  intros Hp Hwf H Ha.
  pose proof (motor_pair_sym _ _ Hp) as Hp'.
  destruct (motor_pair_facts c c' Hp) as (Hsw & Hne & _).
  destruct (motor_state w c' c Hp' Hwf) as (ch0' & _ & _ & _ & _ & _ & Eg' & _).
  unfold slider_value, clear_f in H.
  apply bind_Done_inv in H as (r & wa & Hclear & H).
  simpl in Hclear. unfold lift at 1 in Hclear. rewrite Hsw in Hclear.
  unfold mbind at 1, M_bind at 1, bind at 1 in Hclear.
  rewrite bind_get, Eg' in Hclear.
  rewrite (bind_Done _ _ _ _ _ (GPIO_set_value_Done c' 0 w (mk_is_Some _ _ Eg'))) in Hclear.
  apply bind_Done_inv in Hclear as ([] & w1 & _ & Hclear).
  rewrite (bind_Done _ _ _ _ _ (rpi_send_Done _ w1)) in Hclear.
  injection Hclear as _ <-.
  apply bind_Done_inv in H as (q & wb & Hq & H).
  apply slider_get_inv in Hq as [-> Hq].
  apply bind_Done_inv in H as (v & wc & Hv & H).
  unfold bounds_check in Hv.
  apply bind_Done_inv in Hv as (ch & wd & Hch & Hv).
  apply GPIO_get_inv in Hch as [-> Hch].
  assert (wc = rpi_store (sent_on (command c' 0) (rpi w1)) w1) as ->.
  { destruct (bounds ch) as [lower upper].
    destruct (sl_value q <? lower); [by injection Hv|].
    destruct (sl_value q >? upper); by injection Hv. }
  rewrite (bind_Done _ _ _ _ _ (GPIO_set_value_Done c v _ (mk_is_Some _ _ Hch))) in H.
  rewrite rpi_send_Done in H. injection H as <-.
  rewrite gval_rpi_store, gval_GPIO_store_eq by (by rewrite Hch).
  simpl in Ha. rewrite alive_sent_on in Ha. simpl in Ha. rewrite alive_sent_on in Ha.
  exists (conn_sent (rpi w1)). simpl. rewrite conn_sent_sent_on. simpl.
  rewrite alive_sent_on, conn_sent_sent_on, Ha. by rewrite <- app_assoc.
Qed.

(** The slot of a Motor channel [c], as connected to its slider: it returns;
    the complement then holds 0 (so at most one channel of the pair is not
    0) and [c] holds the clipped value its slider shows; the complement's
    zero command was sent before the command of [c], both being the last
    ones sent. *)
Theorem single_set_clears_complement (n : nat) (c c' : string) (w : World) :
  (c, c') ∈ motor_pairs → wf w →
  ∃ w', valueChanged (S (S (S n))) c w = Done tt w'
    ∧ wf w'
    ∧ gval w' c' = 0
    ∧ gval w' c = clip (bounds_of c) (sval w' c)
    ∧ (alive (rpi w) = true →
       ∃ earlier, conn_sent (rpi w')
                  = earlier ++ [command c' 0 +:+ LF; command c (gval w' c) +:+ LF]).
Proof.
  intros Hp Hwf.
  destruct (motor_slot n c c' w Hp Hwf) as (w' & E & (Hwf' & Hev & Hg' & _ & Hsh) & Hg).
  exists w'. split; [exact E|]. split; [done|]. split; [done|].
  split; [by rewrite Hsh|]. intros Ha.
  destruct (motor_pair_facts c c' Hp) as (_ & _ & HF & HT & _).
  rewrite valueChanged_slider in E by done.
  apply (slider_value_last_commands _ c c' w w' Hp Hwf E).
  destruct Hev as (_ & _ & _ & -> & _). done.
Qed.

Lemma single_set_clears_complement_witness :
  ∃ w', valueChanged 3 "MS1F" (World_init (connected [])) = Done tt w'
    ∧ wf w'
    ∧ gval w' "MS1S" = 0
    ∧ gval w' "MS1F" = clip (bounds_of "MS1F") (sval w' "MS1F")
    ∧ (alive (rpi (World_init (connected []))) = true →
       ∃ earlier, conn_sent (rpi w')
                  = earlier ++ [command "MS1S" 0 +:+ LF;
                                command "MS1F" (gval w' "MS1F") +:+ LF]).
Proof.
  apply (single_set_clears_complement 0 "MS1F" "MS1S" (World_init (connected []))).
  - in_list.
  - apply wf_World_init.
Defined.
(** ** TelemetryFrameReader: whole runs *)

Lemma next_short (s : Stream) :
  closed (stream s) = false →
  (length (pending (stream s)) < 28)%nat →
  next s = Raise StopIteration
             {| stream := {| pending := []; closed := false |}; i := i s + 1 |}.
Proof.
  intros Hc Hl. unfold next. rewrite bind_modify.
  unfold mbind at 1, M_bind at 1, bind at 1, reraise.
  unfold mbind at 1, M_bind at 1, bind at 1, stream_read at 1, read. simpl.
  rewrite Hc. simpl. unfold lift.
  rewrite unpack_wrong_size.
  - simpl. rewrite drop_ge; [done|]. unfold calcsize_Lffffff. lia.
  - rewrite length_take. unfold calcsize_Lffffff. lia.
Qed.

Lemma next_closed (s : Stream) :
  closed (stream s) = true →
  next s = Raise StopIteration {| stream := stream s; i := i s + 1 |}.
Proof.
  intros Hc. unfold next. rewrite bind_modify.
  unfold mbind at 1, M_bind at 1, bind at 1, reraise.
  unfold mbind at 1, M_bind at 1, bind at 1, stream_read at 1, read. simpl.
  by rewrite Hc.
Qed.

Lemma iterate_frames (fs : list sent_frame) (tail : list Byte.byte) (fuel : nat) : ∀ s,
  closed (stream s) = false →
  pending (stream s) = wire fs ++ tail →
  Forall well_framed fs →
  (length tail < 28)%nat →
  iterate (S (length fs + fuel)) s
  = Done (numbered (i s) fs)
      {| stream := {| pending := []; closed := false |};
         i := i s + Z.of_nat (length fs) + 1 |}.
Proof.
  induction fs as [|[[header image] ag] fs IH]; intros s Hc Hp Hf Ht.
  - simpl in Hp. rewrite iterate_S, next_short by (rewrite ?Hp; done).
    simpl. do 2 f_equal. lia.
  - apply Forall_cons in Hf as [Hu Hf]. simpl in Hu.
    simpl in Hp. rewrite <- !app_assoc in Hp.
    change (S (length ((header, image, ag) :: fs) + fuel))
      with (S (S (length fs + fuel))).
    rewrite iterate_S.
    rewrite (next_with_header s header (image ++ wire fs ++ tail) _ ag Hc Hp Hu).
    rewrite Nat2Z.id, take_app_length, drop_app_length.
    rewrite IH by done. simpl. do 2 f_equal. lia.
Qed.

(** A stream that holds whole frames, each header announcing the length its
    image has, followed by less than one header: the loop yields every frame,
    in order, numbered on from the counter, with the image and the sample of
    its header; it ends at the incomplete rest, which is consumed, the counter
    having counted that last call as well. *)
Theorem complete_frames_are_yielded (s : Stream) (fs : list sent_frame)
    (tail : list Byte.byte) (fuel : nat) :
  closed (stream s) = false →
  pending (stream s) = wire fs ++ tail →
  Forall well_framed fs →
  (length tail < 28)%nat →
  ∃ s', iterate (S (length fs + fuel)) s = Done (numbered (i s) fs) s'
    ∧ length (numbered (i s) fs) = length fs
    ∧ i s' = i s + Z.of_nat (length fs) + 1
    ∧ pending (stream s') = [].
Proof.
  intros Hc Hp Hf Ht. eexists. split; [by apply (iterate_frames fs tail)|].
  split; [|done].
  generalize (i s). clear. induction fs as [|[[h im] ag] fs IH]; intros k; simpl; [done|].
  by rewrite IH.
Qed.

Lemma complete_frames_are_yielded_witness :
  ∃ s', iterate 3 (Stream_init {| pending := header_5 ++ ["h"; "e"; "l"; "l"; "o"]%byte
                                            ++ header_5 ++ ["w"; "o"; "r"; "l"; "d"]%byte
                                            ++ ["x"]%byte;
                                 closed := false |})
        = Done [(1, ["h"; "e"; "l"; "l"; "o"]%byte, (0, 0, 0, 1, 0, -1)%float);
                (2, ["w"; "o"; "r"; "l"; "d"]%byte, (0, 0, 0, 1, 0, -1)%float)] s'
    ∧ length [(1, ["h"; "e"; "l"; "l"; "o"]%byte, (0, 0, 0, 1, 0, -1)%float);
              (2, ["w"; "o"; "r"; "l"; "d"]%byte, (0, 0, 0, 1, 0, -1)%float)] = 2%nat
    ∧ i s' = 0 + 2 + 1
    ∧ pending (stream s') = [].
Proof.
  apply (complete_frames_are_yielded
           (Stream_init {| pending := header_5 ++ ["h"; "e"; "l"; "l"; "o"]%byte
                                      ++ header_5 ++ ["w"; "o"; "r"; "l"; "d"]%byte
                                      ++ ["x"]%byte;
                           closed := false |})
           [(header_5, ["h"; "e"; "l"; "l"; "o"]%byte, (0, 0, 0, 1, 0, -1)%float);
            (header_5, ["w"; "o"; "r"; "l"; "d"]%byte, (0, 0, 0, 1, 0, -1)%float)]
           ["x"]%byte 0).
  - reflexivity.
  - reflexivity.
  - repeat constructor; vm_compute; reflexivity.
  - simpl. lia.
Defined.

Lemma disconnect_closes (sd : bool) (n : Net) :
  ∃ n', disconnect sd n = Done tt n'
    ∧ pending (streamfile n') = pending (streamfile n)
    ∧ closed (streamfile n') = true
    ∧ server_socket_closed n' = true
    ∧ alive n' = (if sd then false else alive n)
    ∧ conn_sent n' = conn_sent n ++ (if sd && alive n then ["sd" +:+ LF] else []).
Proof.
  unfold disconnect. destruct sd.
  - eexists. split.
    + erewrite bind_Done; [|erewrite bind_Done; [|by apply send_sent_on]; reflexivity].
      reflexivity.
    + simpl. rewrite conn_sent_sent_on. unfold sent_on. by destruct (alive n).
  - eexists. split; [reflexivity|]. simpl. by rewrite app_nil_r.
Qed.

(** Once [Server.disconnect] has run, with either flag, the stream file is
    closed: a loop over [Stream(server.streamfile)] ends at its first call
    with no item, whatever bytes were still pending, and reads none of
    them. *)
Theorem closed_stream_yields_nothing (sd : bool) (n : Net) (fuel : nat) :
  ∃ n', disconnect sd n = Done tt n'
    ∧ pending (streamfile n') = pending (streamfile n)
    ∧ iterate (S fuel) (Stream_init (streamfile n'))
      = Done [] {| stream := streamfile n'; i := 1 |}.
Proof.
  destruct (disconnect_closes sd n) as (n' & E & Hp & Hc & _).
  exists n'. split; [done|]. split; [done|].
  rewrite iterate_S, next_closed by done. done.
Qed.

(** ** OrientationEstimator: what a sample contributes *)

Lemma process_all_app (xs ys : list (float * float * agdata)) : ∀ g,
  process_all (xs ++ ys) g
  = match process_all xs g with
    | Done _ g' => process_all ys g'
    | r => r
    end.
Proof.
  induction xs as [|[[now1 now2] [[[[[ax ay] az] gx] gy] gz]] xs IH]; intros g; [done|].
  change (process_all (((now1, now2, (ax, ay, az, gx, gy, gz)) :: xs) ++ ys) g)
    with ((process_ag2 now1 now2 (ax, ay, az, gx, gy, gz);; process_all (xs ++ ys)) g).
  change (process_all ((now1, now2, (ax, ay, az, gx, gy, gz)) :: xs) g)
    with ((process_ag2 now1 now2 (ax, ay, az, gx, gy, gz);; process_all xs) g).
  rewrite !(bind_Done _ _ _ _ _ (process_ag2_reports g now1 now2 ax ay az gx gy gz)).
  apply IH.
Qed.

(** The three accelerations of a sample are unpacked and never used: two runs
    whose samples agree in their clock readings and angular rates leave the
    same timestamp, the same state and the same paintings. *)
Theorem accelerations_are_ignored (xs ys : list (float * float * agdata)) (g : Gyro) :
  rates <$> xs = rates <$> ys →
  process_all xs g = process_all ys g.
Proof.
  revert ys g.
  induction xs as [|[[now1 now2] [[[[[ax ay] az] gx] gy] gz]] xs IH];
    intros [|[[now1' now2'] [[[[[ax' ay'] az'] gx'] gy'] gz']] ys] g E; try done.
  simpl in E. injection E as -> -> -> -> -> E.
  change ((process_ag2 now1' now2' (ax, ay, az, gx', gy', gz');; process_all xs) g
          = (process_ag2 now1' now2' (ax', ay', az', gx', gy', gz');; process_all ys) g).
  rewrite !(bind_Done _ _ _ _ _ (process_ag2_reports _ _ _ _ _ _ _ _ _)).
  by apply IH.
Qed.

Lemma accelerations_are_ignored_witness :
  process_all [(1000, 1001, (9, 8, 7, 1, 0, 0))%float; (1002, 1003, (1, 2, 3, 0, 1, 0))%float]
    Gyro_init
  = process_all [(1000, 1001, (0, 0, 0, 1, 0, 0))%float; (1002, 1003, (0, 0, 0, 0, 1, 0))%float]
    Gyro_init.
Proof.
  apply (accelerations_are_ignored
           [(1000, 1001, (9, 8, 7, 1, 0, 0))%float; (1002, 1003, (1, 2, 3, 0, 1, 0))%float]
           [(1000, 1001, (0, 0, 0, 1, 0, 0))%float; (1002, 1003, (0, 0, 0, 0, 1, 0))%float]
           Gyro_init).
  reflexivity.
Defined.

(** The interval a sample is integrated over runs from the second clock
    reading of the sample before it (taken after that one was painted) to its
    own first reading; the time spent painting is left out, and the timestamp
    kept is the sample's own second reading. *)
Theorem interval_starts_after_previous_paint
    (earlier : list (float * float * agdata)) (g : Gyro)
    (a1 a2 b1 b2 : float) (ag : agdata) (ax ay az gx gy gz : float) :
  ∃ g', process_all (earlier ++ [(a1, a2, ag); (b1, b2, (ax, ay, az, gx, gy, gz))]) g
        = Done tt g'
    ∧ sim_state g' = Rotation (gx * (b1 - a2)) (gy * (b1 - a2)) (gz * (b1 - a2))
    ∧ last (painted g') = Some (sim_state g')
    ∧ TIMESTAMP g' = b2
    ∧ length (painted g') = (length (painted g) + length earlier + 2)%nat.
Proof.
  destruct (process_all_reports earlier g) as (g1 & E1 & L1).
  rewrite process_all_app, E1.
  destruct ag as [[[[[ax' ay'] az'] gx'] gy'] gz'].
  change (process_all [(a1, a2, (ax', ay', az', gx', gy', gz'));
                       (b1, b2, (ax, ay, az, gx, gy, gz))] g1)
    with ((process_ag2 a1 a2 (ax', ay', az', gx', gy', gz');;
           process_ag2 b1 b2 (ax, ay, az, gx, gy, gz);; mret tt) g1).
  rewrite (bind_Done _ _ _ _ _ (process_ag2_reports _ _ _ _ _ _ _ _ _)).
  rewrite (bind_Done _ _ _ _ _ (process_ag2_reports _ _ _ _ _ _ _ _ _)).
  eexists. split; [reflexivity|]. simpl.
  split; [done|]. split; [by rewrite last_snoc|]. split; [done|].
  rewrite !length_app. simpl. lia.
Qed.
(** ** ActuatorRegistry: the edges of [bounds_check] and [clear_f] *)

Lemma GPIO_get_Raise k w : GPIO w !! k = None → GPIO_get k w = Raise (KeyError k) w.
Proof. intros E. unfold GPIO_get. by rewrite bind_get, E. Qed.

Lemma key_in_table k : k ∈ GPIO_keys ↔ is_Some (GPIO_init !! k).
Proof.
  unfold GPIO_init, GPIO_keys. split.
  - intros H. apply list_elem_of_fmap in H as ([k' ch] & -> & H).
    exists ch. apply elem_of_list_to_map; [|done].
    apply (bool_decide_unpack _). by vm_compute.
  - intros [ch H]. apply elem_of_list_to_map_2 in H.
    apply list_elem_of_fmap. by exists (k, ch).
Qed.

Lemma wf_key w k : wf w → (k ∈ GPIO_keys ↔ is_Some (GPIO w !! k)).
Proof.
  intros Hwf. rewrite key_in_table. split.
  - intros [ch0 E]. destruct (wf_GPIO w k ch0 Hwf E) as (v & Ev). by eexists.
  - intros [ch E]. destruct (GPIO_init !! k) eqn:E0; [by eexists|].
    by rewrite (wf_GPIO_None w k Hwf E0) in E.
Qed.

(** [bounds_check] for a name that is no channel of the table (the Forwards
    and the Turn slider have none) raises [KeyError] and changes nothing. *)
Theorem bounds_check_unknown_channel (w : World) (c : string) (v : Z) :
  wf w → c ∉ GPIO_keys →
  bounds_check c v w = Raise (KeyError c) w.
Proof.
  intros Hwf Hc. unfold bounds_check.
  apply bind_Raise, GPIO_get_Raise.
  destruct (GPIO w !! c) eqn:E; [|done].
  exfalso. apply Hc. apply (wf_key w c Hwf). by eexists.
Qed.

Lemma bounds_check_unknown_channel_witness :
  bounds_check "Forwards" 40 (World_init (connected []))
  = Raise (KeyError "Forwards") (World_init (connected [])).
Proof.
  apply (bounds_check_unknown_channel (World_init (connected [])) "Forwards" 40).
  - apply wf_World_init.
  - vm_compute. intros H. repeat (apply elem_of_cons in H as [H|H]; [discriminate H|]).
    by apply elem_of_nil in H.
Defined.

Lemma clip_idempotent b v : b.1 ≤ b.2 → clip b (clip b v) = clip b v.
Proof.
  intros Hb. unfold clip.
  destruct (Z.ltb_spec v b.1) as [H1|H1].
  - rewrite Z.ltb_irrefl. by destruct (Z.gtb_spec b.1 b.2); [lia|].
  - destruct (Z.gtb_spec v b.2) as [H2|H2].
    + destruct (Z.ltb_spec b.2 b.1); [lia|]. by destruct (Z.gtb_spec b.2 b.2); [lia|].
    + destruct (Z.ltb_spec v b.1); [lia|]. by destruct (Z.gtb_spec v b.2); [lia|].
Qed.

Lemma clip_monotone b v v' : b.1 ≤ b.2 → v ≤ v' → clip b v ≤ clip b v'.
Proof.
  intros Hb Hv. unfold clip.
  destruct (Z.ltb_spec v b.1), (Z.ltb_spec v' b.1),
           (Z.gtb_spec v b.2), (Z.gtb_spec v' b.2); lia.
Qed.

(** On a channel of the table [bounds_check] is idempotent and monotone:
    checking a checked value gives it back, and a larger request never gives
    a smaller result. *)
Theorem bounds_check_idempotent_monotone (w : World) (c : string) (v v' : Z) :
  wf w → c ∈ GPIO_keys → v ≤ v' →
  ∃ r r', bounds_check c v w = Done r w
    ∧ bounds_check c v' w = Done r' w
    ∧ r ≤ r'
    ∧ bounds_check c r w = Done r w.
Proof.
  intros Hwf Hc Hv.
  destruct (channel_facts c Hc) as (ch0 & E0 & Eb & _ & Hb & _).
  destruct (wf_GPIO w c ch0 Hwf E0) as (x & E).
  exists (clip (bounds ch0) v), (clip (bounds ch0) v').
  rewrite !(bounds_check_Done c _ w _ E). simpl.
  split; [done|]. split; [done|]. split; [apply clip_monotone; [lia|done]|].
  rewrite clip_idempotent; [done|lia].
Qed.

Lemma bounds_check_idempotent_monotone_witness :
  ∃ r r', bounds_check "MS1F" (-100) (World_init (connected [])) = Done r (World_init (connected []))
    ∧ bounds_check "MS1F" 50 (World_init (connected [])) = Done r' (World_init (connected []))
    ∧ r ≤ r'
    ∧ bounds_check "MS1F" r (World_init (connected [])) = Done r (World_init (connected [])).
Proof.
  apply (bounds_check_idempotent_monotone (World_init (connected [])) "MS1F" (-100) 50).
  - apply wf_World_init.
  - in_list.
  - lia.
Defined.

Lemma swap_suffix_snoc (s : string) (a : ascii) :
  swap_suffix (s +:+ String a EmptyString)
  = Ok (s +:+ String (if Ascii.eqb a "S" then "F" else "S")%char EmptyString).
Proof.
  induction s as [|b s IH]; [done|].
  change (String b s +:+ String a EmptyString) with (String b (s +:+ String a EmptyString)).
  cbn [swap_suffix]. rewrite IH.
  destruct s; done.
Qed.

(** The name [clear_f] computes: a final S becomes F and any other final
    character becomes S, the rest of the name is kept; so the Forwards and
    Sideways names of a segment are exchanged, and the empty name has no last
    character to assign ([IndexError]). *)
Theorem swap_suffix_exchanges (s : string) :
  swap_suffix (s +:+ "F") = Ok (s +:+ "S")
  ∧ swap_suffix (s +:+ "S") = Ok (s +:+ "F")
  ∧ (∀ a : ascii, a ≠ "S"%char → swap_suffix (s +:+ String a EmptyString) = Ok (s +:+ "S"))
  ∧ swap_suffix EmptyString = Err IndexError.
Proof.
  split; [apply swap_suffix_snoc|]. split; [apply swap_suffix_snoc|]. split; [|done].
  intros a Ha. rewrite swap_suffix_snoc.
  destruct (Ascii.eqb_spec a "S"); done.
Qed.

(** [clear_f] returns at the first name whose complement is no channel, with
    [None] instead of the copy of its argument: for a Servo name nothing is
    changed, the names after it are not looked at, and a [for] loop over the
    result raises [TypeError]. *)
Theorem clear_f_stops_at_servo (emit : string → M World unit) (s : string)
    (rest : list string) (body : string → M World unit) (w : World) :
  wf w → s ∈ servos →
  clear_f emit (s :: rest) w = Done None w
  ∧ (r ← clear_f emit (s :: rest); for_in r body) w = Raise TypeError w.
Proof.
  intros Hwf Hs.
  destruct (servo_facts s Hs) as ((s' & Hsw & Hnone) & _).
  assert (clear_f emit (s :: rest) w = Done None w) as E.
  { unfold clear_f.
    apply (clear_f_loop_no_complement emit _ s s' rest w Hsw).
    by apply wf_GPIO_None. }
  split; [done|]. by rewrite (bind_Done _ _ _ _ _ E).
Qed.

Lemma clear_f_stops_at_servo_witness :
  clear_f (valueChanged 0) ["SJ1H"; "MS1F"] (World_init (connected []))
    = Done None (World_init (connected []))
  ∧ (r ← clear_f (valueChanged 0) ["SJ1H"; "MS1F"]; for_in r (λ _, mret tt))
      (World_init (connected []))
    = Raise TypeError (World_init (connected [])).
Proof.
  apply (clear_f_stops_at_servo (valueChanged 0) "SJ1H" ["MS1F"] (λ _, mret tt)
           (World_init (connected []))).
  - apply wf_World_init.
  - in_list.
Defined.
(** ** Servo channels: what is stored, shown and transmitted *)

Lemma conn_sent_sent_on_transmitted msg n :
  conn_sent (sent_on msg n) = conn_sent n ++ transmitted n [msg +:+ LF].
Proof. apply conn_sent_sent_on. Qed.

Lemma transmitted_app n l1 l2 : transmitted n (l1 ++ l2) = transmitted n l1 ++ transmitted n l2.
Proof. unfold transmitted. by destruct (alive n). Qed.

Lemma range_of_slider w s q :
  wf w → sliders w !! s = Some q → range_of s = (minimum q, maximum q).
Proof.
  intros (_ & Hs & _) Hq. unfold range_of.
  assert (with_sl_value 0 <$> panel_init !! s = Some (with_sl_value 0 q)) as E.
  { rewrite <- lookup_fmap, <- Hs, lookup_fmap, Hq. done. }
  destruct (panel_init !! s) as [q0|]; [|done].
  simpl in *. injection E as E1 E2. by rewrite E1, E2.
Qed.

(** The state the slot of a Servo channel leaves. *)
Lemma servo_slot_state emit s w :
  s ∈ servos → wf w →
  let v := clip (bounds_of s) (sval w s) in
  slider_value emit s w
  = Done tt (rpi_store (sent_on (command s v) (rpi w)) (GPIO_store s v w)).
Proof.
  intros Hs Hwf v.
  destruct (servo_facts s Hs) as ((s' & Hsw & Hnone) & _).
  destruct (servo_state w s Hs Hwf) as (ch0 & q0 & _ & Eb & _ & _ & Eg & Es & _).
  unfold slider_value, clear_f.
  erewrite bind_Done;
    [|apply (clear_f_loop_no_complement emit [s] s s' [] w Hsw);
      by apply wf_GPIO_None].
  rewrite (bind_Done _ _ _ _ _ (slider_get_Done s w _ Es)).
  rewrite (bind_Done _ _ _ _ _ (bounds_check_Done s _ w _ Eg)).
  rewrite (bind_Done _ _ _ _ _ (GPIO_set_value_Done s _ w (mk_is_Some _ _ Eg))).
  rewrite rpi_send_Done. unfold v. by rewrite Eb.
Qed.

(** [sliders[s].setValue(v)] on a Servo channel's slider, with what the slot
    transmits. *)
Lemma setValue_servo_lines n s v w :
  s ∈ servos → wf w → (range_of s).1 ≤ v ≤ (range_of s).2 →
  ∃ w', setValue (valueChanged (S n)) s v w = Done tt w'
    ∧ wf w' ∧ evolves [s] w w' ∧ sval w' s = v
    ∧ gval w' s = (if decide (sval w s = v) then gval w s else clip (bounds_of s) v)
    ∧ conn_sent (rpi w')
      = conn_sent (rpi w)
        ++ transmitted (rpi w)
             (if decide (sval w s = v) then []
              else [command s (clip (bounds_of s) v) +:+ LF]).
Proof.
  intros Hs Hwf Hrange.
  destruct (servo_facts s Hs) as (_ & HF & HT & _).
  destruct (servo_state w s Hs Hwf) as (ch0 & q0 & _ & Eb & _ & _ & Eg & Es & _).
  rewrite (range_of_slider w s _ Hwf Es) in Hrange. simpl in Hrange.
  destruct (decide (sval w s = v)) as [Hsame|Hdiff].
  - exists w. split; [|split; [done|split; [apply evolves_refl|]]].
    + apply (setValue_same _ s v w _ Es); [|exact (wf_fits w s _ v Hwf Es Hrange)].
      simpl. by rewrite qBound_id.
    + split; [done|]. split; [done|]. unfold transmitted.
      destruct (alive (rpi w)); by rewrite app_nil_r.
  - rewrite (setValue_changed _ s v w _ Es);
      [|simpl; by rewrite qBound_id|exact (wf_fits w s _ v Hwf Es Hrange)].
    rewrite qBound_id by done. rewrite valueChanged_slider by done.
    set (w0 := slider_store s v w).
    assert (sval w0 s = v) as Hs0.
    { apply sval_slider_store_eq. by rewrite Es. }
    assert (wf w0) as Hwf0.
    { apply wf_slider_store; [done|]. intros q Hq.
      rewrite Es in Hq. injection Hq as <-. done. }
    destruct (servo_slot (valueChanged n) s w0 Hs Hwf0) as (w1 & E1 & Hwf1 & Hev1 & Hsl1 & Hg1).
    exists w1. split; [done|]. split; [done|]. split; [|split; [|split]].
    + eapply evolves_trans; [|exact Hev1]. apply evolves_slider_store. in_list.
    + unfold sval. rewrite Hsl1. exact Hs0.
    + by rewrite Hg1, Hs0.
    + pose proof (servo_slot_state (valueChanged n) s w0 Hs Hwf0) as E1'.
      simpl in E1'. rewrite E1 in E1'. injection E1' as ->.
      simpl. rewrite conn_sent_sent_on_transmitted. by rewrite Hs0.
Qed.

(** A group setter's step on a Servo channel, with what it transmits. *)
Lemma show_servo_lines n s v w :
  s ∈ servos → wf w → (range_of s).1 ≤ v ≤ (range_of s).2 →
  ∃ w',
    (GPIO_set_value s v;; setValue (valueChanged (S n)) s v;; rpi_send (command s v)) w
    = Done tt w'
    ∧ wf w' ∧ evolves [s] w w' ∧ sval w' s = v
    ∧ gval w' s = (if decide (sval w s = v) then v else clip (bounds_of s) v)
    ∧ conn_sent (rpi w')
      = conn_sent (rpi w) ++ transmitted (rpi w) (step_lines s (sval w s) v).
Proof.
  intros Hs Hwf Hrange.
  destruct (servo_state w s Hs Hwf) as (ch0 & q0 & _ & Eb & _ & _ & Eg & Es & _).
  set (w0 := GPIO_store s v w).
  assert (wf w0) as Hwf0 by by apply wf_GPIO_store.
  assert (gval w0 s = v) as Hg0 by (apply gval_GPIO_store_eq; by rewrite Eg).
  destruct (setValue_servo_lines n s v w0 Hs Hwf0 Hrange)
    as (w1 & E1 & Hwf1 & Hev1 & Hs1 & Hg1 & Hl1).
  exists (rpi_store (sent_on (command s v) (rpi w1)) w1).
  split; [|split; [|split; [|split; [|split]]]].
  - rewrite (bind_Done _ _ _ _ _ (GPIO_set_value_Done s v w (mk_is_Some _ _ Eg))).
    rewrite (bind_Done _ _ _ _ _ E1). apply rpi_send_Done.
  - by apply wf_rpi_store.
  - eapply evolves_trans; [apply (evolves_GPIO_store [s] s v); in_list|].
    eapply evolves_trans; [exact Hev1|]. apply evolves_sent.
  - by rewrite sval_rpi_store.
  - rewrite gval_rpi_store, Hg1, Hg0. done.
  - simpl. rewrite conn_sent_sent_on_transmitted, Hl1.
    destruct Hev1 as (_ & _ & _ & Ha1 & _).
    change (sval w0 s) with (sval w s). change (rpi w0) with (rpi w) in *.
    unfold step_lines. rewrite transmitted_app, <- app_assoc.
    unfold transmitted. by rewrite Ha1.
Qed.

Lemma joint_facts s :
  s ∈ joints → s ∈ servos ∧ range_of s = (-100, 100) ∧ range_of "Turn" = (-100, 100).
Proof.
  intros H. unfold joints in H. rewrite !elem_of_cons, elem_of_nil in H.
  destruct H as [->|[->|[]]]; (split; [in_list|done]).
Qed.

(** The slot of the Turn slider. Both joint channels get the slider's value
    [v] as it is: the command for [v] is transmitted unclipped, as the last
    line for the channel, and the table holds [v] where the channel's slider
    showed [v] already; where that slider moves, the channel's own slot has
    stored and transmitted the clipped value before. Nothing else in the table
    changes. *)
Theorem turn_sets_joints (n : nat) (w : World) :
  wf w →
  ∃ w', valueChanged (S (S n)) "Turn" w = Done tt w'
    ∧ (∀ s, s ∈ joints →
         sval w' s = sval w "Turn"
         ∧ gval w' s = (if decide (sval w s = sval w "Turn") then sval w "Turn"
                        else clip (bounds_of s) (sval w "Turn")))
    ∧ (∀ k, k ∉ joints → gval w' k = gval w k)
    ∧ conn_sent (rpi w')
      = conn_sent (rpi w)
        ++ transmitted (rpi w)
             (step_lines "SJ1H" (sval w "SJ1H") (sval w "Turn")
              ++ step_lines "SJ2H" (sval w "SJ2H") (sval w "Turn")).
Proof.
  intros Hwf.
  destruct (wf_slider w "Turn" _ Hwf eq_refl) as (v & Ev & Hv). simpl in Hv.
  assert (sval w "Turn" = v) as -> by by rewrite (sval_lookup _ _ _ Ev).
  change (valueChanged (S (S n)) "Turn") with (turn (valueChanged (S n))).
  unfold turn. rewrite (bind_Done _ _ _ _ _ (slider_get_Done "Turn" w _ Ev)). simpl.
  assert ("SJ1H" ∈ servos) as H1 by in_list.
  assert ("SJ2H" ∈ servos) as H2 by in_list.
  destruct (show_servo_lines n "SJ1H" v w H1 Hwf) as (w1 & E1 & Hwf1 & Hev1 & Hs1 & Hg1 & Hl1);
    [done|].
  destruct (show_servo_lines n "SJ2H" v w1 H2 Hwf1) as (w2 & E2 & Hwf2 & Hev2 & Hs2 & Hg2 & Hl2);
    [done|].
  assert (sval w1 "SJ2H" = sval w "SJ2H") as Es12
    by (apply (evolves_sval _ _ _ _ Hev1); by intros ?%list_elem_of_singleton).
  exists w2. split; [|split; [|split]].
  - rewrite (bind_Done _ _ _ _ _ E1). rewrite (bind_Done _ _ _ _ _ E2). done.
  - intros s Hs. unfold joints in Hs. rewrite !elem_of_cons, elem_of_nil in Hs.
    destruct Hs as [->|[->|[]]].
    + rewrite (evolves_sval _ _ _ _ Hev2), (evolves_gval _ _ _ _ Hev2)
        by (by intros ?%list_elem_of_singleton). done.
    + by rewrite Hs2, Hg2, Es12.
  - intros k Hk. unfold joints in Hk. rewrite !elem_of_cons, elem_of_nil in Hk.
    rewrite (evolves_gval _ _ _ _ Hev2), (evolves_gval _ _ _ _ Hev1);
      [done| |]; intros ?%list_elem_of_singleton; tauto.
  - rewrite Hl2, Hl1, Es12, transmitted_app, <- app_assoc.
    destruct Hev1 as (_ & _ & _ & Ha1 & _). unfold transmitted. by rewrite Ha1.
Qed.

Lemma turn_sets_joints_witness :
  ∃ w', valueChanged 2 "Turn" (World_init (connected [])) = Done tt w'
    ∧ (∀ s, s ∈ joints →
         sval w' s = sval (World_init (connected [])) "Turn"
         ∧ gval w' s = (if decide (sval (World_init (connected [])) s
                                   = sval (World_init (connected [])) "Turn")
                        then sval (World_init (connected [])) "Turn"
                        else clip (bounds_of s) (sval (World_init (connected [])) "Turn")))
    ∧ (∀ k, k ∉ joints → gval w' k = gval (World_init (connected [])) k)
    ∧ conn_sent (rpi w')
      = conn_sent (rpi (World_init (connected [])))
        ++ transmitted (rpi (World_init (connected [])))
             (step_lines "SJ1H" (sval (World_init (connected [])) "SJ1H")
                (sval (World_init (connected [])) "Turn")
              ++ step_lines "SJ2H" (sval (World_init (connected [])) "SJ2H")
                   (sval (World_init (connected [])) "Turn")).
Proof.
  apply (turn_sets_joints 0 (World_init (connected []))). apply wf_World_init.
Defined.

(** The operator moves the slider of a Servo channel to a new value [v] of
    the slider's range: the slider shows [v], which may lie outside the
    channel's bounds, while the table holds and the robot is sent [v] clipped
    to the bounds, in one line; no other channel changes. *)
Theorem operator_moves_servo (n : nat) (s : string) (v : Z) (w : World) :
  s ∈ servos → wf w → (range_of s).1 ≤ v ≤ (range_of s).2 → sval w s ≠ v →
  ∃ w', operator_moves (S n) s v w = Done tt w'
    ∧ wf w'
    ∧ sval w' s = v
    ∧ gval w' s = clip (bounds_of s) v
    ∧ (∀ k, k ≠ s → gval w' k = gval w k ∧ sval w' k = sval w k)
    ∧ conn_sent (rpi w')
      = conn_sent (rpi w) ++ transmitted (rpi w) [command s (clip (bounds_of s) v) +:+ LF].
Proof.
  intros Hs Hwf Hrange Hdiff.
  assert (c_int v = Ok v) as Hc.
  { destruct (servo_state w s Hs Hwf) as (ch0 & q0 & _ & _ & _ & _ & _ & Es & _).
    pose proof Hrange as Hr. rewrite (range_of_slider w s _ Hwf Es) in Hr.
    exact (wf_fits w s _ v Hwf Es Hr). }
  destruct (setValue_servo_lines n s v w Hs Hwf Hrange)
    as (w1 & E1 & Hwf1 & Hev1 & Hs1 & Hg1 & Hl1).
  rewrite (setValue_fits _ s v w Hc) in E1.
  destruct (decide (sval w s = v)) as [|_]; [done|].
  exists w1. split; [done|]. split; [done|]. split; [done|]. split; [done|].
  split; [|done].
  intros k Hk.
  rewrite (evolves_gval _ _ _ _ Hev1), (evolves_sval _ _ _ _ Hev1);
    [done| |]; by intros ?%list_elem_of_singleton.
Qed.

Lemma operator_moves_servo_witness :
  ∃ w', operator_moves 1 "SN1H" 100 (World_init (connected [])) = Done tt w'
    ∧ wf w'
    ∧ sval w' "SN1H" = 100
    ∧ gval w' "SN1H" = clip (bounds_of "SN1H") 100
    ∧ (∀ k, k ≠ "SN1H" → gval w' k = gval (World_init (connected [])) k
                          ∧ sval w' k = sval (World_init (connected [])) k)
    ∧ conn_sent (rpi w')
      = conn_sent (rpi (World_init (connected [])))
        ++ transmitted (rpi (World_init (connected [])))
             [command "SN1H" (clip (bounds_of "SN1H") 100) +:+ LF].
Proof.
  apply (operator_moves_servo 0 "SN1H" 100 (World_init (connected []))).
  - in_list.
  - apply wf_World_init.
  - vm_compute. split; discriminate.
  - vm_compute. discriminate.
Defined.
(** ** What every slot respects *)

Lemma wf_panel w k q :
  wf w → sliders w !! k = Some q → k ∈ panel_names ∧ minimum q ≤ maximum q.
Proof.
  intros (_ & Hs & Hr) Hq. split; [|specialize (Hr k q Hq); lia].
  assert (with_sl_value 0 <$> panel_init !! k = Some (with_sl_value 0 q)) as E.
  { rewrite <- lookup_fmap, <- Hs, lookup_fmap, Hq. done. }
  destruct (panel_init !! k) as [q0|] eqn:E0; [|done].
  apply elem_of_list_to_map_2 in E0.
  apply list_elem_of_fmap. by exists (k, q0).
Qed.

Lemma qBound_range q v : minimum q ≤ maximum q → minimum q ≤ qBound q v ≤ maximum q.
Proof. unfold qBound. lia. Qed.

Lemma command_zero s : s +:+ ":0" = command s 0.
Proof. done. Qed.

(** ** Every slot of the panel returns *)

Lemma panel_name_cases name :
  name ∈ panel_names →
  name = "Forwards" ∨ name = "Turn" ∨ name ∈ servos ∨ ∃ c', (name, c') ∈ motor_pairs.
Proof.
  intros H. unfold panel_names in H. simpl in H.
  rewrite !elem_of_cons, elem_of_nil in H.
  repeat (destruct H as [->|H];
          [first [by left | by right; left | by right; right; left; in_list
                 | right; right; right; eexists; in_list]|]).
  done.
Qed.

Lemma slot_returns n name w :
  name ∈ panel_names → wf w →
  ∃ w', valueChanged (S (S (S n))) name w = Done tt w' ∧ wf w'.
Proof.
  intros Hn Hwf.
  destruct (panel_name_cases name Hn) as [->|[->|[Hs|[c' Hp]]]].
  - destruct (forwards_slot n w Hwf) as (w' & E & Hwf' & _). by exists w'.
  - destruct (turn_slot (S n) w Hwf) as (w' & E & Hwf' & _). by exists w'.
  - destruct (servo_facts name Hs) as (_ & HF & HT & _).
    rewrite valueChanged_slider by done.
    destruct (servo_slot (valueChanged (S (S n))) name w Hs Hwf) as (w' & E & Hwf' & _).
    by exists w'.
  - destruct (motor_slot n name c' w Hp Hwf) as (w' & E & (Hwf' & _) & _). by exists w'.
Qed.

Section respects.

Variable R : World → World → Prop.
Hypothesis R_refl : ∀ w, R w w.
Hypothesis R_trans : ∀ w1 w2 w3, R w1 w2 → R w2 w3 → R w1 w3.
Hypothesis R_GPIO_store : ∀ k v w, R w (GPIO_store k v w).
Hypothesis R_slider_store : ∀ k v w, R w (slider_store k v w).
Hypothesis R_set_momentum : ∀ m w, R w (set_momentum m w).
Hypothesis R_sent :
  ∀ k v w, k ∈ GPIO_keys → R w (rpi_store (sent_on (command k v) (rpi w)) w).
Hypothesis R_disconnect :
  ∀ w n, disconnect true (rpi w) = Done tt n → R w (rpi_store n w).

Lemma respects_ret b {A} (a : A) : respects b R (mret a).
Proof. intros w Hwf. by split. Qed.

Lemma respects_raise b {A} e : respects b R (raise e : M World A).
Proof. intros w Hwf. by split. Qed.

Lemma respects_lift b {A} (r : result A) : respects b R (lift r).
Proof. intros w Hwf. unfold lift. destruct r; by split. Qed.

Lemma respects_get b : respects b R get.
Proof. intros w Hwf. by split. Qed.

Lemma respects_modify b (f : World → World) :
  (∀ w, wf w → wf (f w) ∧ R w (f w)) → respects b R (modify f).
Proof. intros Hf w Hwf. by apply Hf. Qed.

Lemma respects_bind b {A B} (m : M World A) (k : A → M World B) :
  respects b R m → (∀ a, respects b R (k a)) → respects b R (m ≫= k).
Proof.
  intros Hm Hk w Hwf. specialize (Hm w Hwf).
  unfold mbind at 1, M_bind at 1, bind at 1.
  destruct (m w) as [a w1|e w1|]; [|done|done].
  destruct Hm as [Hwf1 HR1]. specialize (Hk a w1 Hwf1).
  destruct (k a w1) as [c w2|e w2|]; [| |done]; destruct Hk; split; eauto.
Qed.

Lemma respects_GPIO_get b k : respects b R (GPIO_get k).
Proof.
  intros w Hwf. unfold GPIO_get. rewrite bind_get. by destruct (GPIO w !! k).
Qed.

Lemma respects_slider_get b k : respects b R (slider_get k).
Proof.
  intros w Hwf. unfold slider_get. rewrite bind_get. by destruct (sliders w !! k).
Qed.

Lemma respects_GPIO_set_value b k v : respects b R (GPIO_set_value k v).
Proof.
  apply respects_bind; [apply respects_GPIO_get|]. intros _.
  apply respects_modify. intros w Hwf. split; [by apply wf_GPIO_store|done].
Qed.

Lemma respects_bounds_check b k v : respects b R (bounds_check k v).
Proof.
  apply respects_bind; [apply respects_GPIO_get|]. intros ch.
  destruct (bounds ch) as [lower upper].
  destruct (v <? lower); [apply respects_ret|].
  destruct (v >? upper); apply respects_ret.
Qed.

Lemma respects_rpi_send b k v : k ∈ GPIO_keys → respects b R (rpi_send (command k v)).
Proof. intros Hk w Hwf. rewrite rpi_send_Done. split; [by apply wf_rpi_store|by apply R_sent]. Qed.

(** A slot that starts by looking a name up in the table goes on only if the
    name is a channel. *)
Lemma respects_GPIO_get_key b {B} k (f : Channel → M World B) :
  (k ∈ GPIO_keys → respects b R (GPIO_get k ≫= f)) → respects b R (GPIO_get k ≫= f).
Proof.
  intros H w Hwf. destruct (decide (k ∈ GPIO_keys)) as [Hk|Hk]; [by apply H|].
  rewrite (bind_Raise _ _ _ (KeyError k) w); [done|].
  apply GPIO_get_Raise. destruct (GPIO w !! k) eqn:E; [|done].
  exfalso. apply Hk, (wf_key w k Hwf). by eexists.
Qed.

Lemma respects_GPIO_set_value_key b {B} k v (f : unit → M World B) :
  (k ∈ GPIO_keys → respects b R (GPIO_set_value k v ≫= f)) →
  respects b R (GPIO_set_value k v ≫= f).
Proof.
  intros H w Hwf. destruct (decide (k ∈ GPIO_keys)) as [Hk|Hk]; [by apply H|].
  rewrite (bind_Raise _ _ _ (KeyError k) w); [done|].
  apply bind_Raise, GPIO_get_Raise. destruct (GPIO w !! k) eqn:E; [|done].
  exfalso. apply Hk, (wf_key w k Hwf). by eexists.
Qed.

Lemma respects_bounds_check_key b {B} k v (f : Z → M World B) :
  (k ∈ GPIO_keys → respects b R (bounds_check k v ≫= f)) →
  respects b R (bounds_check k v ≫= f).
Proof.
  intros H w Hwf. destruct (decide (k ∈ GPIO_keys)) as [Hk|Hk]; [by apply H|].
  rewrite (bind_Raise _ _ _ (KeyError k) w); [done|].
  apply bind_Raise, GPIO_get_Raise. destruct (GPIO w !! k) eqn:E; [|done].
  exfalso. apply Hk, (wf_key w k Hwf). by eexists.
Qed.

Lemma respects_for_each b (body : string → M World unit) l :
  (∀ s, respects b R (body s)) → respects b R (for_each body l).
Proof.
  intros Hb. induction l as [|s l IH]; [apply respects_ret|].
  apply respects_bind; [apply Hb|]. intros _. apply IH.
Qed.

Lemma respects_for_in b r (body : string → M World unit) :
  (∀ s, respects b R (body s)) → respects b R (for_in r body).
Proof.
  intros Hb. destruct r; [by apply respects_for_each|apply respects_raise].
Qed.

Section emit.

Variable b : bool.
Variable emit : string → M World unit.
Hypothesis respects_emit : ∀ k, k ∈ panel_names → respects b R (emit k).

Lemma respects_QAbstractSlider_setValue name v :
  respects b R (QAbstractSlider_setValue emit name v).
Proof.
  intros w Hwf. unfold QAbstractSlider_setValue.
  destruct (sliders w !! name) as [q|] eqn:Eq.
  - rewrite (bind_Done _ _ _ _ _ (slider_get_Done name w q Eq)). cbv zeta.
    destruct (decide (sl_value q = qBound q v)); [by split|].
    rewrite bind_modify.
    destruct (wf_panel w name q Hwf Eq) as [Hin Hq].
    assert (wf (slider_store name (qBound q v) w)) as Hwf1.
    { apply wf_slider_store; [done|]. intros q' Hq'. rewrite Eq in Hq'.
      injection Hq' as <-. by apply qBound_range. }
    pose proof (respects_emit name Hin _ Hwf1) as He.
    destruct (emit name _) as [a w2|e w2|]; [| |done]; destruct He; split; eauto.
  - rewrite (bind_Raise _ _ _ (KeyError name) w); [by split|].
    unfold slider_get. by rewrite bind_get, Eq.
Qed.

Lemma respects_setValue name v : respects b R (setValue emit name v).
Proof.
  unfold setValue.
  apply respects_bind; [apply respects_slider_get|]. intros _.
  apply respects_bind; [apply respects_lift|]. intros v'.
  apply respects_QAbstractSlider_setValue.
Qed.

Lemma respects_clear_f_loop r todo : respects b R (clear_f_loop emit r todo).
Proof.
  induction todo as [|s rest IH]; [apply respects_ret|].
  cbn [clear_f_loop].
  apply respects_bind; [apply respects_lift|]. intros s'.
  apply respects_bind; [apply respects_get|]. intros w0.
  destruct (GPIO w0 !! s'); [|apply respects_ret].
  apply respects_GPIO_set_value_key. intros Hk.
  apply respects_bind; [apply respects_GPIO_set_value|]. intros _.
  apply respects_bind; [apply respects_setValue|]. intros _.
  apply respects_bind; [by apply respects_rpi_send|]. intros _.
  apply IH.
Qed.

Lemma respects_slider_value name : respects b R (slider_value emit name).
Proof.
  unfold slider_value.
  apply respects_bind; [apply respects_clear_f_loop|]. intros _.
  apply respects_bind; [apply respects_slider_get|]. intros q.
  apply respects_bounds_check_key. intros Hk.
  apply respects_bind; [apply respects_bounds_check|]. intros v.
  apply respects_bind; [apply respects_GPIO_set_value|]. intros _.
  by apply respects_rpi_send.
Qed.

Lemma respects_show s v : respects b R (GPIO_set_value s v;; setValue emit s v;; rpi_send (command s v)).
Proof.
  apply respects_GPIO_set_value_key. intros Hk.
  apply respects_bind; [apply respects_GPIO_set_value|]. intros _.
  apply respects_bind; [apply respects_setValue|]. intros _.
  by apply respects_rpi_send.
Qed.

Lemma respects_forwards : respects b R (forwards emit).
Proof.
  unfold forwards.
  apply respects_bind; [apply respects_slider_get|]. intros q. cbv zeta.
  apply respects_bind; [apply respects_clear_f_loop|]. intros r.
  apply respects_for_in. intros s. apply respects_show.
Qed.

Lemma respects_turn : respects b R (turn emit).
Proof.
  unfold turn.
  apply respects_bind; [apply respects_slider_get|]. intros q. cbv zeta.
  apply respects_for_each. intros s. apply respects_show.
Qed.

End emit.

(** Whatever the bound, a slot that ends has respected [R]. *)
Lemma respects_valueChanged fuel : ∀ name, respects false R (valueChanged fuel name).
Proof.
  induction fuel as [|fuel IH]; intros name; [by intros w Hwf|].
  cbn [valueChanged].
  destruct (decide (name = "Forwards")); [by apply respects_forwards|].
  destruct (decide (name = "Turn")); [by apply respects_turn|].
  by apply respects_slider_value.
Qed.

Lemma respects_weaken {A} (m : M World A) : respects true R m → respects false R m.
Proof. intros H w Hwf. specialize (H w Hwf). by destruct (m w). Qed.

(** With three levels of nesting allowed, the slot of a slider of the panel
    ends. *)
Lemma respects_slot n name :
  name ∈ panel_names → respects true R (valueChanged (S (S (S n))) name).
Proof.
  intros Hn w Hwf.
  pose proof (respects_valueChanged (S (S (S n))) name w Hwf) as H.
  destruct (slot_returns n name w Hn Hwf) as (w' & E & _).
  by rewrite E in *.
Qed.

Lemma respects_safe_value n : respects true R (safe_value (S (S (S n)))).
Proof.
  unfold safe_value.
  apply respects_bind; [apply respects_setValue, respects_slot|]. intros _.
  apply respects_for_each. intros s.
  apply respects_GPIO_get_key. intros Hk.
  apply respects_bind; [apply respects_GPIO_get|]. intros ch.
  apply respects_bind; [apply respects_GPIO_set_value|]. intros _.
  apply respects_bind; [apply respects_GPIO_get|]. intros ch'.
  apply respects_bind; [apply respects_setValue, respects_slot|]. intros _.
  apply respects_bind; [apply respects_GPIO_get|]. intros ch''.
  by apply respects_rpi_send.
Qed.

Lemma respects_reset_to_zero l r n : respects true R (reset_to_zero l r (S (S (S n)))).
Proof.
  unfold reset_to_zero. destruct (l || r); [apply respects_ret|].
  apply respects_bind; [apply respects_modify; by split|]. intros _.
  apply respects_bind; [apply respects_setValue, respects_slot|]. intros _.
  apply respects_for_each. intros s.
  apply respects_GPIO_set_value_key. intros Hk.
  apply respects_bind; [apply respects_GPIO_set_value|]. intros _.
  apply respects_bind; [apply respects_GPIO_get|]. intros ch.
  apply respects_bind; [apply respects_setValue, respects_slot|]. intros _.
  rewrite command_zero. by apply respects_rpi_send.
Qed.

Lemma respects_go pow d n : respects true R (go pow d (S (S (S n)))).
Proof.
  unfold go.
  apply respects_bind; [apply respects_modify; intros w Hwf; split;
                        [by apply wf_add_momentum|apply R_set_momentum]|]. intros _.
  apply respects_bind; [apply respects_setValue, respects_slot|]. intros _.
  unfold clear_f.
  apply respects_bind; [apply respects_clear_f_loop; intros k Hk; by apply respects_slot|].
  intros r.
  apply respects_for_in. intros s.
  apply respects_GPIO_get_key. intros Hk.
  apply respects_bind; [apply respects_GPIO_get|]. intros ch.
  apply respects_bind; [apply respects_get|]. intros w0.
  apply respects_bind; [apply respects_lift|]. intros v.
  apply respects_bind; [apply respects_GPIO_set_value|]. intros _.
  apply respects_bind; [apply respects_setValue, respects_slot|]. intros _.
  by apply respects_rpi_send.
Qed.

Lemma respects_server_disconnect : respects true R (server_disconnect true).
Proof.
  intros w Hwf. unfold server_disconnect.
  destruct (disconnect_closes true (rpi w)) as (n' & E & _).
  rewrite E. split; [by apply wf_rpi_store|by apply R_disconnect].
Qed.

Lemma respects_handle pow n e : respects true R (handle pow (S (S (S n))) e).
Proof.
  destruct e as [name v| | |l r| |]; cbn [handle].
  - apply respects_QAbstractSlider_setValue, respects_slot.
  - exact (respects_go pow Left n).
  - exact (respects_go pow Right n).
  - apply respects_reset_to_zero.
  - apply respects_safe_value.
  - apply respects_server_disconnect.
Qed.

Lemma respects_run pow n es : respects true R (run pow (S (S (S n))) es).
Proof.
  induction es as [|e es IH]; [apply respects_ret|].
  apply respects_bind; [apply respects_handle|]. intros _. apply IH.
Qed.

Lemma respects_final {A} (m : M World A) w :
  respects true R m → wf w → ∃ w', final (m w) = Some w' ∧ wf w' ∧ R w w'.
Proof.
  intros H Hwf. specialize (H w Hwf).
  destruct (m w) as [a w'|e w'|]; [by exists w'|by exists w'|done].
Qed.

End respects.

(** ** Sessions *)

(** Whatever the operator does on the panel, in whatever order, every slot
    ends (returning or raising, for one slider too that the panel does not
    have) within three nested deliveries of [valueChanged], and the table is
    left with the channels, descriptions, safe values and bounds it started
    with, and every slider within its range; this for every [pow]. *)
Theorem events_keep_the_table (pow : float → float → float) (n : nat)
    (es : list event) (w : World) :
  wf w →
  ∃ w', final (run pow (S (S (S n))) es w) = Some w' ∧ wf w'.
Proof.
  intros Hwf.
  destruct (respects_final (λ _ _, True) (run pow (S (S (S n))) es) w) as (w' & E & Hwf' & _);
    [|done|by exists w'].
  by apply respects_run.
Qed.

Lemma events_keep_the_table_witness :
  ∃ w', final (run pow_first_press 3
                 [slider_moved "MS1F" 50; goLeft_pressed; slider_moved "Nose" 1;
                  safeValue_pressed]
                 (World_init (connected []))) = Some w'
    ∧ wf w'.
Proof.
  apply (events_keep_the_table pow_first_press 0
           [slider_moved "MS1F" 50; goLeft_pressed; slider_moved "Nose" 1;
            safeValue_pressed]
           (World_init (connected []))).
  apply wf_World_init.
Defined.

Lemma silent_refl w : silent w w.
Proof. by intros Ha. Qed.

Lemma silent_trans w1 w2 w3 : silent w1 w2 → silent w2 w3 → silent w1 w3.
Proof.
  intros H12 H23 Ha. destruct (H12 Ha) as [Ha2 E2]. destruct (H23 Ha2) as [Ha3 E3].
  split; [done|congruence].
Qed.

(** On a connection that is not alive (after powerOff, say) nothing the
    operator does transmits anything: every slot still ends, and what was
    handed to the connection is what it was. *)
Theorem dead_link_stays_silent (pow : float → float → float) (n : nat)
    (es : list event) (w : World) :
  wf w → alive (rpi w) = false →
  ∃ w', final (run pow (S (S (S n))) es w) = Some w'
    ∧ alive (rpi w') = false
    ∧ conn_sent (rpi w') = conn_sent (rpi w).
Proof.
  intros Hwf Ha.
  destruct (respects_final silent (run pow (S (S (S n))) es) w) as (w' & E & _ & HR);
    [|done|exists w'; split; [done|by apply HR]].
  apply respects_run.
  - apply silent_refl.
  - apply silent_trans.
  - by intros k v w0 Ha0.
  - by intros k v w0 Ha0.
  - by intros m w0 Ha0.
  - intros k v w0 _ Ha0. simpl. unfold sent_on. by rewrite Ha0.
  - intros w0 n0 E0 Ha0. simpl.
    destruct (disconnect_closes true (rpi w0)) as (n1 & E1 & _ & _ & _ & Ha1 & Hs1).
    rewrite E0 in E1. injection E1 as <-. rewrite Hs1, Ha0. simpl.
    by rewrite app_nil_r.
Qed.

Lemma dead_link_stays_silent_witness :
  ∃ w', final (run pow_first_press 3
                 [slider_moved "MS1F" 50; goRight_pressed; safeValue_pressed]
                 (World_init (set_alive false (connected [])))) = Some w'
    ∧ alive (rpi w') = false
    ∧ conn_sent (rpi w') = conn_sent (rpi (World_init (set_alive false (connected [])))).
Proof.
  apply (dead_link_stays_silent pow_first_press 0
           [slider_moved "MS1F" 50; goRight_pressed; safeValue_pressed]
           (World_init (set_alive false (connected [])))).
  - apply wf_World_init.
  - reflexivity.
Defined.

Lemma speaks_in_lines_refl w : speaks_in_lines w w.
Proof. exists []. by rewrite app_nil_r. Qed.

Lemma speaks_in_lines_trans w1 w2 w3 :
  speaks_in_lines w1 w2 → speaks_in_lines w2 w3 → speaks_in_lines w1 w3.
Proof.
  intros (o1 & E1 & H1) (o2 & E2 & H2). exists (o1 ++ o2).
  split; [by rewrite E2, E1, app_assoc|by apply Forall_app].
Qed.

(** Whatever the operator does, what is handed to the connection is made of
    whole lines of the wire format, each the shutdown line or the command
    [key:integer] for a key of the table, with its line feed. *)
Theorem only_wire_lines_are_sent (pow : float → float → float) (n : nat)
    (es : list event) (w : World) :
  wf w →
  ∃ w' out, final (run pow (S (S (S n))) es w) = Some w'
    ∧ conn_sent (rpi w') = conn_sent (rpi w) ++ out
    ∧ Forall wire_line out.
Proof.
  intros Hwf.
  destruct (respects_final speaks_in_lines (run pow (S (S (S n))) es) w)
    as (w' & E & _ & out & Hout & Hall); [|done|by exists w', out].
  apply respects_run.
  - apply speaks_in_lines_refl.
  - apply speaks_in_lines_trans.
  - intros k v w0. exists []. by rewrite app_nil_r.
  - intros k v w0. exists []. by rewrite app_nil_r.
  - intros m w0. exists []. by rewrite app_nil_r.
  - intros k v w0 Hk. eexists. split; [apply conn_sent_sent_on|].
    destruct (alive (rpi w0)); [|done].
    apply Forall_singleton. right. by exists k, v.
  - intros w0 n0 E0.
    destruct (disconnect_closes true (rpi w0)) as (n1 & E1 & _ & _ & _ & _ & Hs1).
    rewrite E0 in E1. injection E1 as <-. eexists. split; [exact Hs1|].
    destruct (alive (rpi w0)); [|done]. apply Forall_singleton. by left.
Qed.

Lemma only_wire_lines_are_sent_witness :
  ∃ w' out, final (run pow_first_press 3
                     [slider_moved "Turn" 100; goLeft_pressed; powerOff_pressed]
                     (World_init (connected []))) = Some w'
    ∧ conn_sent (rpi w') = conn_sent (rpi (World_init (connected []))) ++ out
    ∧ Forall wire_line out.
Proof.
  apply (only_wire_lines_are_sent pow_first_press 0
           [slider_moved "Turn" 100; goLeft_pressed; powerOff_pressed]
           (World_init (connected []))).
  apply wf_World_init.
Defined.
(** ** The Forwards/Sideways pairs under every event *)

Lemma final_bind_Done {S A B} (m : M S A) (k : A → M S B) s a s' :
  m s = Done a s' → final ((m ≫= k) s) = final (k a s').
Proof. intros E. by rewrite (bind_Done _ _ _ _ _ E). Qed.

Lemma final_bind_Raise {S A B} (m : M S A) (k : A → M S B) s e s' :
  m s = Raise e s' → final ((m ≫= k) s) = Some s'.
Proof. intros E. by rewrite (bind_Raise _ _ _ _ _ E). Qed.

Lemma motor_pair_function c c' a' :
  (c, c') ∈ motor_pairs → (c, a') ∈ motor_pairs → a' = c'.
Proof.
  intros H1 H2.
  destruct (motor_pair_facts _ _ H1) as (E1 & _).
  destruct (motor_pair_facts _ _ H2) as (E2 & _). congruence.
Qed.

Lemma motor_pair_touch c c' a a' :
  (c, c') ∈ motor_pairs → (a, a') ∈ motor_pairs →
  (a = c ∧ a' = c') ∨ (a = c' ∧ a' = c) ∨ ((a ∉ [c; c']) ∧ (a' ∉ [c; c'])).
Proof.
  intros Hc Ha.
  pose proof (motor_pair_sym _ _ Hc) as Hc'.
  pose proof (motor_pair_sym _ _ Ha) as Ha'.
  destruct (decide (a = c)) as [->|Hne1].
  { left. split; [done|]. by apply (motor_pair_function c). }
  destruct (decide (a = c')) as [->|Hne2].
  { right. left. split; [done|]. by apply (motor_pair_function c'). }
  right. right. rewrite !elem_of_cons, !elem_of_nil. split; [tauto|].
  intros [->|[->|[]]].
  - apply Hne2. by apply (motor_pair_function c).
  - apply Hne1. by apply (motor_pair_function c').
Qed.

Lemma motor_pair_motors c c' : (c, c') ∈ motor_pairs → c ∈ motors ∧ c' ∈ motors.
Proof.
  intros H. rewrite motors_eq. unfold motor_pairs in H.
  rewrite !elem_of_cons, elem_of_nil in H.
  repeat (destruct H as [[= -> ->]|H]; [split; in_list|]). done.
Qed.

Lemma motor_not_servo m :
  m ∈ motors → (m ∉ servos) ∧ (m ∉ joints) ∧ m ≠ "Forwards" ∧ m ≠ "Turn".
Proof.
  intros H. rewrite motors_eq in H. rewrite servos_eq. unfold joints.
  rewrite !elem_of_cons, elem_of_nil in *.
  intuition (subst; discriminate).
Qed.

Lemma group_pairs (l : list string) a a' :
  l = forward_channels ∨ l = sideways_channels →
  (a, a') ∈ motor_pairs →
  (a ∈ l ∧ a' = complement_of a) ∨ (a' ∈ l ∧ a = complement_of a').
Proof.
  intros Hl H. unfold motor_pairs in H. rewrite !elem_of_cons, elem_of_nil in H.
  destruct Hl as [->| ->];
    repeat (destruct H as [[= -> ->]|H];
            [first [left; split; [by in_list|reflexivity] | right; split; [by in_list|reflexivity]]|]);
    done.
Qed.

Lemma exclusive_frame w w' :
  exclusive w → (∀ m, m ∈ motors → gval w' m = gval w m) → exclusive w'.
Proof.
  intros Hx Hf c c' Hp. destruct (motor_pair_motors c c' Hp) as [Hc Hc'].
  rewrite (Hf c Hc), (Hf c' Hc'). by apply Hx.
Qed.

Lemma exclusive_pair w w' c c' :
  exclusive w → (c, c') ∈ motor_pairs →
  gval w' c' = 0 → (∀ k, k ∉ [c; c'] → gval w' k = gval w k) → exclusive w'.
Proof.
  intros Hx Hp Hz Hf a a' Ha.
  destruct (motor_pair_touch c c' a a' Hp Ha) as [[-> ->]|[[-> ->]|[H1 H2]]].
  - by right.
  - by left.
  - rewrite (Hf a H1), (Hf a' H2). by apply Hx.
Qed.

Lemma exclusive_group (l : list string) w' :
  l = forward_channels ∨ l = sideways_channels →
  (∀ c, c ∈ l → gval w' (complement_of c) = 0) → exclusive w'.
Proof.
  intros Hl Hz a a' Ha.
  destruct (group_pairs l a a' Hl Ha) as [[H ->]|[H ->]]; [right|left]; by apply Hz.
Qed.

Lemma c_int_cases v : c_int v = Ok v ∨ c_int v = Err OverflowError.
Proof. unfold c_int. destruct (decide _); auto. Qed.

(** A group setter's step on a Motor channel whose complement was cleared,
    for any value that fits a C [int]: the complement stays cleared. *)
Lemma show_motor_any n c c' v w :
  (c, c') ∈ motor_pairs → wf w → gval w c' = 0 → sval w c' = 0 → c_int v = Ok v →
  ∃ w',
    (GPIO_set_value c v;; setValue (valueChanged (S n)) c v;; rpi_send (command c v)) w
    = Done tt w'
    ∧ wf w' ∧ evolves [c; c'] w w'
    ∧ gval w' c' = 0 ∧ sval w' c' = 0.
Proof.
  intros Hp Hwf Hg' Hs' Hc.
  destruct (motor_pair_facts c c' Hp) as (Hsw & Hne & HF & HT & _).
  destruct (motor_state w c c' Hp Hwf) as (ch0 & _ & Eb & _ & _ & _ & Eg & Es & Hr).
  set (w0 := GPIO_store c v w).
  assert (wf w0) as Hwf0 by by apply wf_GPIO_store.
  assert (∃ w1, setValue (valueChanged (S n)) c v w0 = Done tt w1
            ∧ wf w1 ∧ evolves [c; c'] w0 w1
            ∧ gval w1 c' = 0 ∧ sval w1 c' = 0)
    as (w1 & E1 & Hwf1 & Hev1 & Hg1' & Hs1').
  { set (q := {| sl_value := sval w c; minimum := -100; maximum := 100 |}) in *.
    destruct (decide (sl_value q = qBound q v)) as [Hsame|Hdiff].
    - exists w0. split; [by apply (setValue_same _ c v w0 _ Es)|].
      split; [done|]. split; [apply evolves_refl|].
      unfold w0. rewrite gval_GPIO_store_ne by done. done.
    - rewrite (setValue_changed _ c v w0 _ Es) by done.
      rewrite valueChanged_slider by done.
      set (w0' := slider_store c (qBound q v) w0).
      assert (wf w0') as Hwf0'.
      { apply wf_slider_store; [done|]. intros q' Hq'. simpl in Hq'.
        rewrite Es in Hq'. injection Hq' as <-. apply qBound_range. simpl. lia. }
      assert (sval w0' c' = 0) as Hz.
      { unfold w0'. rewrite sval_slider_store_ne by done. done. }
      destruct (slot_quiet (valueChanged n) c c' w0' Hp Hwf0' Hz)
        as (w1 & E1 & (Hwf1 & Hev1 & Hg1' & Hs1' & _) & _).
      exists w1. split; [done|]. split; [done|]. split; [|done].
      eapply evolves_trans; [|exact Hev1]. apply evolves_slider_store. in_list. }
  exists (rpi_store (sent_on (command c v) (rpi w1)) w1).
  split; [|split; [|split; [|split]]]; try done.
  - rewrite (bind_Done _ _ _ _ _ (GPIO_set_value_Done c v w (mk_is_Some _ _ Eg))).
    rewrite (bind_Done _ _ _ _ _ E1). apply rpi_send_Done.
  - eapply evolves_trans; [apply (evolves_GPIO_store [c; c'] c v); in_list|].
    eapply evolves_trans; [exact Hev1|]. apply evolves_sent.
Qed.

Lemma sideways_complement c c2 :
  c ∈ sideways_channels → c2 ∈ sideways_channels → c2 ≠ c →
  complement_of c2 ∉ [c; complement_of c].
Proof.
  unfold sideways_channels. rewrite !elem_of_cons, !elem_of_nil.
  intros [->|[->|[->|[]]]] [->|[->|[->|[]]]] Hne; try done;
    vm_compute; intros [E|[E|[]]]; discriminate.
Qed.

(** The loop of the ramp, however [pow] and [int] behave: it ends, and the
    complements stay cleared. *)
Lemma ramp_loop_final pow (d : side) n l : ∀ w,
  l ⊆ sideways_channels → wf w →
  (∀ c, c ∈ sideways_channels →
     gval w (complement_of c) = 0 ∧ sval w (complement_of c) = 0) →
  ∃ w',
    final (for_each (λ s,
             ch ← GPIO_get s;
             w ← get;
             v ← lift (ramp_value pow (MOMENTUM w) (ramp_bound d ch));
             GPIO_set_value s v;;
             setValue (valueChanged (S n)) s v;;
             rpi_send (command s v)) l w) = Some w'
    ∧ ∀ c, c ∈ sideways_channels → gval w' (complement_of c) = 0.
Proof.
  induction l as [|c l IH]; intros w Hl Hwf Hz.
  { exists w. split; [done|]. intros c Hc. by apply Hz. }
  assert (c ∈ sideways_channels) as Hc by (apply Hl; in_list).
  pose proof (sideways_pairs c Hc) as Hp.
  destruct (motor_state w c _ Hp Hwf) as (ch0 & _ & _ & _ & _ & _ & Eg & _).
  cbn [for_each].
  destruct (ramp_value pow (MOMENTUM w) (ramp_bound d (with_value (gval w c) ch0)))
    as [v|e] eqn:Ev.
  - destruct (c_int_cases v) as [Hfits|Hover]; cycle 1.
    { exists (GPIO_store c v w). split.
      - apply (final_bind_Raise _ _ _ OverflowError).
        rewrite (bind_Done _ _ _ _ _ (GPIO_get_Done c w _ Eg)). rewrite bind_get.
        rewrite Ev.
        change ((GPIO_set_value c v;; setValue (valueChanged (S n)) c v;;
                 rpi_send (command c v)) w = Raise OverflowError (GPIO_store c v w)).
        rewrite (bind_Done _ _ _ _ _ (GPIO_set_value_Done c v w (mk_is_Some _ _ Eg))).
        apply bind_Raise.
        destruct (motor_state w c _ Hp Hwf) as (_ & _ & _ & _ & _ & _ & _ & Es & _).
        by apply (setValue_overflow _ c v (GPIO_store c v w) _ Es).
      - intros c2 Hc2. rewrite gval_GPIO_store_ne; [by apply Hz|].
        destruct (decide (c2 = c)) as [->|Hne].
        + destruct (motor_pair_facts c _ Hp) as (_ & Hne & _). done.
        + pose proof (sideways_complement c c2 Hc Hc2 Hne) as Hn.
          intros ->. apply Hn. in_list. }
    destruct (Hz c Hc) as [Hg' Hs'].
    destruct (show_motor_any n c _ v w Hp Hwf Hg' Hs' Hfits)
      as (w1 & E1 & Hwf1 & Hev1 & Hg1 & Hs1).
    assert ((ch ← GPIO_get c;
             w ← get;
             v ← lift (ramp_value pow (MOMENTUM w) (ramp_bound d ch));
             GPIO_set_value c v;; setValue (valueChanged (S n)) c v;;
             rpi_send (command c v)) w = Done tt w1) as E.
    { rewrite (bind_Done _ _ _ _ _ (GPIO_get_Done c w _ Eg)). rewrite bind_get.
      rewrite Ev. exact E1. }
    rewrite (final_bind_Done _ _ _ _ _ E).
    apply IH; [|done|].
    + intros x Hx. apply Hl. by apply list_elem_of_further.
    + intros c2 Hc2. destruct (decide (c2 = c)) as [->|Hne]; [done|].
      rewrite (evolves_gval _ _ _ _ Hev1), (evolves_sval _ _ _ _ Hev1)
        by by apply sideways_complement.
      by apply Hz.
  - exists w. split; [|intros c2 Hc2; by apply Hz].
    apply (final_bind_Raise _ _ _ e).
    rewrite (bind_Done _ _ _ _ _ (GPIO_get_Done c w _ Eg)). rewrite bind_get.
    by rewrite Ev.
Qed.

Lemma go_final pow (d : side) n w :
  wf w →
  ∃ w', final (go pow d (S (S (S n))) w) = Some w'
    ∧ ∀ c, c ∈ sideways_channels → gval w' (complement_of c) = 0.
Proof.
  intros Hwf.
  set (w0 := add_momentum w).
  assert (wf w0) as Hwf0 by done.
  destruct (reset_forwards n w0 Hwf0) as (w1 & E1 & Hwf1 & Hev1 & Hs1).
  assert (NoDup (sideways_channels ++ (complement_of <$> sideways_channels))) as Hnd.
  { apply (bool_decide_unpack _). by vm_compute. }
  destruct (clear_f_motors (S n) sideways_channels sideways_channels w1 Hnd sideways_pairs Hwf1)
    as (w2 & E2 & Hwf2 & Hev2 & Hall2).
  destruct (ramp_loop_final pow d (S (S n)) sideways_channels w2) as (w3 & E3 & Hz3);
    [done|done| |].
  { intros c Hc. destruct (Hall2 c Hc) as (? & ? & _). done. }
  exists w3. split; [|done].
  unfold go. rewrite bind_modify. fold w0.
  rewrite (final_bind_Done _ _ _ _ _ E1). unfold clear_f. fold sideways_channels.
  rewrite (final_bind_Done _ _ _ _ _ E2). exact E3.
Qed.
(** ** What each event leaves *)

Lemma QAbstractSlider_setValue_Raise emit k v w :
  sliders w !! k = None → QAbstractSlider_setValue emit k v w = Raise (KeyError k) w.
Proof.
  intros E. unfold QAbstractSlider_setValue. apply bind_Raise.
  unfold slider_get. by rewrite bind_get, E.
Qed.

Lemma gval_evolves_motors ks w w' :
  evolves ks w w' → (∀ m, m ∈ motors → m ∉ ks) → ∀ m, m ∈ motors → gval w' m = gval w m.
Proof. intros Hev Hks m Hm. apply (evolves_gval _ _ _ _ Hev). by apply Hks. Qed.

(** The operator moves a slider the panel has. *)
Lemma moved_state n name v w :
  name ∈ panel_names → wf w →
  ∃ w', operator_moves (S (S (S n))) name v w = Done tt w'
    ∧ wf w'
    ∧ (w' = w
       ∨ (name = "Forwards" ∧ ∀ c, c ∈ forward_channels → gval w' (complement_of c) = 0)
       ∨ (name = "Turn" ∧ ∀ k, k ∉ joints → gval w' k = gval w k)
       ∨ (name ∈ servos
          ∧ gval w' name = clip (bounds_of name) (sval w' name)
          ∧ ∀ k, k ≠ name → gval w' k = gval w k)
       ∨ (∃ c', (name, c') ∈ motor_pairs
          ∧ gval w' c' = 0
          ∧ gval w' name = clip (bounds_of name) (sval w' name)
          ∧ ∀ k, k ∉ [name; c'] → gval w' k = gval w k)).
Proof.
  intros Hn Hwf. unfold operator_moves.
  assert (∃ q, sliders w !! name = Some q) as [q Eq].
  { unfold panel_names in Hn. apply list_elem_of_fmap in Hn as ([k q0] & -> & Hin).
    assert (panel_init !! k = Some q0) as E0.
    { apply elem_of_list_to_map; [|done]. apply (bool_decide_unpack _). by vm_compute. }
    destruct (wf_slider w k q0 Hwf E0) as (x & Ex & _). by eexists. }
  destruct (wf_panel w name q Hwf Eq) as [_ Hq].
  destruct (decide (sl_value q = qBound q v)) as [Hsame|Hdiff].
  { exists w. rewrite (QAbstractSlider_setValue_same _ name v w q Eq Hsame). auto. }
  rewrite (QAbstractSlider_setValue_changed _ name v w q Eq Hdiff).
  set (w0 := slider_store name (qBound q v) w).
  assert (wf w0) as Hwf0.
  { apply wf_slider_store; [done|]. intros q' Hq'. rewrite Eq in Hq'.
    injection Hq' as <-. by apply qBound_range. }
  assert (∀ k, gval w0 k = gval w k) as Hg0 by (intros k; apply gval_slider_store).
  destruct (panel_name_cases name Hn) as [->|[->|[Hs|[c' Hp]]]].
  - destruct (forwards_slot n w0 Hwf0) as (w1 & E1 & Hwf1 & _ & Hall).
    exists w1. split; [done|]. split; [done|]. right. left. split; [done|].
    intros c Hc. by destruct (Hall c Hc).
  - destruct (turn_slot (S n) w0 Hwf0) as (w1 & E1 & Hwf1 & Hev1).
    exists w1. split; [done|]. split; [done|]. right. right. left. split; [done|].
    intros k Hk. by rewrite (evolves_gval _ _ _ _ Hev1).
  - destruct (servo_facts name Hs) as (_ & HF & HT & _).
    rewrite valueChanged_slider by done.
    destruct (servo_slot (valueChanged (S (S n))) name w0 Hs Hwf0)
      as (w1 & E1 & Hwf1 & Hev1 & Hsl1 & Hg1).
    exists w1. split; [done|]. split; [done|]. right. right. right. left.
    split; [done|]. split.
    + rewrite Hg1. unfold sval. by rewrite Hsl1.
    + intros k Hk. rewrite (evolves_gval _ _ _ _ Hev1); [done|].
      by intros ?%list_elem_of_singleton.
  - destruct (motor_slot n name c' w0 Hp Hwf0)
      as (w1 & E1 & (Hwf1 & Hev1 & Hg1' & Hs1' & Hsh1) & Hg1).
    exists w1. split; [done|]. split; [done|]. right. right. right. right.
    exists c'. split; [done|]. split; [done|]. split.
    + by rewrite Hg1, Hsh1.
    + intros k Hk. by rewrite (evolves_gval _ _ _ _ Hev1).
Qed.

(** [safe_value]: the Servo channels hold their safe values, the Motor
    channels what they held. *)
Lemma safe_value_state n w :
  wf w →
  ∃ w', safe_value (S (S n)) w = Done tt w'
    ∧ wf w'
    ∧ (∀ s, s ∈ servos → gval w' s = safe_of s)
    ∧ (∀ m, m ∈ motors → gval w' m = gval w m).
Proof.
  intros Hwf.
  assert (∃ w1, setValue (valueChanged (S (S n))) "Turn" 0 w = Done tt w1
            ∧ wf w1 ∧ evolves ["Turn"; "SJ1H"; "SJ2H"] w w1) as (w1 & E1 & Hwf1 & Hev1).
  { destruct (wf_slider w "Turn" _ Hwf eq_refl) as (v & Ev & Hv). simpl in Hv.
    destruct (decide (v = 0)) as [->|Hnz].
    - exists w. split; [|split; [done|apply evolves_refl]].
      by apply (setValue_same _ "Turn" 0 w _ Ev).
    - rewrite (setValue_changed _ "Turn" 0 w _ Ev) by done.
      change (valueChanged (S (S n)) "Turn") with (turn (valueChanged (S n))).
      set (w0 := slider_store "Turn" _ w).
      assert (wf w0) as Hwf0.
      { apply wf_slider_store; [done|]. intros q Hq. rewrite Ev in Hq.
        injection Hq as <-. done. }
      destruct (turn_slot n w0 Hwf0) as (w1 & E1 & Hwf1 & Hev1).
      exists w1. split; [done|]. split; [done|].
      eapply evolves_trans; [apply evolves_slider_store; in_list|].
      eapply evolves_weaken; [|exact Hev1].
      intros k; rewrite ?elem_of_cons, ?elem_of_nil; tauto. }
  destruct (safe_value_loop (S n) servos w1) as (w2 & E2 & Hwf2 & Hev2 & Hall); [| |done|].
  { apply (bool_decide_unpack _). by vm_compute. }
  { done. }
  exists w2. split; [|split; [done|split]].
  - unfold safe_value. rewrite (bind_Done _ _ _ _ _ E1). exact E2.
  - intros s Hs. by destruct (Hall s Hs).
  - intros m Hm.
    rewrite (evolves_gval _ _ _ m Hev2), (evolves_gval _ _ _ m Hev1); [done|..];
      rewrite motors_eq in Hm; rewrite ?servos_eq;
      rewrite !elem_of_cons, elem_of_nil in *; intuition (subst; discriminate).
Qed.

Lemma motor_safe c c' : (c, c') ∈ motor_pairs → safe_of c = 0.
Proof.
  intros H. unfold motor_pairs in H. rewrite !elem_of_cons, elem_of_nil in H.
  repeat (destruct H as [[= -> ->]|H]; [reflexivity|]). done.
Qed.

(** One round of [reset_to_zero]'s loop. *)
Lemma reset_step n c c' w :
  (c, c') ∈ motor_pairs → wf w →
  ∃ w',
    (GPIO_set_value c 0;;
     ch ← GPIO_get c;
     setValue (valueChanged (S (S (S n)))) c (safe ch);;
     rpi_send (c +:+ ":0")) w = Done tt w'
    ∧ wf w' ∧ evolves [c; c'] w w'
    ∧ gval w' c = 0 ∧ sval w' c = 0
    ∧ ((gval w' c' = 0 ∧ sval w' c' = 0)
       ∨ (gval w' c' = gval w c' ∧ sval w' c' = sval w c'))
    ∧ (alive (rpi w) = true → command c 0 +:+ LF ∈ conn_sent (rpi w')).
Proof.
  intros Hp Hwf.
  destruct (motor_pair_facts c c' Hp) as (Hsw & Hne & HF & HT & _).
  destruct (motor_state w c c' Hp Hwf) as (ch0 & E0 & Eb & Hb0 & _ & _ & Eg & Es & Hr).
  assert (safe ch0 = 0) as Hsafe.
  { pose proof (motor_safe c c' Hp) as H. unfold safe_of in H. by rewrite E0 in H. }
  set (w0 := GPIO_store c 0 w).
  assert (wf w0) as Hwf0 by by apply wf_GPIO_store.
  assert (gval w0 c = 0) as Hg0 by (apply gval_GPIO_store_eq; by rewrite Eg).
  destruct (wf_GPIO w0 c ch0 Hwf0 E0) as (x0 & Eg0).
  assert (∃ w1, setValue (valueChanged (S (S (S n)))) c 0 w0 = Done tt w1
            ∧ wf w1 ∧ evolves [c; c'] w0 w1
            ∧ gval w1 c = 0 ∧ sval w1 c = 0
            ∧ ((gval w1 c' = 0 ∧ sval w1 c' = 0)
               ∨ (gval w1 c' = gval w c' ∧ sval w1 c' = sval w c')))
    as (w1 & E1 & Hwf1 & Hev1 & Hg1 & Hs1 & Hc1).
  { destruct (decide (sval w c = 0)) as [Hsame|Hdiff].
    - exists w0. split; [by apply (setValue_same _ c 0 w0 _ Es)|].
      split; [done|]. split; [apply evolves_refl|]. split; [done|]. split; [done|].
      right. unfold w0. rewrite gval_GPIO_store_ne by done. done.
    - rewrite (setValue_changed _ c 0 w0 _ Es) by done.
      change (qBound _ 0) with 0.
      set (w0' := slider_store c 0 w0).
      assert (wf w0') as Hwf0'.
      { apply wf_slider_store; [done|]. intros q Hq. simpl in Hq.
        rewrite Es in Hq. injection Hq as <-. done. }
      assert (sval w0' c = 0) as Hsv.
      { apply sval_slider_store_eq. simpl. by rewrite Es. }
      destruct (motor_slot n c c' w0' Hp Hwf0')
        as (w1 & E1 & (Hwf1 & Hev1 & Hg1' & Hs1' & Hsh1) & Hg1).
      assert (shown w0' c c' = 0) as Hsh.
      { unfold shown. by destruct (decide _). }
      rewrite Hsh in Hsh1, Hg1.
      exists w1. split; [done|]. split; [done|]. split; [|split; [|split; [done|by left]]].
      + eapply evolves_trans; [|exact Hev1]. apply evolves_slider_store. in_list.
      + rewrite Hg1, Eb. apply clip_id. lia. }
  exists (rpi_store (sent_on (command c 0) (rpi w1)) w1).
  split; [|split; [|split; [|split; [|split; [|split]]]]].
  - rewrite (bind_Done _ _ _ _ _ (GPIO_set_value_Done c 0 w (mk_is_Some _ _ Eg))).
    fold w0. rewrite (bind_Done _ _ _ _ _ (GPIO_get_Done c w0 _ Eg0)).
    change (safe (with_value x0 ch0)) with (safe ch0). rewrite Hsafe.
    rewrite (bind_Done _ _ _ _ _ E1). rewrite command_zero. apply rpi_send_Done.
  - by apply wf_rpi_store.
  - eapply evolves_trans; [apply (evolves_GPIO_store [c; c'] c 0); in_list|].
    eapply evolves_trans; [exact Hev1|]. apply evolves_sent.
  - by rewrite gval_rpi_store.
  - by rewrite sval_rpi_store.
  - by rewrite gval_rpi_store, sval_rpi_store.
  - intros Ha. simpl. rewrite conn_sent_sent_on.
    destruct Hev1 as (_ & _ & _ & Ha1 & _). simpl in Ha1. rewrite Ha1, Ha.
    apply elem_of_app. right. in_list.
Qed.

(** The loop of [reset_to_zero] over Motor channels: what was at rest stays
    at rest, and every channel gone through comes to rest. *)
Lemma reset_loop n l : ∀ w,
  (∀ c, c ∈ l → (c, complement_of c) ∈ motor_pairs) → wf w →
  ∃ w',
    for_each (λ s,
      GPIO_set_value s 0;;
      ch ← GPIO_get s;
      setValue (valueChanged (S (S (S n)))) s (safe ch);;
      rpi_send (s +:+ ":0")) l w = Done tt w'
    ∧ wf w' ∧ evolves (l ++ (complement_of <$> l)) w w'
    ∧ (∀ k, gval w k = 0 ∧ sval w k = 0 → gval w' k = 0 ∧ sval w' k = 0)
    ∧ (∀ c, c ∈ l →
         gval w' c = 0 ∧ sval w' c = 0
         ∧ (alive (rpi w) = true → command c 0 +:+ LF ∈ conn_sent (rpi w'))).
Proof.
  induction l as [|c l IH]; intros w Hl Hwf.
  { exists w. split; [done|]. split; [done|]. split; [apply evolves_refl|].
    split; [done|]. by intros c ?%elem_of_nil. }
  assert ((c, complement_of c) ∈ motor_pairs) as Hp by (apply Hl; in_list).
  destruct (reset_step n c _ w Hp Hwf) as (w1 & E1 & Hwf1 & Hev1 & Hg1 & Hs1 & Hc1 & Hl1).
  destruct (IH w1) as (w2 & E2 & Hwf2 & Hev2 & Hrest2 & Hall2); [|done|].
  { intros x Hx. apply Hl. by apply list_elem_of_further. }
  assert (∀ k, gval w k = 0 ∧ sval w k = 0 → gval w1 k = 0 ∧ sval w1 k = 0) as Hrest1.
  { intros k [Hgk Hsk].
    destruct (decide (k = c)) as [->|Hkc]; [done|].
    destruct (decide (k = complement_of c)) as [->|Hkc'].
    - destruct Hc1 as [?|[-> ->]]; done.
    - rewrite (evolves_gval _ _ _ _ Hev1), (evolves_sval _ _ _ _ Hev1); [done|..];
        rewrite !elem_of_cons, elem_of_nil; tauto. }
  exists w2. split; [|split; [done|split; [|split]]].
  - cbn [for_each]. rewrite (bind_Done _ _ _ _ _ E1). exact E2.
  - eapply evolves_trans; (eapply evolves_weaken; [|eassumption]);
      intros k; rewrite ?fmap_cons, ?elem_of_app, ?elem_of_cons, ?elem_of_app, ?elem_of_nil; tauto.
  - intros k Hk. by apply Hrest2, Hrest1.
  - intros x Hx. apply elem_of_cons in Hx as [->|Hx].
    + destruct (Hrest2 c (conj Hg1 Hs1)) as [? ?]. split; [done|]. split; [done|].
      intros Ha. eapply evolves_sent_In; [exact Hev2|]. by apply Hl1.
    + destruct (Hall2 x Hx) as (? & ? & Hw). split; [done|]. split; [done|].
      intros Ha. apply Hw. destruct Hev1 as (_ & _ & _ & Ha1 & _). by rewrite Ha1.
Qed.

Lemma motors_pairs c : c ∈ motors → (c, complement_of c) ∈ motor_pairs.
Proof.
  rewrite motors_eq, !elem_of_cons, elem_of_nil.
  intros H. repeat (destruct H as [->|H]; [in_list|]). done.
Qed.

Lemma reset_loop_names :
  motors ++ (complement_of <$> motors)
  = ["MS1F"; "MS1S"; "MS2F"; "MS2S"; "MS3F"; "MS3S";
     "MS1S"; "MS1F"; "MS2S"; "MS2F"; "MS3S"; "MS3F"].
Proof. by rewrite motors_eq. Qed.

Lemma reset_forwards_names :
  "Forwards" :: forward_channels ++ (complement_of <$> forward_channels)
  = ["Forwards"; "MS1F"; "MS2F"; "MS3F"; "MS1S"; "MS2S"; "MS3S"].
Proof. done. Qed.

(** [reset_to_zero] with no ramp button down. *)
Lemma reset_state n w :
  wf w →
  ∃ w', reset_to_zero false false (S (S (S n))) w = Done tt w'
    ∧ wf w'
    ∧ MOMENTUM w' = 0%float
    ∧ sval w' "Forwards" = 0
    ∧ (∀ m, m ∈ motors →
         gval w' m = 0 ∧ sval w' m = 0
         ∧ (alive (rpi w) = true → command m 0 +:+ LF ∈ conn_sent (rpi w')))
    ∧ (∀ s, s ∈ servos → gval w' s = gval w s ∧ sval w' s = sval w s)
    ∧ sval w' "Turn" = sval w "Turn".
Proof.
  intros Hwf.
  set (w0 := set_momentum 0 w).
  assert (wf w0) as Hwf0 by done.
  destruct (reset_forwards n w0 Hwf0) as (w1 & E1 & Hwf1 & Hev1 & Hs1).
  destruct (reset_loop n motors w1 motors_pairs Hwf1) as (w2 & E2 & Hwf2 & Hev2 & Hrest2 & Hall2).
  assert (∀ k, k ∉ "Forwards" :: motors →
            gval w2 k = gval w k ∧ sval w2 k = sval w k) as Hframe.
  { intros k Hk.
    rewrite (evolves_gval _ _ _ _ Hev2), (evolves_sval _ _ _ _ Hev2),
            (evolves_gval _ _ _ _ Hev1), (evolves_sval _ _ _ _ Hev1); [done|..];
      revert Hk; rewrite ?reset_loop_names, ?reset_forwards_names, motors_eq;
      rewrite !elem_of_cons, !elem_of_nil; tauto. }
  exists w2. split; [|split; [done|split; [|split; [|split; [|split]]]]].
  - unfold reset_to_zero. change (false || false) with false. cbv iota.
    rewrite bind_modify. fold w0.
    rewrite (bind_Done _ _ _ _ _ E1). exact E2.
  - destruct Hev2 as (_ & _ & -> & _). destruct Hev1 as (_ & _ & -> & _). done.
  - rewrite (evolves_sval _ _ _ _ Hev2); [done|].
    rewrite reset_loop_names, !elem_of_cons, !elem_of_nil.
    intuition discriminate.
  - intros m Hm. destruct (Hall2 m Hm) as (? & ? & Hw). split; [done|]. split; [done|].
    intros Ha. apply Hw. destruct Hev1 as (_ & _ & _ & Ha1 & _). by rewrite Ha1.
  - intros s Hs. apply Hframe. revert Hs. rewrite servos_eq, motors_eq.
    rewrite !elem_of_cons, !elem_of_nil. intuition (subst; discriminate).
  - apply Hframe. rewrite motors_eq, !elem_of_cons, !elem_of_nil. intuition discriminate.
Qed.
(** ** Sessions: what holds of the table throughout *)

Lemma handle_ends pow n e w :
  wf w → ∃ w', final (handle pow (S (S (S n))) e w) = Some w' ∧ wf w'.
Proof.
  intros Hwf.
  destruct (respects_final (λ _ _, True) (handle pow (S (S (S n))) e) w) as (w' & E & Hwf' & _);
    [|done|by exists w'].
  by apply respects_handle.
Qed.

Lemma server_disconnect_state sd w :
  ∃ n', server_disconnect sd w = Done tt (rpi_store n' w).
Proof.
  unfold server_disconnect.
  destruct (disconnect_closes sd (rpi w)) as (n' & E & _). rewrite E. by exists n'.
Qed.

Lemma key_cases k : k ∈ GPIO_keys → k ∈ servos ∨ k ∈ motors.
Proof.
  rewrite servos_eq, motors_eq. unfold GPIO_keys. simpl.
  rewrite !elem_of_cons, !elem_of_nil. tauto.
Qed.

Lemma key_in_panel k : k ∈ GPIO_keys → k ∈ panel_names ∧ k ≠ "Forwards" ∧ k ≠ "Turn".
Proof.
  unfold GPIO_keys, panel_names. simpl. rewrite !elem_of_cons, !elem_of_nil.
  intros H. repeat (destruct H as [->|H]; [split; [tauto|split; discriminate]|]). done.
Qed.

Lemma exclusive_World_init n : exclusive (World_init n).
Proof.
  intros c c' H. left. unfold motor_pairs in H. rewrite !elem_of_cons, elem_of_nil in H.
  repeat (destruct H as [[= -> ->]|H]; [reflexivity|]). done.
Qed.

Lemma in_bounds_World_init n : in_bounds (World_init n).
Proof.
  intros k H. unfold GPIO_keys in H. simpl in H. rewrite !elem_of_cons, elem_of_nil in H.
  repeat (destruct H as [->|H]; [vm_compute; split; discriminate|]). done.
Qed.

Lemma handle_exclusive pow n e w :
  wf w → exclusive w →
  ∃ w', final (handle pow (S (S (S n))) e w) = Some w' ∧ wf w' ∧ exclusive w'.
Proof.
  intros Hwf Hx.
  destruct (handle_ends pow n e w Hwf) as (w' & E & Hwf').
  exists w'. split; [done|]. split; [done|].
  destruct e as [name v| | |l r| |]; simpl in E.
  - unfold operator_moves in E.
    destruct (sliders w !! name) as [q|] eqn:Eq.
    + destruct (wf_panel w name q Hwf Eq) as [Hn _].
      destruct (moved_state n name v w Hn Hwf) as (w1 & E1 & _ & Hcases).
      unfold operator_moves in E1. rewrite E1 in E. injection E as <-.
      destruct Hcases as [->|[[_ Hz]|[[_ Hf]|[(Hs & _ & Hf)|(c' & Hp & Hz & _ & Hf)]]]].
      * done.
      * apply (exclusive_group forward_channels); [by left|done].
      * apply (exclusive_frame w); [done|]. intros m Hm. apply Hf.
        by destruct (motor_not_servo m Hm) as (_ & ? & _).
      * apply (exclusive_frame w); [done|]. intros m Hm. apply Hf.
        intros ->. by destruct (motor_not_servo name Hm) as (? & _).
      * by apply (exclusive_pair w w1 name c').
    + rewrite (QAbstractSlider_setValue_Raise _ name v w Eq) in E. by injection E as <-.
  - destruct (go_final pow Left n w Hwf) as (w1 & E1 & Hz).
    unfold go_left in E. rewrite E1 in E. injection E as <-.
    apply (exclusive_group sideways_channels); [by right|done].
  - destruct (go_final pow Right n w Hwf) as (w1 & E1 & Hz).
    unfold go_right in E. rewrite E1 in E. injection E as <-.
    apply (exclusive_group sideways_channels); [by right|done].
  - destruct l, r; try (injection E as <-; done).
    destruct (reset_state n w Hwf) as (w1 & E1 & _ & _ & _ & Hm & _).
    rewrite E1 in E. injection E as <-.
    intros c c' Hp. left. destruct (motor_pair_motors c c' Hp) as [Hc _].
    by destruct (Hm c Hc).
  - destruct (safe_value_state (S n) w Hwf) as (w1 & E1 & _ & _ & Hm).
    rewrite E1 in E. injection E as <-.
    by apply (exclusive_frame w).
  - destruct (server_disconnect_state true w) as (n' & E1).
    rewrite E1 in E. injection E as <-. done.
Qed.

(** Whatever the operator does, however the ramp's arithmetic turns out, at
    most one channel of each Forwards/Sideways pair holds a non-zero value
    when the slot of an event has ended: if that holds of the table when a
    session starts, it holds when the session ends, by its last slot returning
    or by a slot raising. *)
Theorem pairs_stay_exclusive (pow : float → float → float) (n : nat)
    (es : list event) (w : World) :
  wf w → exclusive w →
  ∃ w', final (run pow (S (S (S n))) es w) = Some w' ∧ wf w' ∧ exclusive w'.
Proof.
  revert w. induction es as [|e es IH]; intros w Hwf Hx; [by exists w|].
  destruct (handle_exclusive pow n e w Hwf Hx) as (w1 & E1 & Hwf1 & Hx1).
  cbn [run].
  destruct (handle pow (S (S (S n))) e w) as [[] w1'|ex w1'|] eqn:E; [| |done].
  - injection E1 as ->. rewrite (final_bind_Done _ _ _ _ _ E). by apply IH.
  - injection E1 as ->. rewrite (final_bind_Raise _ _ _ _ _ E). by exists w1.
Qed.

Lemma pairs_stay_exclusive_witness :
  ∃ w', final (run pow_first_press 3
                 [slider_moved "MS1F" 50; slider_moved "MS1S" 30; goLeft_pressed;
                  slider_moved "Forwards" 70; reset_requested false false]
                 (World_init (connected []))) = Some w'
    ∧ wf w' ∧ exclusive w'.
Proof.
  apply (pairs_stay_exclusive pow_first_press 0
           [slider_moved "MS1F" 50; slider_moved "MS1S" 30; goLeft_pressed;
            slider_moved "Forwards" 70; reset_requested false false]
           (World_init (connected []))).
  - apply wf_World_init.
  - apply exclusive_World_init.
Defined.

Lemma handle_calm pow n e w :
  calm e → wf w → ∃ w', handle pow (S (S (S n))) e w = Done tt w' ∧ wf w'.
Proof.
  intros Hc Hwf. destruct e as [name v| | |l r| |]; simpl in *; try done.
  - destruct (moved_state n name v w Hc Hwf) as (w1 & E1 & Hwf1 & _). by exists w1.
  - destruct l, r; try by exists w.
    destruct (reset_state n w Hwf) as (w1 & E1 & Hwf1 & _). by exists w1.
  - destruct (safe_value_state (S n) w Hwf) as (w1 & E1 & Hwf1 & _). by exists w1.
  - destruct (server_disconnect_state true w) as (n' & E1).
    exists (rpi_store n' w). split; [done|]. by apply wf_rpi_store.
Qed.

(** No slot of a slider of the panel, and none of the safeValue, resetToZero
    and powerOff buttons, ever raises: a session of such events runs to its
    end, each slot returning within three nested deliveries of
    [valueChanged]. *)
Theorem panel_sessions_return (pow : float → float → float) (n : nat)
    (es : list event) (w : World) :
  Forall calm es → wf w →
  ∃ w', run pow (S (S (S n))) es w = Done tt w' ∧ wf w'.
Proof.
  intros Hes. revert w. induction Hes as [|e es He Hes IH]; intros w Hwf; [by exists w|].
  destruct (handle_calm pow n e w He Hwf) as (w1 & E1 & Hwf1).
  destruct (IH w1 Hwf1) as (w2 & E2 & Hwf2).
  exists w2. split; [|done]. cbn [run]. by rewrite (bind_Done _ _ _ _ _ E1).
Qed.

Lemma panel_sessions_return_witness :
  ∃ w', run pow_first_press 3
          [slider_moved "MS1F" 50; slider_moved "MS1S" 30; slider_moved "Forwards" (-20);
           slider_moved "Turn" 100; safeValue_pressed; reset_requested false false;
           powerOff_pressed]
          (World_init (connected [])) = Done tt w'
    ∧ wf w'.
Proof.
  apply (panel_sessions_return pow_first_press 0
           [slider_moved "MS1F" 50; slider_moved "MS1S" 30; slider_moved "Forwards" (-20);
            slider_moved "Turn" 100; safeValue_pressed; reset_requested false false;
            powerOff_pressed]
           (World_init (connected []))).
  - repeat constructor; simpl; in_list.
  - apply wf_World_init.
Defined.

Lemma in_bounds_zero k : k ∈ GPIO_keys → (bounds_of k).1 ≤ 0 ≤ (bounds_of k).2.
Proof. intros Hk. destruct (channel_facts k Hk) as (ch0 & _ & -> & _ & H & _). done. Qed.

Lemma in_bounds_clip k v :
  k ∈ GPIO_keys → (bounds_of k).1 ≤ clip (bounds_of k) v ≤ (bounds_of k).2.
Proof. intros Hk. apply clip_within. pose proof (in_bounds_zero k Hk). lia. Qed.

Lemma handle_tame pow n e w :
  tame e → wf w → in_bounds w →
  ∃ w', handle pow (S (S (S n))) e w = Done tt w' ∧ wf w' ∧ in_bounds w'.
Proof.
  intros Ht Hwf Hb. destruct e as [name v| | |l r| |]; simpl in *; try done.
  - destruct (key_in_panel name Ht) as (Hn & HF & HT).
    destruct (moved_state n name v w Hn Hwf) as (w1 & E1 & Hwf1 & Hcases).
    exists w1. split; [done|]. split; [done|].
    destruct Hcases as [->|[[? _]|[[? _]|[(Hs & Hg & Hf)|(c' & Hp & Hz & Hg & Hf)]]]];
      try done.
    + intros k Hk. destruct (decide (k = name)) as [->|Hne].
      * rewrite Hg. by apply in_bounds_clip.
      * rewrite (Hf k Hne). by apply Hb.
    + intros k Hk. destruct (decide (k = name)) as [->|Hne].
      { rewrite Hg. by apply in_bounds_clip. }
      destruct (decide (k = c')) as [->|Hne'].
      { rewrite Hz. by apply in_bounds_zero. }
      rewrite (Hf k); [by apply Hb|].
      rewrite !elem_of_cons, elem_of_nil. tauto.
  - destruct l, r; try by exists w.
    destruct (reset_state n w Hwf) as (w1 & E1 & Hwf1 & _ & _ & Hm & Hs & _).
    exists w1. split; [done|]. split; [done|].
    intros k Hk. destruct (key_cases k Hk) as [Hks|Hkm].
    + destruct (Hs k Hks) as [-> _]. by apply Hb.
    + destruct (Hm k Hkm) as [-> _]. by apply in_bounds_zero.
  - destruct (safe_value_state (S n) w Hwf) as (w1 & E1 & Hwf1 & Hs & Hm).
    exists w1. split; [done|]. split; [done|].
    intros k Hk. destruct (key_cases k Hk) as [Hks|Hkm].
    + rewrite (Hs k Hks).
      destruct (channel_facts k Hk) as (ch0 & _ & -> & -> & _ & H & _). done.
    + rewrite (Hm k Hkm). by apply Hb.
  - destruct (server_disconnect_state true w) as (n' & E1).
    exists (rpi_store n' w). split; [done|]. split; [by apply wf_rpi_store|done].
Qed.

(** As long as the operator moves the sliders of the channels themselves and
    uses the safeValue, resetToZero and powerOff buttons, every channel of the
    table holds a value within its bounds; the Forwards and Turn sliders and
    the ramp, which store the value they are given, are what can break
    this. *)
Theorem channel_moves_stay_in_bounds (pow : float → float → float) (n : nat)
    (es : list event) (w : World) :
  Forall tame es → wf w → in_bounds w →
  ∃ w', run pow (S (S (S n))) es w = Done tt w' ∧ wf w' ∧ in_bounds w'.
Proof.
  intros Hes. revert w. induction Hes as [|e es He Hes IH]; intros w Hwf Hb; [by exists w|].
  destruct (handle_tame pow n e w He Hwf Hb) as (w1 & E1 & Hwf1 & Hb1).
  destruct (IH w1 Hwf1 Hb1) as (w2 & E2 & Hwf2 & Hb2).
  exists w2. split; [|done]. cbn [run]. by rewrite (bind_Done _ _ _ _ _ E1).
Qed.

Lemma channel_moves_stay_in_bounds_witness :
  ∃ w', run pow_first_press 3
          [slider_moved "MS1F" 100; slider_moved "SN1H" (-100); slider_moved "MS1S" 30;
           safeValue_pressed; slider_moved "SJ2V" 100]
          (World_init (connected [])) = Done tt w'
    ∧ wf w' ∧ in_bounds w'.
Proof.
  apply (channel_moves_stay_in_bounds pow_first_press 0
           [slider_moved "MS1F" 100; slider_moved "SN1H" (-100); slider_moved "MS1S" 30;
            safeValue_pressed; slider_moved "SJ2V" 100]
           (World_init (connected []))).
  - repeat constructor; simpl; in_list.
  - apply wf_World_init.
  - apply in_bounds_World_init.
Defined.

(** ** VideoStream: what [startVideo] emits and displays *)

Lemma next_number (s : Stream) (fr : frame) (s' : Stream) :
  next s = Done fr s' → fr.1.1 = i s + 1 ∧ i s' = i s + 1.
Proof.
  unfold next. rewrite bind_modify.
  unfold mbind at 1, M_bind at 1, bind at 1, reraise.
  unfold mbind at 1, M_bind at 1, bind at 1, stream_read at 1, read. simpl.
  destruct (closed (stream s)) eqn:Hc; [done|]. simpl. unfold lift.
  destruct (unpack_Lffffff _) as [[image_len ag]|e]; [|by destruct e]. simpl.
  unfold mbind at 1, M_bind at 1, bind at 1, stream_read, read. simpl.
  rewrite bind_get. intros [= <- <-]. done.
Qed.

Lemma iterate_cons fuel s fr frs s' :
  iterate (S fuel) s = Done (fr :: frs) s' →
  ∃ s1, next s = Done fr s1 ∧ iterate fuel s1 = Done frs s'.
Proof.
  rewrite iterate_S. destruct (next s) as [fr1 s1|e s1|]; [| |done].
  - destruct (iterate fuel s1) as [frs1 s2|e s2|] eqn:E; [|done|done].
    intros H. injection H as -> -> ->. by exists s1.
  - by destruct e.
Qed.

Lemma iterate_nil fuel s s' :
  iterate (S fuel) s = Done [] s' → next s = Raise StopIteration s'.
Proof.
  rewrite iterate_S. destruct (next s) as [fr1 s1|e s1|]; [| |done].
  - by destruct (iterate fuel s1).
  - destruct e; try done. by intros [= ->].
Qed.

Lemma iterate_fuel fuel s frs s' : iterate fuel s = Done frs s' → (length frs < fuel)%nat.
Proof.
  revert s frs. induction fuel as [|fuel IH]; intros s frs; [done|].
  destruct frs as [|fr frs]; [simpl; lia|].
  intros (s1 & _ & E)%iterate_cons. apply IH in E. simpl. lia.
Qed.

Lemma signals_of_cons fr frs : signals_of (fr :: frs) = signals_of [fr] ++ signals_of frs.
Proof. unfold signals_of. simpl. by rewrite app_nil_r. Qed.

Section video_facts.

Variable time : nat → float.
Variable floor_div : float → float → float.

Lemma loop_frame fuel t calls v fr s1 :
  next (source v) = Done fr s1 → fr.1.1 mod 20 ≠ 0 →
  startVideo_loop time floor_div (S fuel) t calls v
  = startVideo_loop time floor_div fuel t calls
      {| source := s1; signals := signals v ++ signals_of [fr];
         lcdNumber := lcdNumber v; video_log := video_log v |}.
Proof.
  intros E Hm. cbn [startVideo_loop]. rewrite E.
  destruct fr as [[k image] ag]. simpl in Hm.
  destruct (Z.eqb_spec (k mod 20) 0); done.
Qed.

Lemma loop_twentieth fuel t calls v fr s1 :
  next (source v) = Done fr s1 → fr.1.1 mod 20 = 0 →
  startVideo_loop time floor_div (S fuel) t calls v
  = if PrimFloat.eqb (time calls - t) 0
    then ZeroDivisionError
           {| source := s1; signals := signals v ++ signals_of [fr];
              lcdNumber := lcdNumber v; video_log := video_log v |}
    else startVideo_loop time floor_div fuel (time (S calls)) (S (S calls))
           {| source := s1; signals := signals v ++ signals_of [fr];
              lcdNumber := lcdNumber v ++ [lcd_float (floor_div 20 (time calls - t))];
              video_log := video_log v |}.
Proof.
  intros E Hm. cbn [startVideo_loop]. rewrite E.
  destruct fr as [[k image] ag]. simpl in Hm. by rewrite Hm.
Qed.

Lemma loop_end fuel t calls v s1 :
  next (source v) = Raise StopIteration s1 →
  startVideo_loop time floor_div (S fuel) t calls v
  = Stopped {| source := s1; signals := signals v;
               lcdNumber := lcdNumber v ++ [lcd_int 0];
               video_log := video_log v ++ [(WARNING, "Stopped Videostream")] |}.
Proof. intros E. cbn [startVideo_loop]. by rewrite E. Qed.

(** Frames none of which is a twentieth are passed on without a word to the
    display. *)
Lemma loop_quiet_frames frs1 : ∀ fuel t calls v frs2 s',
  iterate (length frs1 + fuel) (source v) = Done (frs1 ++ frs2) s' →
  (∀ k fr, frs1 !! k = Some fr → (i (source v) + 1 + Z.of_nat k) mod 20 ≠ 0) →
  ∃ s1, iterate fuel s1 = Done frs2 s'
    ∧ i s1 = i (source v) + Z.of_nat (length frs1)
    ∧ startVideo_loop time floor_div (length frs1 + fuel) t calls v
      = startVideo_loop time floor_div fuel t calls
          {| source := s1; signals := signals v ++ signals_of frs1;
             lcdNumber := lcdNumber v; video_log := video_log v |}.
Proof.
  induction frs1 as [|fr frs1 IH]; intros fuel t calls v frs2 s' E Hq.
  { exists (source v). split; [done|]. split; [simpl; lia|].
    simpl. rewrite app_nil_r. by destruct v. }
  simpl in E. apply iterate_cons in E as (s0 & E0 & E).
  destruct (next_number _ _ _ E0) as [Hk Hi].
  assert (fr.1.1 mod 20 ≠ 0) as Hm.
  { rewrite Hk. specialize (Hq 0%nat fr eq_refl). by rewrite Z.add_0_r in Hq. }
  set (v0 := {| source := s0; signals := signals v ++ signals_of [fr];
                lcdNumber := lcdNumber v; video_log := video_log v |}).
  destruct (IH fuel t calls v0 frs2 s' E) as (s1 & E1 & Hi1 & EL).
  { intros k fr' Hfr'. simpl. rewrite Hi.
    specialize (Hq (S k) fr' Hfr').
    replace (i (source v) + 1 + 1 + Z.of_nat k) with (i (source v) + 1 + Z.of_nat (S k)) by lia.
    done. }
  exists s1. split; [done|]. split; [simpl in *; lia|].
  change (length (fr :: frs1) + fuel)%nat with (S (length frs1 + fuel)).
  rewrite (loop_frame _ t calls v fr s0 E0 Hm). fold v0. rewrite EL.
  cbn [source signals lcdNumber video_log v0].
  by rewrite (signals_of_cons fr frs1), app_assoc.
Qed.

(** Whatever the clock does, [startVideo] passes the frames on in order, the
    image signal of a frame before its sample signal: if it returns, every
    frame of the stream was passed on, the display was given one reading for
    each twentieth frame and then the integer 0, and the warning was logged;
    the one other way it ends is the division by a zero time difference at a
    twentieth frame, after that frame was passed on and before anything was
    displayed for it, with no warning logged. *)
Theorem startVideo_emits_in_order (fuel : nat) : ∀ (t : float) (calls : nat) (v : Video)
    (frs : list frame) (s' : Stream),
  iterate fuel (source v) = Done frs s' →
  match startVideo_loop time floor_div fuel t calls v with
  | Stopped v' =>
      source v' = s'
      ∧ signals v' = signals v ++ signals_of frs
      ∧ (∃ readings, lcdNumber v' = lcdNumber v ++ readings ++ [lcd_int 0]
           ∧ length readings = length (twentieths frs))
      ∧ video_log v' = video_log v ++ [(WARNING, "Stopped Videostream")]
  | ZeroDivisionError v' =>
      ∃ k fr, frs !! k = Some fr ∧ fr.1.1 mod 20 = 0
        ∧ signals v' = signals v ++ signals_of (take (S k) frs)
        ∧ video_log v' = video_log v
  | Uncaught _ _ | MoreFrames => False
  end.
Proof.
  induction fuel as [|fuel IH]; intros t calls v frs s' E; [done|].
  destruct frs as [|fr frs].
  { apply iterate_nil in E. rewrite (loop_end _ _ _ _ _ E). simpl.
    split; [done|]. split; [by rewrite app_nil_r|]. split; [by exists []|done]. }
  apply iterate_cons in E as (s1 & E1 & E).
  destruct (decide (fr.1.1 mod 20 = 0)) as [Hm|Hm].
  - rewrite (loop_twentieth _ t calls v fr s1 E1 Hm).
    destruct (PrimFloat.eqb (time calls - t) 0).
    { exists 0%nat, fr. cbn [source signals lcdNumber video_log take lookup].
      split; [done|]. split; [done|]. split; [|done]. by destruct frs. }
    specialize (IH (time (S calls)) (S (S calls))
                  {| source := s1; signals := signals v ++ signals_of [fr];
                     lcdNumber := lcdNumber v ++ [lcd_float (floor_div 20 (time calls - t))];
                     video_log := video_log v |} frs s' E).
    destruct (startVideo_loop _ _ _ _ _ _) as [v'|e v'|v'|]; [| done| |done].
    + destruct IH as (Hs & Hsig & (readings & Hl & Hn) & Hlog). cbn [source signals lcdNumber video_log] in *.
      split; [done|]. split; [by rewrite Hsig, (signals_of_cons fr frs), app_assoc|]. split; [|done].
      exists (lcd_float (floor_div 20 (time calls - t)) :: readings).
      split; [by rewrite Hl, <- app_assoc|].
      unfold twentieths. rewrite filter_cons_True by done. simpl. by rewrite Hn.
    + destruct IH as (k & fr' & Hk & Hm' & Hsig & Hlog). cbn [source signals lcdNumber video_log] in *.
      exists (S k), fr'. split; [done|]. split; [done|].
      split; [|done]. rewrite Hsig.
      change (take (S (S k)) (fr :: frs)) with (fr :: take (S k) frs).
      by rewrite (signals_of_cons fr (take (S k) frs)), app_assoc.
  - rewrite (loop_frame _ t calls v fr s1 E1 Hm).
    specialize (IH t calls
                  {| source := s1; signals := signals v ++ signals_of [fr];
                     lcdNumber := lcdNumber v; video_log := video_log v |} frs s' E).
    destruct (startVideo_loop _ _ _ _ _ _) as [v'|e v'|v'|]; [| done| |done].
    + destruct IH as (Hs & Hsig & (readings & Hl & Hn) & Hlog). cbn [source signals lcdNumber video_log] in *.
      split; [done|]. split; [by rewrite Hsig, (signals_of_cons fr frs), app_assoc|]. split; [|done].
      exists readings. split; [done|].
      unfold twentieths. by rewrite filter_cons_False.
    + destruct IH as (k & fr' & Hk & Hm' & Hsig & Hlog). cbn [source signals lcdNumber video_log] in *.
      exists (S k), fr'. split; [done|]. split; [done|].
      split; [|done]. rewrite Hsig.
      change (take (S (S k)) (fr :: frs)) with (fr :: take (S k) frs).
      by rewrite (signals_of_cons fr (take (S k) frs)), app_assoc.
Qed.

(** A stream that ends before its twentieth frame is played to its end
    whatever the clock does: [startVideo] returns, having passed every frame
    on, with the display at the integer 0 and the warning logged. *)
Theorem short_stream_is_played (fuel calls : nat) (f : BufferedReader)
    (frs : list frame) (s' : Stream) :
  iterate fuel (Stream_init f) = Done frs s' →
  (length frs < 20)%nat →
  startVideo time floor_div fuel calls f
  = Stopped {| source := s'; signals := signals_of frs;
               lcdNumber := [lcd_int 0];
               video_log := [(WARNING, "Stopped Videostream")] |}.
Proof.
  intros E Hn. unfold startVideo.
  set (v := {| source := Stream_init f; signals := []; lcdNumber := []; video_log := [] |}).
  pose proof (iterate_fuel _ _ _ _ E) as Hf.
  destruct (Nat.le_exists_sub (length frs) fuel) as (rest & -> & _); [lia|].
  rewrite Nat.add_comm in E |- *.
  assert (iterate (length frs + rest) (source v) = Done (frs ++ []) s') as E'
    by (by rewrite app_nil_r).
  destruct (loop_quiet_frames frs rest 1%float calls v [] s' E') as (s1 & E1 & _ & ->).
  { intros k fr Hk. apply lookup_lt_Some in Hk. simpl.
    rewrite Z.mod_small by lia. lia. }
  destruct rest as [|rest]; [done|].
  apply iterate_nil in E1. cbn [startVideo_loop source]. by rewrite E1.
Qed.

(** The first reading of the display, at the twentieth frame, is taken
    against [t = 1], not against the time the stream was started at: for a
    stream of twenty to thirty-nine frames [startVideo] displays
    [20 // (time() - 1)], then the integer 0. *)
Theorem first_reading_is_against_one (fuel calls : nat) (f : BufferedReader)
    (frs : list frame) (s' : Stream) :
  iterate fuel (Stream_init f) = Done frs s' →
  (20 ≤ length frs < 40)%nat →
  PrimFloat.eqb (time calls - 1) 0 = false →
  startVideo time floor_div fuel calls f
  = Stopped {| source := s'; signals := signals_of frs;
               lcdNumber := [lcd_float (floor_div 20 (time calls - 1)); lcd_int 0];
               video_log := [(WARNING, "Stopped Videostream")] |}.
Proof.
  intros E Hn Ht. unfold startVideo.
  set (v := {| source := Stream_init f; signals := []; lcdNumber := []; video_log := [] |}).
  pose proof (iterate_fuel _ _ _ _ E) as Hf.
  rewrite <- (take_drop 19 frs) in E |- *.
  set (frs1 := take 19 frs) in *. set (frs2 := drop 19 frs) in *.
  assert (length frs1 = 19%nat) as L1 by (unfold frs1; rewrite length_take; lia).
  assert (length frs2 = (length frs - 19)%nat) as L2 by (unfold frs2; by rewrite length_drop).
  destruct (Nat.le_exists_sub 19 fuel) as (rest & -> & _); [lia|].
  rewrite Nat.add_comm, <- L1 in E |- *.
  destruct (loop_quiet_frames frs1 rest 1%float calls v frs2 s' E) as (s1 & E1 & Hi1 & ->).
  { intros k fr Hk. apply lookup_lt_Some in Hk. simpl.
    rewrite Z.mod_small by lia. lia. }
  simpl in Hi1. rewrite L1 in Hi1.
  destruct frs2 as [|fr frs2]; [simpl in L2; lia|].
  destruct rest as [|rest]; [done|].
  apply iterate_cons in E1 as (s2 & E2 & E1).
  destruct (next_number _ _ _ E2) as [Hk Hi2].
  assert (fr.1.1 mod 20 = 0) as Hm by (rewrite Hk, Hi1; done).
  rewrite (loop_twentieth rest 1%float calls
             {| source := s1; signals := signals v ++ signals_of frs1;
                lcdNumber := lcdNumber v; video_log := video_log v |} fr s2 E2 Hm).
  cbn [source signals lcdNumber video_log]. rewrite Ht.
  set (v2 := {| source := s2 |}).
  pose proof (iterate_fuel _ _ _ _ E1) as Hf1.
  destruct (Nat.le_exists_sub (length frs2) rest) as (rest' & -> & _); [lia|].
  rewrite Nat.add_comm in E1 |- *.
  assert (iterate (length frs2 + rest') (source v2) = Done (frs2 ++ []) s') as E1'
    by (by rewrite app_nil_r).
  destruct (loop_quiet_frames frs2 rest' (time (S calls)) (S (S calls)) v2 [] s' E1')
    as (s3 & E3 & _ & ->).
  { intros k fr' Hk'. apply lookup_lt_Some in Hk'. simpl. rewrite Hi2, Hi1.
    simpl in L2.
    replace (0 + Z.of_nat 19 + 1 + 1 + Z.of_nat k) with (1 + Z.of_nat k + 1 * 20) by lia.
    rewrite Z.mod_add, Z.mod_small by lia. lia. }
  destruct rest' as [|rest']; [done|].
  apply iterate_nil in E3. cbn [startVideo_loop source]. rewrite E3. simpl.
  unfold signals_of. rewrite !flat_map_app. simpl. rewrite app_nil_r, <- !app_assoc. done.
Qed.

End video_facts.

Lemma startVideo_emits_in_order_witness :
  match startVideo_loop clock_at_1000 floor_div_0 3 1 0
          {| source := Stream_init two_frames; signals := []; lcdNumber := [];
             video_log := [] |} with
  | Stopped v' =>
      source v' = {| stream := {| pending := []; closed := false |}; i := 3 |}
      ∧ signals v' = [] ++ signals_of (numbered 0 [frame_5; frame_5])
      ∧ (∃ readings, lcdNumber v' = [] ++ readings ++ [lcd_int 0]
           ∧ length readings = length (twentieths (numbered 0 [frame_5; frame_5])))
      ∧ video_log v' = [] ++ [(WARNING, "Stopped Videostream")]
  | ZeroDivisionError v' =>
      ∃ k fr, numbered 0 [frame_5; frame_5] !! k = Some fr ∧ fr.1.1 mod 20 = 0
        ∧ signals v' = [] ++ signals_of (take (S k) (numbered 0 [frame_5; frame_5]))
        ∧ video_log v' = []
  | Uncaught _ _ | MoreFrames => False
  end.
Proof.
  apply (startVideo_emits_in_order clock_at_1000 floor_div_0 3 1 0
           {| source := Stream_init two_frames; signals := []; lcdNumber := [];
              video_log := [] |}
           (numbered 0 [frame_5; frame_5])
           {| stream := {| pending := []; closed := false |}; i := 3 |}).
  vm_compute. reflexivity.
Defined.

Lemma short_stream_is_played_witness :
  startVideo clock_at_1000 floor_div_0 3 0 two_frames
  = Stopped {| source := {| stream := {| pending := []; closed := false |}; i := 3 |};
               signals := signals_of (numbered 0 [frame_5; frame_5]);
               lcdNumber := [lcd_int 0];
               video_log := [(WARNING, "Stopped Videostream")] |}.
Proof.
  apply (short_stream_is_played clock_at_1000 floor_div_0 3 0 two_frames
           (numbered 0 [frame_5; frame_5])
           {| stream := {| pending := []; closed := false |}; i := 3 |}).
  - vm_compute. reflexivity.
  - simpl. lia.
Defined.

Lemma first_reading_is_against_one_witness :
  startVideo clock_at_1000 floor_div_0 21 0 twenty_frames
  = Stopped {| source := {| stream := {| pending := []; closed := false |}; i := 21 |};
               signals := signals_of (numbered 0 (replicate 20 frame_5));
               lcdNumber := [lcd_float (floor_div_0 20 (clock_at_1000 0%nat - 1)); lcd_int 0];
               video_log := [(WARNING, "Stopped Videostream")] |}.
Proof.
  apply (first_reading_is_against_one clock_at_1000 floor_div_0 21 0 twenty_frames
           (numbered 0 (replicate 20 frame_5))
           {| stream := {| pending := []; closed := false |}; i := 21 |}).
  - vm_compute. reflexivity.
  - simpl. lia.
  - vm_compute. reflexivity.
Defined.
(** ** [safe_value] once and again *)

(** One round of [safe_value]'s loop, with what the slider shows. *)
Lemma safe_value_step_shown n s w :
  s ∈ servos → wf w →
  ∃ w',
    (ch ← GPIO_get s;
     GPIO_set_value s (safe ch);;
     ch ← GPIO_get s;
     setValue (valueChanged (S n)) s (safe ch);;
     ch ← GPIO_get s;
     rpi_send (command s (safe ch))) w = Done tt w'
    ∧ wf w' ∧ evolves [s] w w' ∧ gval w' s = safe_of s ∧ sval w' s = safe_of s.
Proof.
  intros Hs Hwf.
  destruct (servo_state w s Hs Hwf) as (ch0 & q0 & E0 & Eb & Esafe & Hb & Eg & Es & Hq0 & _).
  set (v := safe ch0) in *.
  set (w0 := GPIO_store s v w).
  assert (wf w0) as Hwf0 by by apply wf_GPIO_store.
  assert (gval w0 s = v) as Hg0 by (apply gval_GPIO_store_eq; by rewrite Eg).
  destruct (wf_GPIO w0 s ch0 Hwf0 E0) as (x0 & Eg0).
  destruct (setValue_servo n s v w0 Hs Hwf0) as (w1 & E1 & Hwf1 & Hev1 & Hs1 & Hg1).
  { intros q Hq. change (sliders w0) with (sliders w) in Hq.
    rewrite Es in Hq. injection Hq as <-. done. }
  destruct (wf_GPIO w1 s ch0 Hwf1 E0) as (x1 & Eg1).
  exists (rpi_store (sent_on (command s v) (rpi w1)) w1).
  split; [|split; [|split; [|split]]].
  - rewrite (bind_Done _ _ _ _ _ (GPIO_get_Done s w _ Eg)).
    rewrite (bind_Done _ _ _ _ _ (GPIO_set_value_Done s _ w (mk_is_Some _ _ Eg))).
    rewrite (bind_Done _ _ _ _ _ (GPIO_get_Done s _ _ Eg0)).
    rewrite (bind_Done _ _ _ _ _ E1).
    rewrite (bind_Done _ _ _ _ _ (GPIO_get_Done s _ _ Eg1)).
    apply rpi_send_Done.
  - by apply wf_rpi_store.
  - eapply evolves_trans; [apply (evolves_GPIO_store [s] s v); in_list|].
    eapply evolves_trans; [exact Hev1|]. apply evolves_sent.
  - rewrite gval_rpi_store, Hg1, Hg0, Esafe, Eb.
    destruct (decide _); [done|]. by apply clip_id.
  - by rewrite sval_rpi_store, Hs1, Esafe.
Qed.

Lemma safe_value_loop_shown n l : ∀ w,
  NoDup l → (∀ s, s ∈ l → s ∈ servos) → wf w →
  ∃ w',
    for_each (λ s,
      ch ← GPIO_get s;
      GPIO_set_value s (safe ch);;
      ch ← GPIO_get s;
      setValue (valueChanged (S n)) s (safe ch);;
      ch ← GPIO_get s;
      rpi_send (command s (safe ch))) l w = Done tt w'
    ∧ wf w' ∧ evolves l w w'
    ∧ ∀ s, s ∈ l → gval w' s = safe_of s ∧ sval w' s = safe_of s.
Proof.
  induction l as [|s l IH]; intros w Hnd Hl Hwf.
  { exists w. split; [done|]. split; [done|]. split; [apply evolves_refl|].
    by intros s ?%elem_of_nil. }
  apply NoDup_cons in Hnd as [Hnotin Hnd].
  destruct (safe_value_step_shown n s w) as (w1 & E1 & Hwf1 & Hev1 & Hg1 & Hs1);
    [apply Hl; in_list|done|].
  destruct (IH w1 Hnd) as (w2 & E2 & Hwf2 & Hev2 & Hall2); [|done|].
  { intros x Hx. apply Hl. by apply list_elem_of_further. }
  exists w2. split; [|split; [done|split]].
  - cbn [for_each]. by rewrite (bind_Done _ _ _ _ _ E1).
  - eapply evolves_trans; (eapply evolves_weaken; [|eassumption]);
      intros k; rewrite ?elem_of_cons, ?elem_of_nil; tauto.
  - intros x Hx. apply elem_of_cons in Hx as [->|Hx]; [|by apply Hall2].
    by rewrite (evolves_gval _ _ _ _ Hev2), (evolves_sval _ _ _ _ Hev2).
Qed.

Lemma GPIO_store_same k w ch :
  GPIO w !! k = Some ch → GPIO_store k (value ch) w = w.
Proof.
  intros E. destruct w as [g m sl r]. unfold GPIO_store. simpl in *. f_equal.
  apply map_eq. intros k'. destruct (decide (k' = k)) as [->|Hne].
  - rewrite lookup_alter_eq, E. simpl. by destruct ch.
  - by rewrite lookup_alter_ne.
Qed.

(** One round of [safe_value]'s loop on a channel that is at its safe value
    already, slider included: the command is sent and nothing changes. *)
Lemma safe_value_step_settled emit s w :
  s ∈ servos → wf w → gval w s = safe_of s → sval w s = safe_of s →
  (ch ← GPIO_get s;
   GPIO_set_value s (safe ch);;
   ch ← GPIO_get s;
   setValue emit s (safe ch);;
   ch ← GPIO_get s;
   rpi_send (command s (safe ch))) w
  = Done tt (rpi_store (sent_on (command s (safe_of s)) (rpi w)) w).
Proof.
  intros Hs Hwf Hg Hsv.
  destruct (servo_state w s Hs Hwf) as (ch0 & q0 & E0 & Eb & Esafe & Hb & Eg & Es & Hq0 & _).
  rewrite Hg in Eg. rewrite Hsv in Es. rewrite Esafe in *.
  assert (GPIO_store s (safe ch0) w = w) as Hsame.
  { by apply (GPIO_store_same s w _ Eg). }
  rewrite (bind_Done _ _ _ _ _ (GPIO_get_Done s w _ Eg)).
  rewrite (bind_Done _ _ _ _ _ (GPIO_set_value_Done s _ w (mk_is_Some _ _ Eg))).
  change (safe (with_value (safe ch0) ch0)) with (safe ch0). rewrite Hsame.
  rewrite (bind_Done _ _ _ _ _ (GPIO_get_Done s w _ Eg)).
  change (safe (with_value (safe ch0) ch0)) with (safe ch0).
  rewrite (bind_Done _ _ _ _ _ (setValue_same emit s (safe ch0) w _ Es
                                  (eq_sym (qBound_id _ _ Hq0))
                                  (wf_fits w s _ (safe ch0) Hwf Es Hq0))).
  rewrite (bind_Done _ _ _ _ _ (GPIO_get_Done s w _ Eg)).
  apply rpi_send_Done.
Qed.

Lemma safe_value_loop_settled emit l : ∀ w,
  (∀ s, s ∈ l → s ∈ servos) → wf w →
  (∀ s, s ∈ l → gval w s = safe_of s ∧ sval w s = safe_of s) →
  ∃ n',
    for_each (λ s,
      ch ← GPIO_get s;
      GPIO_set_value s (safe ch);;
      ch ← GPIO_get s;
      setValue emit s (safe ch);;
      ch ← GPIO_get s;
      rpi_send (command s (safe ch))) l w = Done tt (rpi_store n' w)
    ∧ alive n' = alive (rpi w)
    ∧ conn_sent n'
      = conn_sent (rpi w)
        ++ transmitted (rpi w) ((λ s, command s (safe_of s) +:+ LF) <$> l).
Proof.
  induction l as [|s l IH]; intros w Hl Hwf Hat.
  { exists (rpi w). split; [by destruct w|]. split; [done|].
    unfold transmitted. destruct (alive (rpi w)); by rewrite app_nil_r. }
  destruct (Hat s) as [Hg Hsv]; [in_list|].
  pose proof (safe_value_step_settled emit s w (Hl s ltac:(in_list)) Hwf Hg Hsv) as E1.
  set (w1 := rpi_store (sent_on (command s (safe_of s)) (rpi w)) w) in *.
  destruct (IH w1) as (n2 & E2 & Ha2 & Hs2).
  { intros x Hx. apply Hl. by apply list_elem_of_further. }
  { by apply wf_rpi_store. }
  { intros x Hx. unfold w1. rewrite gval_rpi_store, sval_rpi_store.
    apply Hat. by apply list_elem_of_further. }
  exists n2. split; [|split].
  - cbn [for_each]. rewrite (bind_Done _ _ _ _ _ E1). exact E2.
  - rewrite Ha2. apply alive_sent_on.
  - rewrite Hs2. simpl. rewrite conn_sent_sent_on_transmitted, <- app_assoc.
    f_equal. unfold transmitted. rewrite alive_sent_on. by destruct (alive (rpi w)).
Qed.

(** [safe_value] reaches its aim and is idempotent there: after it every
    Servo channel and its slider are at the safe value and the Turn slider is
    at 0; pressing safeValue again changes neither the table nor a slider and
    hands the connection the eight safe commands once more, in the order of
    the table. *)
Theorem safe_value_again (n : nat) (w : World) :
  wf w →
  ∃ w1 w2, safe_value (S (S n)) w = Done tt w1
    ∧ at_safe_values w1
    ∧ safe_value (S (S n)) w1 = Done tt w2
    ∧ GPIO w2 = GPIO w1 ∧ sliders w2 = sliders w1
    ∧ conn_sent (rpi w2) = conn_sent (rpi w1) ++ transmitted (rpi w1) safe_lines.
Proof.
  intros Hwf.
  assert (∃ w0, setValue (valueChanged (S (S n))) "Turn" 0 w = Done tt w0
            ∧ wf w0 ∧ sval w0 "Turn" = 0) as (w0 & E0 & Hwf0 & Ht0).
  { destruct (wf_slider w "Turn" _ Hwf eq_refl) as (v & Ev & Hv). simpl in Hv.
    destruct (decide (v = 0)) as [->|Hnz].
    - exists w. split; [by apply (setValue_same _ "Turn" 0 w _ Ev)|]. split; [done|].
      by rewrite (sval_lookup _ _ _ Ev).
    - rewrite (setValue_changed _ "Turn" 0 w _ Ev) by done.
      change (valueChanged (S (S n)) "Turn") with (turn (valueChanged (S n))).
      set (wt := slider_store "Turn" _ w).
      assert (wf wt) as Hwft.
      { apply wf_slider_store; [done|]. intros q Hq. rewrite Ev in Hq.
        injection Hq as <-. done. }
      destruct (turn_slot n wt Hwft) as (w0 & E0 & Hwf0 & Hev0).
      exists w0. split; [done|]. split; [done|].
      rewrite (evolves_sval _ _ _ _ Hev0).
      + apply sval_slider_store_eq. by rewrite Ev.
      + rewrite !elem_of_cons, elem_of_nil. intuition discriminate. }
  assert (NoDup servos) as Hnd by (apply (bool_decide_unpack _); by vm_compute).
  destruct (safe_value_loop_shown (S n) servos w0 Hnd) as (w1 & E1 & Hwf1 & Hev1 & Hall1);
    [done|done|].
  assert (at_safe_values w1) as Hat.
  { split; [|done]. rewrite (evolves_sval _ _ _ _ Hev1); [done|].
    rewrite servos_eq, !elem_of_cons, elem_of_nil. intuition discriminate. }
  destruct (safe_value_loop_settled (valueChanged (S (S n))) servos w1) as (n2 & E2 & _ & Hs2);
    [done|done|done|].
  exists w1, (rpi_store n2 w1). split; [|split; [done|split]].
  - unfold safe_value. rewrite (bind_Done _ _ _ _ _ E0). exact E1.
  - unfold safe_value.
    destruct (wf_slider w1 "Turn" _ Hwf1 eq_refl) as (v & Ev & Hv).
    destruct Hat as [Ht1 _]. rewrite (sval_lookup _ _ _ Ev) in Ht1. simpl in Ht1. subst v.
    rewrite (bind_Done _ _ _ _ _ (setValue_same _ "Turn" 0 w1 _ Ev eq_refl eq_refl)).
    exact E2.
  - done.
Qed.

Lemma safe_value_again_witness :
  ∃ w1 w2, safe_value 2 (World_init (connected [])) = Done tt w1
    ∧ at_safe_values w1
    ∧ safe_value 2 w1 = Done tt w2
    ∧ GPIO w2 = GPIO w1 ∧ sliders w2 = sliders w1
    ∧ conn_sent (rpi w2) = conn_sent (rpi w1) ++ transmitted (rpi w1) safe_lines.
Proof.
  apply (safe_value_again 0 (World_init (connected []))). apply wf_World_init.
Defined.
(** ** TelemetryFrameReader: what a yielded frame was read from *)

Lemma le_uint_bound (bs : list Byte.byte) : 0 ≤ le_uint bs < 256 ^ Z.of_nat (length bs).
Proof.
  induction bs as [|b bs IH]; [simpl; lia|].
  cbn [le_uint length]. rewrite Nat2Z.inj_succ, Z.pow_succ_r by lia.
  pose proof (Byte.to_N_bounded b). lia.
Qed.

(** [__next__] yields a frame only from an open stream that holds a whole
    header of 28 bytes: the image length is the unsigned number in the
    header's first four bytes, so never negative and below 2^32; the image is
    what the stream holds next, up to that length; the frame is numbered one
    more than the one before; and the stream is left right behind the
    image. *)
Theorem frame_needs_whole_header (s : Stream) (fr : frame) (s' : Stream) :
  next s = Done fr s' →
  closed (stream s) = false
  ∧ ∃ header rest image_len ag,
      pending (stream s) = header ++ rest
      ∧ length header = 28%nat
      ∧ unpack_Lffffff header = Ok (image_len, ag)
      ∧ image_len = le_uint (take 4 header)
      ∧ 0 ≤ image_len < 2 ^ 32
      ∧ fr = (i s + 1, take (Z.to_nat image_len) rest, ag)
      ∧ s' = {| stream := {| pending := drop (Z.to_nat image_len) rest; closed := false |};
                i := i s + 1 |}.
Proof.
  unfold next. rewrite bind_modify.
  unfold mbind at 1, M_bind at 1, bind at 1, reraise.
  unfold mbind at 1, M_bind at 1, bind at 1, stream_read at 1, read. simpl.
  destruct (closed (stream s)) eqn:Hc; [done|]. simpl. unfold lift.
  set (header := take (Z.to_nat calcsize_Lffffff) (pending (stream s))).
  set (rest := drop (Z.to_nat calcsize_Lffffff) (pending (stream s))).
  destruct (unpack_Lffffff header) as [[image_len ag]|e] eqn:Hu; [|by destruct e]. simpl.
  unfold mbind at 1, M_bind at 1, bind at 1, stream_read, read. simpl.
  rewrite bind_get. intros [= <- <-]. split; [done|].
  assert (length header = 28%nat) as Hlen.
  { unfold unpack_Lffffff in Hu.
    destruct (Z.eqb_spec (Z.of_nat (length header)) calcsize_Lffffff) as [E|]; [|done].
    unfold calcsize_Lffffff in E. lia. }
  assert (image_len = le_uint (take 4 header)) as Hl.
  { unfold unpack_Lffffff in Hu.
    destruct (Z.of_nat (length header) =? calcsize_Lffffff); [|done].
    injection Hu as <- _. by rewrite drop_0. }
  exists header, rest, image_len, ag.
  split; [symmetry; apply take_drop|]. split; [done|]. split; [done|]. split; [done|].
  split; [|done].
  rewrite Hl. pose proof (le_uint_bound (take 4 header)) as Hb.
  rewrite length_take, Hlen in Hb. done.
Qed.

Lemma frame_needs_whole_header_witness :
  closed (stream (Stream_init two_frames)) = false
  ∧ ∃ header rest image_len ag,
      pending (stream (Stream_init two_frames)) = header ++ rest
      ∧ length header = 28%nat
      ∧ unpack_Lffffff header = Ok (image_len, ag)
      ∧ image_len = le_uint (take 4 header)
      ∧ 0 ≤ image_len < 2 ^ 32
      ∧ (1, ["h"; "e"; "l"; "l"; "o"]%byte, (0, 0, 0, 1, 0, -1)%float)
        = (i (Stream_init two_frames) + 1, take (Z.to_nat image_len) rest, ag)
      ∧ {| stream := {| pending := wire [frame_5]; closed := false |}; i := 1 |}
        = {| stream := {| pending := drop (Z.to_nat image_len) rest; closed := false |};
             i := i (Stream_init two_frames) + 1 |}.
Proof.
  apply (frame_needs_whole_header (Stream_init two_frames)
           (1, ["h"; "e"; "l"; "l"; "o"]%byte, (0, 0, 0, 1, 0, -1)%float)
           {| stream := {| pending := wire [frame_5]; closed := false |}; i := 1 |}).
  vm_compute. reflexivity.
Defined.

(** Once [Server.disconnect] has run, with either flag, [startVideo] ends at
    once whatever bytes the stream still held: no signal is emitted, the
    display is given the integer 0 and the warning is logged. *)
Theorem startVideo_after_disconnect (time : nat → float) (floor_div : float → float → float)
    (sd : bool) (n : Net) (fuel calls : nat) :
  ∃ n', disconnect sd n = Done tt n'
    ∧ startVideo time floor_div (S fuel) calls (streamfile n')
      = Stopped {| source := {| stream := streamfile n'; i := 1 |};
                   signals := [];
                   lcdNumber := [lcd_int 0];
                   video_log := [(WARNING, "Stopped Videostream")] |}.
Proof.
  destruct (disconnect_closes sd n) as (n' & E & _ & Hc & _).
  exists n'. split; [done|].
  unfold startVideo. cbn [startVideo_loop source].
  by rewrite next_closed.
Qed.
(** ** Release, then press again *)

(** However far the ramp had got, a release with no button down starts it
    over: the momentum is back at 0.0, so the next press of a ramp button
    finds it at one step of 0.01 and sets the Sideways channels to the value
    of the ramp's first step, with their Forwards complements at 0. *)
Theorem release_restarts_the_ramp (pow : float → float → float) (d : side) (n : nat)
    (w : World) :
  wf w →
  (∀ c, c ∈ sideways_channels → ramp_ok pow d momentum_step c) →
  ∃ w1 w2, reset_to_zero false false (S (S (S n))) w = Done tt w1
    ∧ MOMENTUM w1 = 0%float
    ∧ go pow d (S (S (S n))) w1 = Done tt w2
    ∧ MOMENTUM w2 = momentum_step
    ∧ ∀ c, c ∈ sideways_channels →
        gval w2 (complement_of c) = 0
        ∧ ramp_value pow momentum_step (ramp_bound_of d c) = Ok (gval w2 c).
Proof.
  intros Hwf Hok.
  destruct (reset_state n w Hwf) as (w1 & E1 & Hwf1 & Hm1 & _).
  assert ((MOMENTUM w1 + momentum_step)%float = momentum_step) as Hstep
    by (by rewrite Hm1).
  destruct (go_step pow d n w1 Hwf1) as (w2 & E2 & _ & Hm2 & _ & Hall2).
  { intros c Hc. rewrite Hstep. by apply Hok. }
  rewrite Hstep in Hm2.
  exists w1, w2. split; [done|]. split; [done|]. split; [done|]. split; [done|].
  intros c Hc. destruct (Hall2 c Hc) as [Hg Hv]. split; [done|]. by rewrite <- Hm2.
Qed.

Lemma release_restarts_the_ramp_witness :
  ∃ w1 w2, reset_to_zero false false 3 (World_init (connected [])) = Done tt w1
    ∧ MOMENTUM w1 = 0%float
    ∧ go pow_first_press Right 3 w1 = Done tt w2
    ∧ MOMENTUM w2 = momentum_step
    ∧ ∀ c, c ∈ sideways_channels →
        gval w2 (complement_of c) = 0
        ∧ ramp_value pow_first_press momentum_step (ramp_bound_of Right c) = Ok (gval w2 c).
Proof.
  apply (release_restarts_the_ramp pow_first_press Right 0 (World_init (connected []))).
  - apply wf_World_init.
  - intros c Hc. unfold sideways_channels in Hc. rewrite !elem_of_cons, elem_of_nil in Hc.
    destruct Hc as [->|[->|[->|[]]]];
      (eexists; split; [vm_compute; reflexivity|vm_compute; split; discriminate]).
Defined.
(** ** What a call transmits *)

Lemma transmits_refl w : transmits w w [].
Proof. split; [done|]. unfold transmitted. destruct (alive (rpi w)); by rewrite app_nil_r. Qed.

Lemma transmits_trans w1 w2 w3 l1 l2 :
  transmits w1 w2 l1 → transmits w2 w3 l2 → transmits w1 w3 (l1 ++ l2).
Proof.
  intros [Ha1 Hs1] [Ha2 Hs2]. split; [congruence|].
  rewrite Hs2, Hs1, transmitted_app, <- app_assoc. unfold transmitted. by rewrite Ha1.
Qed.

Lemma transmits_same_rpi w w' : rpi w' = rpi w → transmits w w' [].
Proof.
  intros E. split; [by rewrite E|]. rewrite E. unfold transmitted.
  destruct (alive (rpi w)); by rewrite app_nil_r.
Qed.

Lemma transmits_sent msg w :
  transmits w (rpi_store (sent_on msg (rpi w)) w) [msg +:+ LF].
Proof. split; [apply alive_sent_on|apply conn_sent_sent_on_transmitted]. Qed.

Lemma transmits_eq w w' l l' : transmits w w' l → l = l' → transmits w w' l'.
Proof. by intros H <-. Qed.

Lemma clip_zero c c' : (c, c') ∈ motor_pairs → clip (bounds_of c) 0 = 0.
Proof.
  intros Hp. destruct (motor_pair_facts c c' Hp) as (_ & _ & _ & _ & Hk & _).
  unfold motor_pairs in Hp. rewrite !elem_of_cons, elem_of_nil in Hp.
  repeat (destruct Hp as [Hp|Hp]; [injection Hp as -> ->; reflexivity|]). done.
Qed.

Lemma complement_of_pair c c' : (c, c') ∈ motor_pairs → complement_of c = c'.
Proof.
  intros Hp. destruct (motor_pair_facts c c' Hp) as (Hsw & _).
  unfold complement_of. by rewrite Hsw.
Qed.

Lemma range_of_motor c c' : (c, c') ∈ motor_pairs → range_of c = (-100, 100).
Proof.
  intros Hp. destruct (motor_pair_facts c c' Hp) as (_ & _ & _ & _ & _ & E).
  unfold range_of. by rewrite E.
Qed.

Lemma shown_own_zero w c c' : sval w c = 0 → shown w c c' = 0.
Proof. intros E. unfold shown. by destruct (decide _). Qed.

Section motor_lines.
Variable emit : string → M World unit.

(** [zero_complement] with what is transmitted: the lines of the
    complement's slot if it runs. *)
Lemma zero_complement_lines c c' w lines :
  (c, c') ∈ motor_pairs → wf w →
  (sval w c' ≠ 0 →
   ∃ w2, emit c' (slider_store c' 0 (GPIO_store c' 0 w)) = Done tt w2
     ∧ slot_post c' c (slider_store c' 0 (GPIO_store c' 0 w)) w2
     ∧ transmits (slider_store c' 0 (GPIO_store c' 0 w)) w2 lines) →
  ∃ w1, setValue emit c' 0 (GPIO_store c' 0 w) = Done tt w1 ∧ zeroed c c' w w1
    ∧ transmits w w1 (if decide (sval w c' = 0) then [] else lines).
Proof.
  intros Hp Hwf Hnested.
  destruct (zero_complement emit c c' w Hp Hwf) as (w1 & E1 & Hz1).
  { intros Hnz. destruct (Hnested Hnz) as (w2 & E2 & Hp2 & _). by exists w2. }
  exists w1. split; [done|]. split; [done|].
  pose proof (motor_pair_sym _ _ Hp) as Hp'.
  destruct (motor_state w c' c Hp' Hwf) as (ch0' & _ & _ & _ & _ & _ & _ & Es' & _).
  destruct (decide (sval w c' = 0)) as [Hz|Hnz].
  - rewrite (setValue_same emit c' 0 (GPIO_store c' 0 w) _ Es') in E1; [|simpl; by rewrite Hz|done].
    injection E1 as <-. by apply transmits_same_rpi.
  - destruct (Hnested Hnz) as (w2 & E2 & _ & Ht2).
    rewrite (setValue_changed emit c' 0 (GPIO_store c' 0 w) _ Es') in E1; [|simpl; done|done].
    change (qBound _ 0) with 0 in E1. rewrite E2 in E1. injection E1 as <-.
    change (transmits w w2 ([] ++ lines)).
    eapply transmits_trans; [|exact Ht2]. by apply transmits_same_rpi.
Qed.

(** [slider_value_motor] with what is transmitted: after the lines of the
    complement's slot, the command that clears the complement and the
    command of the channel with the clipped value. *)
Lemma slider_value_motor_lines c c' w lines :
  (c, c') ∈ motor_pairs → wf w →
  (sval w c' ≠ 0 →
   ∃ w2, emit c' (slider_store c' 0 (GPIO_store c' 0 w)) = Done tt w2
     ∧ slot_post c' c (slider_store c' 0 (GPIO_store c' 0 w)) w2
     ∧ transmits (slider_store c' 0 (GPIO_store c' 0 w)) w2 lines) →
  ∃ w', slider_value emit c w = Done tt w' ∧ slot_post c c' w w'
    ∧ transmits w w'
        ((if decide (sval w c' = 0) then [] else lines)
         ++ [command c' 0 +:+ LF; command c (clip (bounds_of c) (shown w c c')) +:+ LF]).
Proof.
  intros Hp Hwf Hnested.
  pose proof (motor_pair_sym _ _ Hp) as Hp'.
  destruct (motor_pair_facts c c' Hp) as (Hsw & Hne & _).
  destruct (zero_complement_lines c c' w lines Hp Hwf Hnested)
    as (w1 & E1 & (Hwf1 & Hev1 & Hg1 & Hs1 & Hsh1) & Ht1).
  destruct (slider_value_motor emit c c' w Hp Hwf) as (w' & E & Hpost).
  { intros Hnz. destruct (Hnested Hnz) as (w2 & E2 & Hp2 & _). by exists w2. }
  exists w'. split; [done|]. split; [done|].
  destruct (motor_state w c' c Hp' Hwf) as (ch0' & _ & _ & _ & _ & _ & Eg' & _).
  set (w2 := rpi_store (sent_on (command c' 0) (rpi w1)) w1).
  assert (wf w2) as Hwf2 by done.
  destruct (motor_state w2 c c' Hp Hwf2) as (ch0 & _ & Eb & Hb0 & _ & _ & Eg & Es & Hr).
  unfold slider_value, clear_f in E.
  erewrite bind_Done in E;
    [|rewrite (clear_f_loop_complement emit [c] c c' [] w w1 Hsw (mk_is_Some _ _ Eg') E1);
      reflexivity].
  rewrite (bind_Done _ _ _ _ _ (slider_get_Done c w2 _ Es)) in E.
  rewrite (bind_Done _ _ _ _ _ (bounds_check_Done c _ w2 _ Eg)) in E.
  rewrite (bind_Done _ _ _ _ _ (GPIO_set_value_Done c _ w2 (mk_is_Some _ _ Eg))) in E.
  rewrite rpi_send_Done in E. injection E as <-.
  eapply transmits_eq.
  - eapply transmits_trans; [exact Ht1|].
    eapply transmits_trans; [apply (transmits_sent (command c' 0) w1)|].
    fold w2.
    eapply transmits_trans;
      [apply (transmits_same_rpi w2 (GPIO_store c (clip (bounds ch0) (sval w2 c)) w2)); done|].
    apply (transmits_sent (command c (clip (bounds ch0) (sval w2 c)))).
  - simpl. rewrite <- Eb. change (sval w2 c) with (sval w1 c). rewrite Hsh1. done.
Qed.

End motor_lines.

(** The complement's slider shows 0: the two commands of the slot. *)
Lemma slot_quiet_lines emit c c' w :
  (c, c') ∈ motor_pairs → wf w → sval w c' = 0 →
  ∃ w', slider_value emit c w = Done tt w' ∧ slot_post c c' w w'
    ∧ transmits w w'
        [command c' 0 +:+ LF; command c (clip (bounds_of c) (sval w c)) +:+ LF].
Proof.
  intros Hp Hwf Hz.
  destruct (slider_value_motor_lines emit c c' w [] Hp Hwf) as (w' & E & Hpost & Ht); [done|].
  exists w'. split; [done|]. split; [done|].
  rewrite decide_True in Ht by done. by rewrite shown_quiet in Ht.
Qed.

(** The channel's own slider shows 0: [rest_lines]. *)
Lemma slot_once_lines n c c' w :
  (c, c') ∈ motor_pairs → wf w → sval w c = 0 →
  ∃ w', slider_value (valueChanged (S n)) c w = Done tt w' ∧ slot_post c c' w w'
    ∧ transmits w w' (rest_lines c c' (sval w c')).
Proof.
  intros Hp Hwf Hz.
  pose proof (motor_pair_sym _ _ Hp) as Hp'.
  destruct (motor_pair_facts c' c Hp') as (_ & Hne & HF & HT & _).
  destruct (slider_value_motor_lines (valueChanged (S n)) c c' w
              [command c 0 +:+ LF; command c' 0 +:+ LF] Hp Hwf)
    as (w' & E & Hpost & Ht).
  { intros Hnz. rewrite valueChanged_slider by done.
    set (w1 := slider_store c' 0 (GPIO_store c' 0 w)).
    destruct (motor_state w c' c Hp' Hwf) as (ch0' & _ & _ & _ & _ & _ & _ & Es & _).
    assert (wf w1) as Hwf1.
    { apply wf_slider_store; [by apply wf_GPIO_store|]. intros q Hq.
      simpl in Hq. rewrite Es in Hq. injection Hq as <-. simpl. lia. }
    assert (sval w1 c = 0) as Hz1.
    { unfold w1. rewrite sval_slider_store_ne by done. exact Hz. }
    assert (sval w1 c' = 0) as Hz1'.
    { apply sval_slider_store_eq. simpl. by rewrite Es. }
    destruct (slot_quiet_lines (valueChanged n) c' c w1 Hp' Hwf1 Hz1) as (w2 & E2 & Hp2 & Ht2).
    exists w2. split; [done|]. split; [done|].
    by rewrite Hz1', (clip_zero c' c Hp') in Ht2. }
  exists w'. split; [done|]. split; [done|].
  rewrite (shown_own_zero w c c' Hz), (clip_zero c c' Hp) in Ht. exact Ht.
Qed.

(** One step of [clear_f] on the name [c], or of [reset_to_zero] on [c']:
    the channel [c'] is set to rest. *)
Lemma clear_step_lines n c c' w :
  (c, c') ∈ motor_pairs → wf w →
  ∃ w1, setValue (valueChanged (S (S n))) c' 0 (GPIO_store c' 0 w) = Done tt w1
    ∧ zeroed c c' w w1
    ∧ transmits w (rpi_store (sent_on (command c' 0) (rpi w1)) w1)
        (clear_lines c' c (sval w c') (sval w c)).
Proof.
  intros Hp Hwf.
  pose proof (motor_pair_sym _ _ Hp) as Hp'.
  destruct (motor_pair_facts c' c Hp') as (_ & Hne & HF & HT & _).
  destruct (motor_state w c' c Hp' Hwf) as (ch0' & _ & _ & _ & _ & _ & _ & Es & _).
  destruct (zero_complement_lines (valueChanged (S (S n))) c c' w
              (rest_lines c' c (sval w c)) Hp Hwf) as (w1 & E1 & Hz1 & Ht1).
  { intros Hnz. rewrite valueChanged_slider by done.
    set (w0 := slider_store c' 0 (GPIO_store c' 0 w)).
    assert (wf w0) as Hwf0.
    { apply wf_slider_store; [by apply wf_GPIO_store|]. intros q Hq.
      simpl in Hq. rewrite Es in Hq. injection Hq as <-. simpl. lia. }
    assert (sval w0 c' = 0) as Hz0.
    { apply sval_slider_store_eq. simpl. by rewrite Es. }
    assert (sval w0 c = sval w c) as Hs0.
    { unfold w0. by rewrite sval_slider_store_ne. }
    destruct (slot_once_lines n c' c w0 Hp' Hwf0 Hz0) as (w2 & E2 & Hp2 & Ht2).
    exists w2. split; [done|]. split; [done|]. by rewrite <- Hs0. }
  exists w1. split; [done|]. split; [done|].
  unfold clear_lines. eapply transmits_trans; [exact Ht1|apply transmits_sent].
Qed.

Lemma flat_map_ext_elem {A B : Type} (f g : A → list B) (l : list A) :
  (∀ x, x ∈ l → f x = g x) → flat_map f l = flat_map g l.
Proof.
  induction l as [|a l IH]; intros H; [done|]. simpl.
  rewrite (H a) by apply list_elem_of_here.
  rewrite IH; [done|]. intros x Hx. apply H. by apply list_elem_of_further.
Qed.

(** The names of the rest of a list of pairwise distinct channels and
    complements are neither [c] nor its complement. *)
Lemma pairs_fresh c l :
  NoDup ((c :: l) ++ (complement_of <$> c :: l)) →
  NoDup (l ++ (complement_of <$> l))
  ∧ (c ∉ l ++ (complement_of <$> l)) ∧ (complement_of c ∉ l ++ (complement_of <$> l))
  ∧ ∀ x, x ∈ l → (x ∉ [c; complement_of c]) ∧ (complement_of x ∉ [c; complement_of c]).
Proof.
  intros Hnd. rewrite fmap_cons in Hnd.
  apply NoDup_pairs_cons in Hnd as (Hnd' & Hc_out' & Hc'_out & _).
  split; [done|]. split; [done|]. split; [done|].
  rewrite elem_of_app in Hc_out', Hc'_out.
  intros x Hx. rewrite !elem_of_cons, !elem_of_nil. split; intros [E|[E|[]]].
  - apply Hc_out'. left. by rewrite <- E.
  - apply Hc'_out. left. by rewrite <- E.
  - apply Hc_out'. right. rewrite <- E. by apply list_elem_of_fmap_2.
  - apply Hc'_out. right. rewrite <- E. by apply list_elem_of_fmap_2.
Qed.

(** What [clear_f] on Motor channels of distinct segments transmits. *)
Lemma clear_f_motors_lines n r l : ∀ w w',
  NoDup (l ++ (complement_of <$> l)) →
  (∀ c, c ∈ l → (c, complement_of c) ∈ motor_pairs) →
  wf w →
  clear_f_loop (valueChanged (S (S n))) r l w = Done (Some r) w' →
  transmits w w'
    (flat_map (λ c, clear_lines (complement_of c) c (sval w (complement_of c)) (sval w c)) l).
Proof.
  induction l as [|c l IH]; intros w w' Hnd Hl Hwf E.
  - simpl in E. injection E as <-. apply transmits_refl.
  - set (c' := complement_of c).
    assert ((c, c') ∈ motor_pairs) as Hp by (apply Hl; in_list).
    pose proof (motor_pair_sym _ _ Hp) as Hp'.
    destruct (motor_pair_facts c c' Hp) as (Hsw & Hne & _).
    destruct (motor_state w c' c Hp' Hwf) as (ch0' & _ & _ & _ & _ & _ & Eg' & _).
    destruct (clear_step_lines n c c' w Hp Hwf) as (w1 & E1 & (Hwf1 & Hev1 & _) & Ht1).
    set (w2 := rpi_store (sent_on (command c' 0) (rpi w1)) w1) in *.
    assert (evolves [c; c'] w w2) as Hev2.
    { eapply evolves_trans; [exact Hev1|]. apply evolves_sent. }
    rewrite (clear_f_loop_complement _ r c c' l w w1 Hsw (mk_is_Some _ _ Eg') E1) in E.
    apply pairs_fresh in Hnd as (Hnd' & _ & _ & Hfresh). fold c' in Hfresh.
    cbn [flat_map]. fold c'.
    eapply transmits_trans; [exact Ht1|].
    eapply transmits_eq.
    + apply (IH w2 w' Hnd'); [|done|exact E].
      intros x Hx. apply Hl. by apply list_elem_of_further.
    + apply flat_map_ext_elem. intros x Hx. destruct (Hfresh x Hx) as [Hx1 Hx2].
      by rewrite (evolves_sval _ _ _ _ Hev2 Hx1), (evolves_sval _ _ _ _ Hev2 Hx2).
Qed.

(** A group setter's step on a Motor channel whose complement was cleared,
    for a value [v] that fits a C [int]: the slider goes to [v] bounded to
    its range; if that moves it, the channel's own slot stores the clipped
    value over [v]; the command for [v] as given is sent last. *)
Lemma show_motor_lines n c c' v w :
  (c, c') ∈ motor_pairs → wf w → c_int v = Ok v → gval w c' = 0 → sval w c' = 0 →
  ∃ w',
    (GPIO_set_value c v;; setValue (valueChanged (S n)) c v;; rpi_send (command c v)) w
    = Done tt w'
    ∧ wf w' ∧ evolves [c; c'] w w'
    ∧ gval w' c' = 0 ∧ sval w' c' = 0
    ∧ sval w' c = bounded (range_of c) v
    ∧ gval w' c = (if decide (sval w c = bounded (range_of c) v) then v
                   else clip (bounds_of c) (bounded (range_of c) v))
    ∧ transmits w w' (group_lines c (sval w c) (bounded (range_of c) v) v).
Proof.
  intros Hp Hwf Hc Hg' Hs'.
  destruct (motor_pair_facts c c' Hp) as (Hsw & Hne & HF & HT & _).
  destruct (motor_state w c c' Hp Hwf) as (ch0 & _ & Eb & _ & _ & _ & Eg & Es & Hr).
  rewrite (range_of_motor c c' Hp). unfold group_lines. rewrite (complement_of_pair c c' Hp).
  set (w0 := GPIO_store c v w).
  assert (wf w0) as Hwf0 by by apply wf_GPIO_store.
  assert (gval w0 c = v) as Hg0 by (apply gval_GPIO_store_eq; by rewrite Eg).
  set (q := {| sl_value := sval w c; minimum := -100; maximum := 100 |}) in *.
  assert (bounded (-100, 100) v = qBound q v) as Hqb by done.
  rewrite Hqb.
  assert (∃ w1, setValue (valueChanged (S n)) c v w0 = Done tt w1
            ∧ wf w1 ∧ evolves [c; c'] w0 w1
            ∧ gval w1 c' = 0 ∧ sval w1 c' = 0
            ∧ sval w1 c = qBound q v
            ∧ gval w1 c = (if decide (sval w c = qBound q v) then v
                           else clip (bounds_of c) (qBound q v))
            ∧ transmits w0 w1
                (if decide (sval w c = qBound q v) then []
                 else [command c' 0 +:+ LF;
                       command c (clip (bounds_of c) (qBound q v)) +:+ LF]))
    as (w1 & E1 & Hwf1 & Hev1 & Hg1' & Hs1' & Hs1 & Hg1 & Ht1).
  { destruct (decide (sval w c = qBound q v)) as [Hsame|Hdiff].
    - exists w0. split; [by apply (setValue_same _ c v w0 _ Es)|].
      split; [done|]. split; [apply evolves_refl|].
      split; [unfold w0; by rewrite gval_GPIO_store_ne|]. split; [done|].
      split; [done|]. split; [done|]. apply transmits_refl.
    - rewrite (setValue_changed _ c v w0 _ Es) by done.
      rewrite valueChanged_slider by done.
      set (w0' := slider_store c (qBound q v) w0).
      assert (wf w0') as Hwf0'.
      { apply wf_slider_store; [done|]. intros q' Hq'. simpl in Hq'.
        rewrite Es in Hq'. injection Hq' as <-. apply qBound_range. simpl. lia. }
      assert (sval w0' c' = 0) as Hz.
      { unfold w0'. rewrite sval_slider_store_ne by done. done. }
      assert (sval w0' c = qBound q v) as Hsv.
      { apply sval_slider_store_eq. simpl. by rewrite Es. }
      destruct (slot_quiet_lines (valueChanged n) c c' w0' Hp Hwf0' Hz)
        as (w1 & E1 & ((Hwf1 & Hev1 & Hg1' & Hs1' & Hsh1) & Hg1) & Ht1).
      rewrite shown_quiet in Hsh1, Hg1 by done.
      exists w1. split; [done|]. split; [done|]. split.
      + eapply evolves_trans; [|exact Hev1]. apply evolves_slider_store. in_list.
      + split; [done|]. split; [done|]. split; [by rewrite Hsh1|].
        split; [by rewrite Hg1, Hsv|].
        rewrite Hsv in Ht1.
        change (transmits w0 w1 ([] ++ [command c' 0 +:+ LF;
                  command c (clip (bounds_of c) (qBound q v)) +:+ LF])).
        eapply transmits_trans; [|exact Ht1]. by apply transmits_same_rpi. }
  exists (rpi_store (sent_on (command c v) (rpi w1)) w1).
  split; [|split; [|split; [|split; [|split; [|split; [|split]]]]]].
  - rewrite (bind_Done _ _ _ _ _ (GPIO_set_value_Done c v w (mk_is_Some _ _ Eg))).
    rewrite (bind_Done _ _ _ _ _ E1). apply rpi_send_Done.
  - by apply wf_rpi_store.
  - eapply evolves_trans; [apply (evolves_GPIO_store [c; c'] c v); in_list|].
    eapply evolves_trans; [exact Hev1|]. apply evolves_sent.
  - by rewrite gval_rpi_store.
  - by rewrite sval_rpi_store.
  - by rewrite sval_rpi_store, Hs1.
  - by rewrite gval_rpi_store.
  - change (transmits w (rpi_store (sent_on (command c v) (rpi w1)) w1)
              ([] ++ (if decide (sval w c = qBound q v) then []
                      else [command c' 0 +:+ LF;
                            command c (clip (bounds_of c) (qBound q v)) +:+ LF])
                  ++ [command c v +:+ LF])).
    eapply transmits_trans; [apply (transmits_same_rpi w w0); done|].
    eapply transmits_trans; [exact Ht1|apply transmits_sent].
Qed.

(** The loop of a group setter over Motor channels of distinct segments
    whose complements were cleared. *)
Lemma show_motors_lines n (body : string → M World unit) (val : string → Z) (m : float) l :
  ∀ w,
  (∀ c w0, c ∈ l → wf w0 → MOMENTUM w0 = m →
     body c w0 =
     (GPIO_set_value c (val c);; setValue (valueChanged (S n)) c (val c);;
      rpi_send (command c (val c))) w0) →
  NoDup (l ++ (complement_of <$> l)) →
  (∀ c, c ∈ l → (c, complement_of c) ∈ motor_pairs) →
  (∀ c, c ∈ l → c_int (val c) = Ok (val c)) →
  wf w → MOMENTUM w = m →
  (∀ c, c ∈ l → gval w (complement_of c) = 0 ∧ sval w (complement_of c) = 0) →
  ∃ w', for_each body l w = Done tt w'
    ∧ wf w' ∧ evolves (l ++ (complement_of <$> l)) w w'
    ∧ (∀ c, c ∈ l →
        gval w' (complement_of c) = 0 ∧ sval w' (complement_of c) = 0
        ∧ sval w' c = bounded (range_of c) (val c)
        ∧ gval w' c = (if decide (sval w c = bounded (range_of c) (val c)) then val c
                       else clip (bounds_of c) (bounded (range_of c) (val c))))
    ∧ transmits w w'
        (flat_map (λ c, group_lines c (sval w c) (bounded (range_of c) (val c)) (val c)) l).
Proof.
  induction l as [|c l IH]; intros w Hbody Hnd Hl Hval Hwf Hm Hpre.
  - exists w. split; [done|]. split; [done|]. split; [apply evolves_refl|].
    split; [|apply transmits_refl]. intros c Hc. by apply elem_of_nil in Hc.
  - set (c' := complement_of c).
    assert ((c, c') ∈ motor_pairs) as Hp by (apply Hl; in_list).
    destruct (Hpre c) as (Hg' & Hs'); [in_list|]. fold c' in Hg', Hs'.
    destruct (show_motor_lines n c c' (val c) w Hp Hwf) as
      (w1 & E1 & Hwf1 & Hev1 & Hg1' & Hs1' & Hs1 & Hg1 & Ht1); [apply Hval; in_list|done..|].
    apply pairs_fresh in Hnd as (Hnd' & Hc_out' & Hc'_out & Hfresh).
    fold c' in Hc'_out, Hfresh.
    destruct (IH w1) as (w2 & E2 & Hwf2 & Hev2 & Hall & Ht2); try done.
    { intros x w0 Hx. apply Hbody. apply elem_of_cons. by right. }
    { intros x Hx. apply Hl. apply elem_of_cons. by right. }
    { intros x Hx. apply Hval. apply elem_of_cons. by right. }
    { destruct Hev1 as (_ & _ & -> & _). done. }
    { intros x Hx. destruct (Hfresh x Hx) as [_ Hx2].
      rewrite (evolves_gval _ _ _ _ Hev1 Hx2), (evolves_sval _ _ _ _ Hev1 Hx2).
      apply Hpre. apply elem_of_cons. by right. }
    exists w2. split; [|split; [done|split; [|split]]].
    + simpl. rewrite (bind_Done (body c) _ w tt w1); [exact E2|].
      rewrite Hbody by (done || in_list). exact E1.
    + eapply evolves_trans; (eapply evolves_weaken; [|eassumption]);
        intros k; rewrite ?fmap_cons, ?elem_of_app, ?elem_of_cons, ?elem_of_app, ?elem_of_nil;
        tauto.
    + intros x Hx. apply elem_of_cons in Hx as [->|Hx].
      * fold c'.
        rewrite (evolves_gval _ _ _ c' Hev2 Hc'_out), (evolves_sval _ _ _ c' Hev2 Hc'_out),
          (evolves_sval _ _ _ c Hev2 Hc_out'), (evolves_gval _ _ _ c Hev2 Hc_out').
        done.
      * destruct (Hall x Hx) as (Hgx' & Hsx' & Hsx & Hgx).
        destruct (Hfresh x Hx) as [Hx1 _].
        rewrite (evolves_sval _ _ _ _ Hev1 Hx1) in Hgx. done.
    + cbn [flat_map]. eapply transmits_trans; [exact Ht1|].
      eapply transmits_eq; [exact Ht2|].
      apply flat_map_ext_elem. intros x Hx. destruct (Hfresh x Hx) as [Hx1 _].
      by rewrite (evolves_sval _ _ _ _ Hev1 Hx1).
Qed.

Lemma bounded_id r v : r.1 ≤ v ≤ r.2 → bounded r v = v.
Proof. unfold bounded. lia. Qed.

(** The slot of the Forwards slider, with what it transmits. *)
Lemma forwards_slot_lines n w :
  wf w →
  ∃ w', forwards (valueChanged (S (S n))) w = Done tt w'
    ∧ wf w'
    ∧ evolves (forward_channels ++ (complement_of <$> forward_channels)) w w'
    ∧ (∀ c, c ∈ forward_channels →
        gval w' (complement_of c) = 0 ∧ sval w' (complement_of c) = 0
        ∧ sval w' c = sval w "Forwards"
        ∧ gval w' c =
            (if decide (shown w c (complement_of c) = sval w "Forwards")
             then sval w "Forwards"
             else clip (bounds_of c) (sval w "Forwards")))
    ∧ transmits w w' (forwards_lines w (sval w "Forwards")).
Proof.
  intros Hwf.
  destruct (wf_slider w "Forwards" _ Hwf eq_refl) as (v & Ev & Hv). simpl in Hv.
  rewrite (sval_lookup _ _ _ Ev). simpl.
  assert (NoDup (forward_channels ++ (complement_of <$> forward_channels))) as Hnd.
  { apply (bool_decide_unpack _). by vm_compute. }
  destruct (clear_f_motors n forward_channels forward_channels w Hnd forward_pairs Hwf)
    as (w1 & E1 & Hwf1 & Hev1 & Hall1).
  pose proof (clear_f_motors_lines n forward_channels forward_channels w w1 Hnd
                forward_pairs Hwf E1) as Ht1.
  destruct (show_motors_lines (S n)
              (λ s, GPIO_set_value s v;; setValue (valueChanged (S (S n))) s v;;
                    rpi_send (command s v))
              (λ _, v) (MOMENTUM w1) forward_channels w1)
    as (w2 & E2 & Hwf2 & Hev2 & Hall2 & Ht2); try done.
  { apply forward_pairs. }
  { intros c Hc. apply c_int_fits. lia. }
  { intros c Hc. destruct (Hall1 c Hc) as (? & ? & _). done. }
  assert (∀ c, c ∈ forward_channels → bounded (range_of c) v = v) as Hb.
  { intros c Hc. rewrite (range_of_motor c _ (forward_pairs c Hc)). by apply bounded_id. }
  exists w2. split; [|split; [done|split; [|split]]].
  - unfold forwards. rewrite (bind_Done _ _ _ _ _ (slider_get_Done "Forwards" w _ Ev)).
    simpl. unfold clear_f. fold forward_channels.
    rewrite (bind_Done _ _ _ _ _ E1). exact E2.
  - eapply evolves_trans; eassumption.
  - intros c Hc. destruct (Hall1 c Hc) as (_ & _ & Hsh).
    destruct (Hall2 c Hc) as (Hg' & Hs' & Hs & Hg).
    rewrite (Hb c Hc) in Hs, Hg. rewrite Hsh in Hg. done.
  - unfold forwards_lines. eapply transmits_trans; [exact Ht1|].
    eapply transmits_eq; [exact Ht2|].
    apply flat_map_ext_elem. intros c Hc. destruct (Hall1 c Hc) as (_ & _ & Hsh).
    by rewrite (Hb c Hc), Hsh.
Qed.

(** ** C5: the Forwards slider *)

Lemma wf_World_forwards_100 : wf World_forwards_100.
Proof.
  unfold World_forwards_100.
  repeat (apply wf_slider_store;
          [|intros q Hq; vm_compute in Hq; injection Hq as <-; simpl; lia]).
  apply wf_World_init.
Qed.

(** C5 (as the code has it). The slot of the Forwards slider returns. It
    leaves 0 in the Sideways complement of each of the three Forward
    channels. A Forward channel holds the raw value of the Forwards slider
    if its own slider showed that value once the complement was cleared;
    only if the slider had to move does the channel's own slot store the
    clipped value instead. What the call hands to a live connection is
    exactly [forwards_lines]: the lines that clear the three complements,
    then for each Forward channel the two lines of its own slot if its
    slider moved and, last, the command carrying the raw value. *)
Theorem forwards_sets_raw_value (n : nat) (w : World) :
  wf w →
  ∃ w', valueChanged (S (S (S n))) "Forwards" w = Done tt w'
    ∧ (∀ c, c ∈ forward_channels →
        gval w' (complement_of c) = 0
        ∧ gval w' c =
            (if decide (shown w c (complement_of c) = sval w "Forwards")
             then sval w "Forwards"
             else clip (bounds_of c) (sval w "Forwards")))
    ∧ conn_sent (rpi w')
      = conn_sent (rpi w) ++ transmitted (rpi w) (forwards_lines w (sval w "Forwards")).
Proof.
  intros Hwf.
  destruct (forwards_slot_lines n w Hwf) as (w' & E & _ & _ & Hall & _ & Ht).
  exists w'. split; [exact E|]. split; [|exact Ht].
  intros c Hc. destruct (Hall c Hc) as (Hg' & _ & _ & Hg). done.
Qed.

Lemma forwards_sets_raw_value_witness :
  ∃ w', valueChanged 3 "Forwards" World_forwards_100 = Done tt w'
    ∧ (∀ c, c ∈ forward_channels →
        gval w' (complement_of c) = 0
        ∧ gval w' c =
            (if decide (shown World_forwards_100 c (complement_of c)
                        = sval World_forwards_100 "Forwards")
             then sval World_forwards_100 "Forwards"
             else clip (bounds_of c) (sval World_forwards_100 "Forwards")))
    ∧ conn_sent (rpi w')
      = conn_sent (rpi World_forwards_100)
        ++ transmitted (rpi World_forwards_100)
             (forwards_lines World_forwards_100 (sval World_forwards_100 "Forwards")).
Proof.
  apply (forwards_sets_raw_value 0 World_forwards_100). apply wf_World_forwards_100.
Defined.

(** ** C9: [safe_value] *)

(** The slot of the Turn slider, with what it transmits. *)
Lemma turn_slot_exact n w :
  wf w →
  ∃ w', turn (valueChanged (S n)) w = Done tt w'
    ∧ wf w' ∧ evolves ["SJ1H"; "SJ2H"] w w'
    ∧ (∀ s, s ∈ joints → sval w' s = sval w "Turn")
    ∧ transmits w w' (flat_map (λ s, step_lines s (sval w s) (sval w "Turn")) joints).
Proof.
  intros Hwf.
  destruct (wf_slider w "Turn" _ Hwf eq_refl) as (v & Ev & Hv). simpl in Hv.
  assert (sval w "Turn" = v) as -> by by rewrite (sval_lookup _ _ _ Ev).
  unfold turn. rewrite (bind_Done _ _ _ _ _ (slider_get_Done "Turn" w _ Ev)). simpl.
  assert ("SJ1H" ∈ servos) as H1 by in_list.
  assert ("SJ2H" ∈ servos) as H2 by in_list.
  destruct (show_servo_lines n "SJ1H" v w H1 Hwf) as (w1 & E1 & Hwf1 & Hev1 & Hs1 & Hg1 & Hl1);
    [done|].
  destruct (show_servo_lines n "SJ2H" v w1 H2 Hwf1) as (w2 & E2 & Hwf2 & Hev2 & Hs2 & Hg2 & Hl2);
    [done|].
  assert (sval w1 "SJ2H" = sval w "SJ2H") as Es12
    by (apply (evolves_sval _ _ _ _ Hev1); by intros ?%list_elem_of_singleton).
  exists w2. split; [|split; [done|split; [|split]]].
  - rewrite (bind_Done _ _ _ _ _ E1). rewrite (bind_Done _ _ _ _ _ E2). done.
  - eapply evolves_trans; (eapply evolves_weaken; [|eassumption]);
      intros k; rewrite !elem_of_cons, !elem_of_nil; tauto.
  - intros s Hs. unfold joints in Hs. rewrite !elem_of_cons, elem_of_nil in Hs.
    destruct Hs as [->|[->|[]]]; [|done].
    rewrite (evolves_sval _ _ _ _ Hev2) by (by intros ?%list_elem_of_singleton). done.
  - assert (alive (rpi w1) = alive (rpi w)) as Ha1 by (by destruct Hev1 as (_ & _ & _ & ? & _)).
    assert (alive (rpi w2) = alive (rpi w1)) as Ha2 by (by destruct Hev2 as (_ & _ & _ & ? & _)).
    split; [congruence|].
    rewrite Hl2, Hl1, Es12. cbn [flat_map joints]. rewrite app_nil_r, transmitted_app, <- app_assoc.
    unfold transmitted. by rewrite Ha1.
Qed.

(** [sliders["Turn"].setValue(0)] as [safe_value] calls it. *)
Lemma Turn_reset n w :
  wf w →
  ∃ w0, setValue (valueChanged (S (S n))) "Turn" 0 w = Done tt w0
    ∧ wf w0 ∧ evolves ["Turn"; "SJ1H"; "SJ2H"] w w0
    ∧ (∀ s, s ∈ servos → sval w0 s = after_Turn_reset w s)
    ∧ transmits w w0 (Turn_reset_lines w).
Proof.
  intros Hwf.
  destruct (wf_slider w "Turn" _ Hwf eq_refl) as (v & Ev & Hv). simpl in Hv.
  assert (sval w "Turn" = v) as Et by by rewrite (sval_lookup _ _ _ Ev).
  unfold after_Turn_reset, Turn_reset_lines. rewrite Et.
  destruct (decide (v = 0)) as [->|Hnz].
  - exists w. split; [by apply (setValue_same _ "Turn" 0 w _ Ev)|]. split; [done|].
    split; [apply evolves_refl|]. split; [|apply transmits_refl].
    intros s Hs. rewrite decide_False; [done|]. by intros [? _].
  - rewrite (setValue_changed _ "Turn" 0 w _ Ev) by done.
    change (valueChanged (S (S n)) "Turn") with (turn (valueChanged (S n))).
    change (qBound _ 0) with 0.
    set (wt := slider_store "Turn" 0 w).
    assert (wf wt) as Hwft.
    { apply wf_slider_store; [done|]. intros q Hq. rewrite Ev in Hq.
      injection Hq as <-. done. }
    assert (sval wt "Turn" = 0) as Et0.
    { apply sval_slider_store_eq. by rewrite Ev. }
    assert (∀ s, s ∈ servos → sval wt s = sval w s) as Hst.
    { intros s Hs. destruct (servo_facts s Hs) as (_ & _ & HT & _).
      unfold wt. rewrite sval_slider_store_ne; [done|]. by intros <-. }
    destruct (turn_slot_exact n wt Hwft) as (w0 & E0 & Hwf0 & Hev0 & Hj0 & Ht0).
    exists w0. split; [done|]. split; [done|]. split; [|split].
    + eapply evolves_trans; [apply evolves_slider_store; in_list|].
      eapply evolves_weaken; [|exact Hev0].
      intros k; rewrite !elem_of_cons, !elem_of_nil; tauto.
    + intros s Hs. destruct (decide (s ∈ joints)) as [Hj|Hj].
      * rewrite decide_True by done. by rewrite (Hj0 s Hj).
      * rewrite decide_False by (by intros [_ ?]).
        rewrite (evolves_sval _ _ _ _ Hev0); [by apply Hst|].
        intros Hin. apply Hj. exact Hin.
    + change (transmits w w0 ([] ++ flat_map (λ s, step_lines s (sval w s) 0) joints)).
      eapply transmits_trans; [apply (transmits_same_rpi w wt); done|].
      eapply transmits_eq; [exact Ht0|].
      rewrite Et0. apply flat_map_ext_elem. intros s Hs. rewrite Hst; [done|].
      unfold joints in Hs. rewrite !elem_of_cons, elem_of_nil in Hs.
      destruct Hs as [->|[->|[]]]; in_list.
Qed.

(** One round of [safe_value]'s loop, with what it transmits. *)
Lemma safe_value_step_lines n s w :
  s ∈ servos → wf w →
  ∃ w',
    (ch ← GPIO_get s;
     GPIO_set_value s (safe ch);;
     ch ← GPIO_get s;
     setValue (valueChanged (S n)) s (safe ch);;
     ch ← GPIO_get s;
     rpi_send (command s (safe ch))) w = Done tt w'
    ∧ wf w' ∧ evolves [s] w w' ∧ gval w' s = safe_of s ∧ sval w' s = safe_of s
    ∧ transmits w w' (step_lines s (sval w s) (safe_of s)).
Proof.
  intros Hs Hwf.
  destruct (servo_state w s Hs Hwf) as (ch0 & q0 & E0 & Eb & Esafe & Hb & Eg & Es & Hq0 & _).
  rewrite Esafe.
  set (v := safe ch0) in *.
  assert ((range_of s).1 ≤ v ≤ (range_of s).2) as Hrange.
  { by rewrite (range_of_slider w s _ Hwf Es). }
  set (w0 := GPIO_store s v w).
  assert (wf w0) as Hwf0 by by apply wf_GPIO_store.
  assert (gval w0 s = v) as Hg0 by (apply gval_GPIO_store_eq; by rewrite Eg).
  destruct (wf_GPIO w0 s ch0 Hwf0 E0) as (x0 & Eg0).
  destruct (setValue_servo_lines n s v w0 Hs Hwf0 Hrange)
    as (w1 & E1 & Hwf1 & Hev1 & Hs1 & Hg1 & Hl1).
  destruct (wf_GPIO w1 s ch0 Hwf1 E0) as (x1 & Eg1).
  exists (rpi_store (sent_on (command s v) (rpi w1)) w1).
  split; [|split; [|split; [|split; [|split]]]].
  - rewrite (bind_Done _ _ _ _ _ (GPIO_get_Done s w _ Eg)).
    rewrite (bind_Done _ _ _ _ _ (GPIO_set_value_Done s _ w (mk_is_Some _ _ Eg))).
    rewrite (bind_Done _ _ _ _ _ (GPIO_get_Done s _ _ Eg0)).
    rewrite (bind_Done _ _ _ _ _ E1).
    rewrite (bind_Done _ _ _ _ _ (GPIO_get_Done s _ _ Eg1)).
    apply rpi_send_Done.
  - by apply wf_rpi_store.
  - eapply evolves_trans; [apply (evolves_GPIO_store [s] s v); in_list|].
    eapply evolves_trans; [exact Hev1|]. apply evolves_sent.
  - rewrite gval_rpi_store, Hg1, Hg0, Eb.
    destruct (decide _); [done|]. by apply clip_id.
  - by rewrite sval_rpi_store, Hs1.
  - assert (alive (rpi w1) = alive (rpi w)) as Ha1 by (by destruct Hev1 as (_ & _ & _ & ? & _)).
    split; [simpl; by rewrite alive_sent_on|].
    simpl. rewrite conn_sent_sent_on_transmitted, Hl1. unfold step_lines.
    rewrite transmitted_app, <- app_assoc. unfold transmitted. by rewrite Ha1.
Qed.

Lemma safe_value_loop_lines n l : ∀ w,
  NoDup l → (∀ s, s ∈ l → s ∈ servos) → wf w →
  ∃ w',
    for_each (λ s,
      ch ← GPIO_get s;
      GPIO_set_value s (safe ch);;
      ch ← GPIO_get s;
      setValue (valueChanged (S n)) s (safe ch);;
      ch ← GPIO_get s;
      rpi_send (command s (safe ch))) l w = Done tt w'
    ∧ wf w' ∧ evolves l w w'
    ∧ (∀ s, s ∈ l → gval w' s = safe_of s ∧ sval w' s = safe_of s)
    ∧ transmits w w' (flat_map (λ s, step_lines s (sval w s) (safe_of s)) l).
Proof.
  induction l as [|s l IH]; intros w Hnd Hl Hwf.
  { exists w. split; [done|]. split; [done|]. split; [apply evolves_refl|].
    split; [|apply transmits_refl]. by intros s ?%elem_of_nil. }
  apply NoDup_cons in Hnd as [Hnotin Hnd].
  destruct (safe_value_step_lines n s w) as (w1 & E1 & Hwf1 & Hev1 & Hg1 & Hs1 & Ht1);
    [apply Hl; in_list|done|].
  destruct (IH w1 Hnd) as (w2 & E2 & Hwf2 & Hev2 & Hall2 & Ht2); [|done|].
  { intros x Hx. apply Hl. by apply list_elem_of_further. }
  exists w2. split; [|split; [done|split; [|split]]].
  - cbn [for_each]. by rewrite (bind_Done _ _ _ _ _ E1).
  - eapply evolves_trans; (eapply evolves_weaken; [|eassumption]);
      intros k; rewrite ?elem_of_cons, ?elem_of_nil; tauto.
  - intros x Hx. apply elem_of_cons in Hx as [->|Hx]; [|by apply Hall2].
    by rewrite (evolves_gval _ _ _ _ Hev2), (evolves_sval _ _ _ _ Hev2).
  - cbn [flat_map]. eapply transmits_trans; [exact Ht1|].
    eapply transmits_eq; [exact Ht2|].
    apply flat_map_ext_elem. intros x Hx.
    rewrite (evolves_sval _ _ _ _ Hev1); [done|].
    intros ->%list_elem_of_singleton. done.
Qed.

Lemma wf_World_neck_40 : wf World_neck_40.
Proof.
  unfold World_neck_40.
  repeat (apply wf_slider_store;
          [|intros q Hq; vm_compute in Hq; injection Hq as <-; simpl; lia]).
  apply wf_GPIO_store, wf_World_init.
Qed.

(** C9. [safe_value] returns; afterwards every Servo channel holds its safe
    value and every Motor channel the value it held before. What the call
    hands to a live connection is exactly: the lines of the reset of the Turn
    slider (none if it showed 0), then for every Servo channel, in the order
    of the table, the line of the channel's own slot if its slider had to
    move and, last, the command carrying the safe value as configured. *)
Theorem safe_value_resets_servos (n : nat) (w : World) :
  wf w →
  ∃ w', safe_value (S (S n)) w = Done tt w'
    ∧ (∀ s, s ∈ servos → gval w' s = safe_of s)
    ∧ (∀ m, m ∈ motors → gval w' m = gval w m)
    ∧ conn_sent (rpi w')
      = conn_sent (rpi w)
        ++ transmitted (rpi w)
             (Turn_reset_lines w
              ++ flat_map (λ s, step_lines s (after_Turn_reset w s) (safe_of s)) servos).
Proof.
  intros Hwf.
  destruct (Turn_reset n w Hwf) as (w1 & E1 & Hwf1 & Hev1 & Hs1 & Ht1).
  assert (NoDup servos) as Hnd by (apply (bool_decide_unpack _); by vm_compute).
  destruct (safe_value_loop_lines (S n) servos w1 Hnd) as (w2 & E2 & Hwf2 & Hev2 & Hall & Ht2);
    [done|done|].
  exists w2. split; [|split; [|split]].
  - unfold safe_value. rewrite (bind_Done _ _ _ _ _ E1). exact E2.
  - intros s Hs. by destruct (Hall s Hs).
  - intros m Hm.
    rewrite (evolves_gval _ _ _ m Hev2), (evolves_gval _ _ _ m Hev1); [done|..];
      rewrite motors_eq in Hm; rewrite ?servos_eq;
      rewrite !elem_of_cons, elem_of_nil in *; intuition (subst; discriminate).
  - apply (transmits_trans w w1 w2 _ _ Ht1).
    eapply transmits_eq; [exact Ht2|].
    apply flat_map_ext_elem. intros s Hs. by rewrite (Hs1 s Hs).
Qed.

Lemma safe_value_resets_servos_witness :
  ∃ w', safe_value 2 World_neck_40 = Done tt w'
    ∧ (∀ s, s ∈ servos → gval w' s = safe_of s)
    ∧ (∀ m, m ∈ motors → gval w' m = gval World_neck_40 m)
    ∧ conn_sent (rpi w')
      = conn_sent (rpi World_neck_40)
        ++ transmitted (rpi World_neck_40)
             (Turn_reset_lines World_neck_40
              ++ flat_map (λ s, step_lines s (after_Turn_reset World_neck_40 s) (safe_of s))
                   servos).
Proof. apply (safe_value_resets_servos 0 World_neck_40). apply wf_World_neck_40. Defined.

(** ** resetToZero and the ramp: what is transmitted *)

Lemma motors_sval_Forwards_store v w m :
  m ∈ motors → sval (slider_store "Forwards" v w) m = sval w m.
Proof.
  intros Hm. apply sval_slider_store_ne. intros <-.
  revert Hm. rewrite motors_eq, !elem_of_cons, elem_of_nil. intuition discriminate.
Qed.

Lemma forward_in_motors c : c ∈ forward_channels → c ∈ motors ∧ complement_of c ∈ motors.
Proof.
  unfold forward_channels. rewrite !elem_of_cons, elem_of_nil.
  intros [->|[->|[->|[]]]]; split; in_list.
Qed.

Lemma sideways_in_motors c : c ∈ sideways_channels → c ∈ motors ∧ complement_of c ∈ motors.
Proof.
  unfold sideways_channels. rewrite !elem_of_cons, elem_of_nil.
  intros [->|[->|[->|[]]]]; split; in_list.
Qed.

Lemma motors_cases m :
  m ∈ motors → ∃ c, c ∈ forward_channels ∧ (m = c ∨ m = complement_of c).
Proof.
  rewrite motors_eq, !elem_of_cons, elem_of_nil.
  intros [->|[->|[->|[->|[->|[->|[]]]]]]];
    first [exists "MS1F"; split; [in_list|by auto]
          |exists "MS2F"; split; [in_list|by auto]
          |exists "MS3F"; split; [in_list|by auto]].
Qed.

(** [sliders["Forwards"].setValue(0)] as [reset_to_zero] and the ramp call
    it, with what it transmits and what the Motor sliders show after it. *)
Lemma reset_forwards_lines n w :
  wf w →
  ∃ w1, setValue (valueChanged (S (S (S n)))) "Forwards" 0 w = Done tt w1
    ∧ wf w1
    ∧ evolves ("Forwards" :: forward_channels ++ (complement_of <$> forward_channels)) w w1
    ∧ sval w1 "Forwards" = 0
    ∧ (∀ m, m ∈ motors → sval w1 m = after_Forwards_reset w m)
    ∧ transmits w w1 (Forwards_reset_lines w).
Proof.
  intros Hwf.
  destruct (wf_slider w "Forwards" _ Hwf eq_refl) as (v & Ev & Hv). simpl in Hv.
  assert (sval w "Forwards" = v) as Ef by by rewrite (sval_lookup _ _ _ Ev).
  unfold after_Forwards_reset, Forwards_reset_lines. rewrite Ef.
  destruct (decide (v = 0)) as [->|Hnz].
  - exists w. split; [by apply (setValue_same _ "Forwards" 0 w _ Ev)|].
    split; [done|]. split; [apply evolves_refl|]. split; [done|].
    split; [done|apply transmits_refl].
  - rewrite (setValue_changed _ "Forwards" 0 w _ Ev) by done.
    change (valueChanged (S (S (S n))) "Forwards") with (forwards (valueChanged (S (S n)))).
    change (qBound _ 0) with 0.
    set (w0 := slider_store "Forwards" 0 w).
    assert (wf w0) as Hwf0.
    { apply wf_slider_store; [done|]. intros q Hq. rewrite Ev in Hq.
      injection Hq as <-. done. }
    assert (sval w0 "Forwards" = 0) as Hs0.
    { apply sval_slider_store_eq. by rewrite Ev. }
    destruct (forwards_slot_lines n w0 Hwf0) as (w1 & E1 & Hwf1 & Hev1 & Hall1 & Ht1).
    exists w1. split; [done|]. split; [done|]. split; [|split; [|split]].
    + eapply evolves_trans; [apply evolves_slider_store; in_list|].
      eapply evolves_weaken; [|exact Hev1].
      intros k Hk. apply elem_of_cons. by right.
    + rewrite (evolves_sval _ _ _ "Forwards" Hev1); [done|].
      vm_compute. intros H. repeat (inversion H as [|? ? ? H']; subst; clear H; rename H' into H).
    + intros m Hm. destruct (motors_cases m Hm) as (c & Hc & [->| ->]);
        destruct (Hall1 c Hc) as (_ & Hs' & Hs & _); [by rewrite Hs, Hs0|done].
    + change (transmits w w1 ([] ++ forwards_lines w 0)).
      eapply transmits_trans; [apply (transmits_same_rpi w w0); done|].
      eapply transmits_eq; [exact Ht1|].
      rewrite Hs0. unfold forwards_lines. f_equal; apply flat_map_ext_elem; intros c Hc;
        destruct (forward_in_motors c Hc) as [Hm Hm']; unfold shown, w0;
        by rewrite !motors_sval_Forwards_store.
Qed.

(** One round of [reset_to_zero]'s loop, with what it transmits and what the
    complement's slider shows after it. *)
Lemma reset_step_lines n c c' w :
  (c, c') ∈ motor_pairs → wf w →
  ∃ w',
    (GPIO_set_value c 0;;
     ch ← GPIO_get c;
     setValue (valueChanged (S (S (S n)))) c (safe ch);;
     rpi_send (c +:+ ":0")) w = Done tt w'
    ∧ wf w' ∧ evolves [c; c'] w w'
    ∧ gval w' c = 0 ∧ sval w' c = 0
    ∧ sval w' c' = shown_of (sval w c') (sval w c)
    ∧ transmits w w' (clear_lines c c' (sval w c) (sval w c')).
Proof.
  intros Hp Hwf.
  pose proof (motor_pair_sym _ _ Hp) as Hp'.
  destruct (motor_pair_facts c c' Hp) as (Hsw & Hne & HF & HT & _).
  destruct (motor_state w c c' Hp Hwf) as (ch0 & E0 & Eb & Hb0 & _ & _ & Eg & Es & Hr).
  assert (safe ch0 = 0) as Hsafe.
  { pose proof (motor_safe c c' Hp) as H. unfold safe_of in H. by rewrite E0 in H. }
  set (w0 := GPIO_store c 0 w).
  assert (wf w0) as Hwf0 by by apply wf_GPIO_store.
  destruct (wf_GPIO w0 c ch0 Hwf0 E0) as (x0 & Eg0).
  destruct (clear_step_lines (S n) c' c w Hp' Hwf)
    as (w1 & E1 & (Hwf1 & Hev1 & Hg1 & Hs1 & Hsh1) & Ht1).
  exists (rpi_store (sent_on (command c 0) (rpi w1)) w1).
  split; [|split; [|split; [|split; [|split; [|split]]]]].
  - rewrite (bind_Done _ _ _ _ _ (GPIO_set_value_Done c 0 w (mk_is_Some _ _ Eg))).
    fold w0. rewrite (bind_Done _ _ _ _ _ (GPIO_get_Done c w0 _ Eg0)).
    change (safe (with_value x0 ch0)) with (safe ch0). rewrite Hsafe.
    rewrite (bind_Done _ _ _ _ _ E1). rewrite command_zero. apply rpi_send_Done.
  - by apply wf_rpi_store.
  - eapply evolves_trans; [|apply evolves_sent].
    eapply evolves_weaken; [|exact Hev1].
    intros k; rewrite !elem_of_cons, !elem_of_nil; tauto.
  - by rewrite gval_rpi_store.
  - by rewrite sval_rpi_store.
  - rewrite sval_rpi_store, Hsh1. done.
  - exact Ht1.
Qed.

(** The loop of [reset_to_zero] over pairs of Motor channels of distinct
    segments. *)
Lemma reset_pairs_lines n l : ∀ w w',
  NoDup (l ++ (complement_of <$> l)) →
  (∀ c, c ∈ l → (c, complement_of c) ∈ motor_pairs) →
  wf w →
  for_each (λ s,
    GPIO_set_value s 0;;
    ch ← GPIO_get s;
    setValue (valueChanged (S (S (S n)))) s (safe ch);;
    rpi_send (s +:+ ":0")) (flat_map (λ c, [c; complement_of c]) l) w = Done tt w' →
  transmits w w'
    (flat_map (λ c,
       clear_lines c (complement_of c) (sval w c) (sval w (complement_of c))
       ++ clear_lines (complement_of c) c
            (shown_of (sval w (complement_of c)) (sval w c)) 0) l).
Proof.
  induction l as [|c l IH]; intros w w' Hnd Hl Hwf E.
  { simpl in E. injection E as <-. apply transmits_refl. }
  set (c' := complement_of c) in *.
  assert ((c, c') ∈ motor_pairs) as Hp by (apply Hl; in_list).
  pose proof (motor_pair_sym _ _ Hp) as Hp'.
  destruct (reset_step_lines n c c' w Hp Hwf)
    as (w1 & E1 & Hwf1 & Hev1 & Hg1 & Hs1 & Hs1' & Ht1).
  destruct (reset_step_lines n c' c w1 Hp' Hwf1)
    as (w2 & E2 & Hwf2 & Hev2 & Hg2 & Hs2 & Hs2' & Ht2).
  cbn [flat_map app for_each] in E.
  rewrite (bind_Done _ _ _ _ _ E1) in E. rewrite (bind_Done _ _ _ _ _ E2) in E.
  apply pairs_fresh in Hnd as (Hnd' & _ & _ & Hfresh). fold c' in Hfresh.
  cbn [flat_map]. fold c'. rewrite <- app_assoc.
  eapply transmits_trans; [exact Ht1|].
  rewrite Hs1', Hs1 in Ht2.
  eapply transmits_trans; [exact Ht2|].
  eapply transmits_eq.
  - apply (IH w2 w' Hnd'); [|done|exact E].
    intros x Hx. apply Hl. by apply list_elem_of_further.
  - apply flat_map_ext_elem. intros x Hx. destruct (Hfresh x Hx) as [Hx1 Hx2].
    assert (∀ k, k ∉ [c; c'] → sval w2 k = sval w k) as Hk.
    { intros k Hk. rewrite (evolves_sval _ _ _ _ Hev2), (evolves_sval _ _ _ _ Hev1); [done|done|].
      revert Hk. rewrite !elem_of_cons, !elem_of_nil. tauto. }
    by rewrite (Hk _ Hx1), (Hk _ Hx2).
Qed.

Lemma wf_World_motor_50 : wf World_motor_50.
Proof.
  unfold World_motor_50.
  apply wf_slider_store;
    [|intros q Hq; vm_compute in Hq; injection Hq as <-; simpl; lia].
  apply wf_GPIO_store, wf_World_init.
Qed.

(** [reset_to_zero] does nothing at all while a ramp button is down (the
    release that auto-repeat signals between two presses); otherwise it
    returns with the momentum at 0.0, the Forwards slider at 0, every Motor
    channel at rest in the table and on its slider, and the Servo channels,
    their sliders and the Turn slider as they were; and what the call hands
    to a live connection is exactly [reset_lines]: the lines of the reset of
    the Forwards slider (none if it showed 0), then for every Motor channel,
    in the order of the table, the lines of the channel's own slot if its
    slider had to move and, last, its command [key:0]. *)
Theorem reset_to_zero_rests_motors (n : nat) (goLeft_isDown goRight_isDown : bool)
    (w : World) :
  wf w →
  if goLeft_isDown || goRight_isDown
  then reset_to_zero goLeft_isDown goRight_isDown (S (S (S n))) w = Done tt w
  else
    ∃ w', reset_to_zero goLeft_isDown goRight_isDown (S (S (S n))) w = Done tt w'
      ∧ MOMENTUM w' = 0%float
      ∧ sval w' "Forwards" = 0
      ∧ (∀ m, m ∈ motors → gval w' m = 0 ∧ sval w' m = 0)
      ∧ (∀ s, s ∈ servos → gval w' s = gval w s ∧ sval w' s = sval w s)
      ∧ sval w' "Turn" = sval w "Turn"
      ∧ conn_sent (rpi w') = conn_sent (rpi w) ++ transmitted (rpi w) (reset_lines w).
Proof.
  intros Hwf. destruct goLeft_isDown, goRight_isDown; try done.
  change (false || false) with false. cbv iota.
  destruct (reset_state n w Hwf) as (w' & E & _ & Hm & Hf & Hmot & Hser & Ht).
  exists w'. split; [done|]. split; [done|]. split; [done|].
  split; [intros m Hin; by destruct (Hmot m Hin) as (? & ? & _)|].
  split; [done|]. split; [done|].
  unfold reset_to_zero in E. change (false || false) with false in E. cbv iota in E.
  rewrite bind_modify in E.
  set (w0 := set_momentum 0 w) in *.
  assert (wf w0) as Hwf0 by done.
  destruct (reset_forwards_lines n w0 Hwf0) as (w1 & E1 & Hwf1 & _ & _ & Hs1 & Ht1).
  rewrite (bind_Done _ _ _ _ _ E1) in E.
  assert (NoDup (forward_channels ++ (complement_of <$> forward_channels))) as Hnd.
  { apply (bool_decide_unpack _). by vm_compute. }
  change (filter (λ x, String.prefix "M" x = true) GPIO_keys)
    with (flat_map (λ c, [c; complement_of c]) forward_channels) in E.
  pose proof (reset_pairs_lines n forward_channels w1 w' Hnd forward_pairs Hwf1 E) as Ht2.
  assert (transmits w0 w' (reset_lines w)) as [_ Hsent].
  { unfold reset_lines. apply (transmits_trans w0 w1 w' _ _ Ht1).
    eapply transmits_eq; [exact Ht2|].
    apply flat_map_ext_elem. intros c Hc. destruct (forward_in_motors c Hc) as [Hc1 Hc2].
    cbv zeta. by rewrite (Hs1 _ Hc1), (Hs1 _ Hc2). }
  exact Hsent.
Qed.

Lemma reset_to_zero_rests_motors_witness :
  ∃ w', reset_to_zero false false 3 World_motor_50 = Done tt w'
    ∧ MOMENTUM w' = 0%float
    ∧ sval w' "Forwards" = 0
    ∧ (∀ m, m ∈ motors → gval w' m = 0 ∧ sval w' m = 0)
    ∧ (∀ s, s ∈ servos → gval w' s = gval World_motor_50 s ∧ sval w' s = sval World_motor_50 s)
    ∧ sval w' "Turn" = sval World_motor_50 "Turn"
    ∧ conn_sent (rpi w')
      = conn_sent (rpi World_motor_50)
        ++ transmitted (rpi World_motor_50) (reset_lines World_motor_50).
Proof.
  apply (reset_to_zero_rests_motors 0 false false World_motor_50).
  apply wf_World_motor_50.
Defined.

(** ** The ramp beyond the bounds *)

(** The ramp hands on what it computes. If [int((MOMENTUM ** 1.6) * bound)]
    gives, for each of the three Sideways channels, a value that fits a C
    [int] (beyond that PyQt's [setValue] raises [OverflowError]), within the
    channel's bounds or not, then [go_left] and [go_right] return with the
    Forward complements at 0 and the slider of every Sideways channel at the
    value bounded to the slider's range; the table holds the value as given
    where the slider showed the bounded value already, the clipped bounded
    value of the channel's own slot where the slider had to move; and what
    the call hands to a live connection is exactly [ramp_lines]: the reset
    of the Forwards slider, the lines that clear the three Forward
    complements, then for every Sideways channel the two lines of its own
    slot if its slider moved and, last, the command carrying the value as
    given. *)
Theorem ramp_sends_raw_value (pow : float → float → float) (d : side) (n : nat)
    (val : string → Z) (w : World) :
  wf w →
  (∀ c, c ∈ sideways_channels →
     ramp_value pow (MOMENTUM w + momentum_step)%float (ramp_bound_of d c) = Ok (val c)
     ∧ -2147483648 ≤ val c ≤ 2147483647) →
  ∃ w', go pow d (S (S (S n))) w = Done tt w'
    ∧ MOMENTUM w' = (MOMENTUM w + momentum_step)%float
    ∧ (∀ c, c ∈ sideways_channels →
        gval w' (complement_of c) = 0
        ∧ sval w' c = bounded (range_of c) (val c)
        ∧ gval w' c =
            (if decide (ramp_shown w c = bounded (range_of c) (val c)) then val c
             else clip (bounds_of c) (bounded (range_of c) (val c))))
    ∧ conn_sent (rpi w') = conn_sent (rpi w) ++ transmitted (rpi w) (ramp_lines w val).
Proof.
  intros Hwf Hval.
  set (m := (MOMENTUM w + momentum_step)%float) in *.
  set (w0 := add_momentum w).
  assert (wf w0) as Hwf0 by done.
  destruct (reset_forwards_lines n w0 Hwf0) as (w1 & E1 & Hwf1 & Hev1 & _ & Hs1 & Ht1).
  assert (MOMENTUM w1 = m) as Hm1 by (destruct Hev1 as (_ & _ & -> & _); done).
  assert (NoDup (sideways_channels ++ (complement_of <$> sideways_channels))) as Hnd.
  { apply (bool_decide_unpack _). by vm_compute. }
  destruct (clear_f_motors (S n) sideways_channels sideways_channels w1 Hnd sideways_pairs Hwf1)
    as (w2 & E2 & Hwf2 & Hev2 & Hall2).
  pose proof (clear_f_motors_lines (S n) sideways_channels sideways_channels w1 w2 Hnd
                sideways_pairs Hwf1 E2) as Ht2.
  assert (MOMENTUM w2 = m) as Hm2 by (destruct Hev2 as (_ & _ & -> & _); done).
  destruct (show_motors_lines (S (S n))
              (λ s, ch ← GPIO_get s;
                    w ← get;
                    v ← lift (ramp_value pow (MOMENTUM w) (ramp_bound d ch));
                    GPIO_set_value s v;;
                    setValue (valueChanged (S (S (S n)))) s v;;
                    rpi_send (command s v))
              val m sideways_channels w2)
    as (w3 & E3 & Hwf3 & Hev3 & Hall3 & Ht3); try done.
  { intros c wx Hc Hwfx Hmx.
    pose proof (sideways_pairs c Hc) as Hp.
    destruct (motor_state wx c _ Hp Hwfx) as (ch0 & _ & Eb & _ & _ & _ & Eg & _).
    rewrite (bind_Done _ _ _ _ _ (GPIO_get_Done c wx _ Eg)). rewrite bind_get.
    assert (ramp_bound d (with_value (gval wx c) ch0) = ramp_bound_of d c) as ->.
    { unfold ramp_bound, ramp_bound_of. rewrite Eb. by destruct d. }
    rewrite Hmx. destruct (Hval c Hc) as (-> & _). done. }
  { apply sideways_pairs. }
  { intros c Hc. destruct (Hval c Hc) as (_ & Hv). by apply c_int_fits. }
  { intros c Hc. destruct (Hall2 c Hc) as (? & ? & _). done. }
  assert (MOMENTUM w3 = m) as Hm3 by (destruct Hev3 as (_ & _ & -> & _); done).
  assert (∀ c, c ∈ sideways_channels → sval w2 c = ramp_shown w c) as Hshown.
  { intros c Hc. destruct (Hall2 c Hc) as (_ & _ & ->).
    destruct (sideways_in_motors c Hc) as [Hc1 Hc2].
    unfold shown, ramp_shown, shown_of. by rewrite (Hs1 _ Hc1), (Hs1 _ Hc2). }
  exists w3. split; [|split; [done|split]].
  - unfold go. rewrite bind_modify. fold w0.
    rewrite (bind_Done _ _ _ _ _ E1). unfold clear_f. fold sideways_channels.
    rewrite (bind_Done _ _ _ _ _ E2). exact E3.
  - intros c Hc. destruct (Hall3 c Hc) as (Hg' & _ & Hs & Hg).
    rewrite (Hshown c Hc) in Hg. done.
  - assert (transmits w0 w3 (ramp_lines w val)) as [_ Hsent]; [|exact Hsent].
    unfold ramp_lines. apply (transmits_trans w0 w1 w3 _ _ Ht1).
    eapply transmits_trans.
    + eapply transmits_eq; [exact Ht2|].
      apply flat_map_ext_elem. intros c Hc. destruct (sideways_in_motors c Hc) as [Hc1 Hc2].
      by rewrite (Hs1 _ Hc1), (Hs1 _ Hc2).
    + eapply transmits_eq; [exact Ht3|].
      apply flat_map_ext_elem. intros c Hc. by rewrite (Hshown c Hc).
Qed.

Lemma ramp_sends_raw_value_witness :
  ∃ w', go pow_beyond Left 3 World_motor_50 = Done tt w'
    ∧ MOMENTUM w' = (MOMENTUM World_motor_50 + momentum_step)%float
    ∧ (∀ c, c ∈ sideways_channels →
        gval w' (complement_of c) = 0
        ∧ sval w' c = bounded (range_of c) 180
        ∧ gval w' c =
            (if decide (ramp_shown World_motor_50 c = bounded (range_of c) 180) then 180
             else clip (bounds_of c) (bounded (range_of c) 180)))
    ∧ conn_sent (rpi w')
      = conn_sent (rpi World_motor_50)
        ++ transmitted (rpi World_motor_50) (ramp_lines World_motor_50 (λ _, 180)).
Proof.
  apply (ramp_sends_raw_value pow_beyond Left 0 (λ _, 180) World_motor_50).
  - apply wf_World_motor_50.
  - intros c Hc. unfold sideways_channels in Hc. rewrite !elem_of_cons, elem_of_nil in Hc.
    destruct Hc as [->|[->|[->|[]]]]; (split; [vm_compute; reflexivity|lia]).
Defined.

(** A ramp value that does not fit a C [int] never reaches Qt: if
    [int((MOMENTUM ** 1.6) * bound)] gives such a value for MS1S, the first
    Sideways channel, then [go_left] and [go_right] raise [OverflowError]
    from the call of [setValue]; by then the value is in the table as the
    current value of MS1S, which is never clipped, while its slider stays
    where clearing the complements left it and no command for MS1S was sent:
    what the call handed to a live connection is the reset of the Forwards
    slider and the lines that clear the three Forward complements. *)
Theorem ramp_overflow_keeps_raw_value (pow : float → float → float) (d : side) (n : nat)
    (v : Z) (w : World) :
  wf w →
  ramp_value pow (MOMENTUM w + momentum_step)%float (ramp_bound_of d "MS1S") = Ok v →
  ¬ (-2147483648 ≤ v ≤ 2147483647) →
  ∃ w', go pow d (S (S (S n))) w = Raise OverflowError w'
    ∧ gval w' "MS1S" = v
    ∧ sval w' "MS1S" = ramp_shown w "MS1S"
    ∧ (∀ c, c ∈ sideways_channels → gval w' (complement_of c) = 0)
    ∧ conn_sent (rpi w')
      = conn_sent (rpi w)
        ++ transmitted (rpi w)
             (Forwards_reset_lines w
              ++ flat_map (λ c, clear_lines (complement_of c) c
                                  (after_Forwards_reset w (complement_of c))
                                  (after_Forwards_reset w c)) sideways_channels).
Proof.
  intros Hwf Hv Hover.
  set (m := (MOMENTUM w + momentum_step)%float) in *.
  set (w0 := add_momentum w).
  assert (wf w0) as Hwf0 by done.
  destruct (reset_forwards_lines n w0 Hwf0) as (w1 & E1 & Hwf1 & Hev1 & _ & Hs1 & Ht1).
  assert (MOMENTUM w1 = m) as Hm1 by (destruct Hev1 as (_ & _ & -> & _); done).
  assert (NoDup (sideways_channels ++ (complement_of <$> sideways_channels))) as Hnd.
  { apply (bool_decide_unpack _). by vm_compute. }
  destruct (clear_f_motors (S n) sideways_channels sideways_channels w1 Hnd sideways_pairs Hwf1)
    as (w2 & E2 & Hwf2 & Hev2 & Hall2).
  pose proof (clear_f_motors_lines (S n) sideways_channels sideways_channels w1 w2 Hnd
                sideways_pairs Hwf1 E2) as Ht2.
  assert (MOMENTUM w2 = m) as Hm2 by (destruct Hev2 as (_ & _ & -> & _); done).
  assert ("MS1S" ∈ sideways_channels) as Hc by in_list.
  pose proof (sideways_pairs "MS1S" Hc) as Hp.
  destruct (motor_state w2 "MS1S" _ Hp Hwf2) as (ch0 & _ & Eb & _ & _ & _ & Eg & Es & _).
  exists (GPIO_store "MS1S" v w2). split; [|split; [|split; [|split]]].
  - unfold go. rewrite bind_modify. fold w0.
    rewrite (bind_Done _ _ _ _ _ E1). unfold clear_f. fold sideways_channels.
    rewrite (bind_Done _ _ _ _ _ E2). cbn [for_in sideways_channels for_each].
    apply bind_Raise.
    rewrite (bind_Done _ _ _ _ _ (GPIO_get_Done "MS1S" w2 _ Eg)). rewrite bind_get.
    assert (ramp_bound d (with_value (gval w2 "MS1S") ch0) = ramp_bound_of d "MS1S") as ->.
    { unfold ramp_bound, ramp_bound_of. rewrite Eb. by destruct d. }
    rewrite Hm2, Hv.
    change ((GPIO_set_value "MS1S" v;; setValue (valueChanged (S (S (S n)))) "MS1S" v;;
             rpi_send (command "MS1S" v)) w2 = Raise OverflowError (GPIO_store "MS1S" v w2)).
    rewrite (bind_Done _ _ _ _ _ (GPIO_set_value_Done "MS1S" v w2 (mk_is_Some _ _ Eg))).
    apply bind_Raise.
    apply (setValue_overflow _ "MS1S" v (GPIO_store "MS1S" v w2) _ Es).
    by apply c_int_overflow.
  - apply gval_GPIO_store_eq. by rewrite Eg.
  - rewrite sval_GPIO_store. destruct (Hall2 "MS1S" Hc) as (_ & _ & ->).
    destruct (sideways_in_motors "MS1S" Hc) as [Hc1 Hc2].
    unfold shown, ramp_shown, shown_of. by rewrite (Hs1 _ Hc1), (Hs1 _ Hc2).
  - intros c Hc'. destruct (Hall2 c Hc') as (Hg' & _).
    rewrite gval_GPIO_store_ne; [done|].
    revert Hc'. unfold sideways_channels. rewrite !elem_of_cons, elem_of_nil.
    intros [->|[->|[->|[]]]]; discriminate.
  - assert (transmits w0 w2
              (Forwards_reset_lines w
               ++ flat_map (λ c, clear_lines (complement_of c) c
                                   (after_Forwards_reset w (complement_of c))
                                   (after_Forwards_reset w c)) sideways_channels))
      as [_ Hsent]; [|exact Hsent].
    apply (transmits_trans w0 w1 w2 _ _ Ht1).
    eapply transmits_eq; [exact Ht2|].
    apply flat_map_ext_elem. intros c Hc'. destruct (sideways_in_motors c Hc') as [Hc1 Hc2].
    by rewrite (Hs1 _ Hc1), (Hs1 _ Hc2).
Qed.

Lemma ramp_overflow_keeps_raw_value_witness :
  ∃ w', go pow_huge Left 3 World_motor_50 = Raise OverflowError w'
    ∧ gval w' "MS1S" = 98956046499840
    ∧ sval w' "MS1S" = ramp_shown World_motor_50 "MS1S"
    ∧ (∀ c, c ∈ sideways_channels → gval w' (complement_of c) = 0)
    ∧ conn_sent (rpi w')
      = conn_sent (rpi World_motor_50)
        ++ transmitted (rpi World_motor_50)
             (Forwards_reset_lines World_motor_50
              ++ flat_map (λ c, clear_lines (complement_of c) c
                                  (after_Forwards_reset World_motor_50 (complement_of c))
                                  (after_Forwards_reset World_motor_50 c)) sideways_channels).
Proof.
  apply (ramp_overflow_keeps_raw_value pow_huge Left 0 98956046499840 World_motor_50).
  - apply wf_World_motor_50.
  - vm_compute. reflexivity.
  - lia.
Defined.
